(** * TraceHawk X: the orchestration core, embedded and verified

    A shallow embedding of the Go sources
      - package modules  (data model, module registry),
      - package scoring  (internal/scoring/engine.go, risk scoring engine),
      - package core     (the orchestrator: phase pipeline, module execution),
      - package sandbox  (isolation layer)
    together with the properties the specification states about them.

    Conventions of the embedding:
      - float64 is Rocq's primitive binary64 [float]; every operation is
        the IEEE 754 one, evaluated in the order the source writes it
        (no fused multiply-add);
      - int is [Z] with the 64-bit two's complement wrap-around written
        out ([int_wrap]);
      - map[string]T is [gmap string T], a missing key reads as the zero
        value where the source uses the one-result form;
      - interface{} is the tagged union [GoValue];
      - error is the inductive [error], [None : option error] is nil;
      - goroutines are an explicit interleaving machine driven by a
        schedule of events. *)

From Stdlib Require Import ZArith Floats Lia.
From stdpp Require Import gmap strings list.

Set Warnings "-inexact-float".
Set Default Proof Using "Type".

Open Scope Z_scope.

(* ================================================================== *)
(** * Go's numeric types *)

Module GoNum.

(** ** int (64 bit, two's complement) *)

Definition MaxInt : Z := 2 ^ 63 - 1.
Definition MinInt : Z := - 2 ^ 63.

Definition int_wrap (z : Z) : Z := (z + 2 ^ 63) mod 2 ^ 64 - 2 ^ 63.

Definition int_range (z : Z) : Prop := MinInt <= z <= MaxInt.

(** [x++] *)
Definition int_incr (x : Z) : Z := int_wrap (x + 1).

(** [x += y] *)
Definition int_add (x y : Z) : Z := int_wrap (x + y).

(** [len(s)]; a Go slice never holds more than [MaxInt] elements. *)
Definition len {A} (l : list A) : Z := Z.of_nat (length l).

(** ** float64 *)

(** [float64(n)] for an int [n]: the nearest binary64, ties to even. *)
Definition float_of_int (n : Z) : float :=
  SF2Prim (binary_normalize prec emax n 0 false).

(** [math.Round] of Go's standard library: the nearest integer,
    halves rounded away from zero; zeros, infinities and NaN are
    returned unchanged.  A finite binary64 is [(-1)^s * m * 2^e]; for
    [e >= 0] it is an integer already, otherwise the integer part is
    [m / 2^-e] and the fraction [m mod 2^-e] decides the direction. *)
Definition Round (x : float) : float :=
  match Prim2SF x with
  | S754_finite s m e =>
      if 0 <=? e then x
      else
        let d := 2 ^ (- e) in
        let q := Z.pos m / d in
        let r := Z.pos m mod d in
        let n := if d <=? 2 * r then q + 1 else q in
        let a := float_of_int n in
        if s then (- a)%float else a
  | _ => x
  end.

End GoNum.
Import GoNum.

(* ================================================================== *)
(** * package modules: the data model *)

Module Modules.

(** Go's [error] values as they occur in the core: a fresh message
    ([errors.New], [fmt.Errorf] without [%w]), a wrapped cause
    ([fmt.Errorf("...: %w", err)]; the prefix is the text before the
    colon), and the two errors a [context.Context] reports. *)
Inductive error : Type :=
| ErrNew (msg : string)
| ErrWrap (prefix : string) (cause : error)
| ErrCanceled
| ErrDeadlineExceeded.

(** [err.Error()] *)
Fixpoint Error (e : error) : string :=
  match e with
  | ErrNew msg => msg
  | ErrWrap prefix cause => prefix +:+ ": " +:+ Error cause
  | ErrCanceled => "context canceled"
  | ErrDeadlineExceeded => "context deadline exceeded"
  end.

(** [errors.Unwrap] *)
Definition Unwrap (e : error) : option error :=
  match e with
  | ErrWrap _ cause => Some cause
  | _ => None
  end.

(** A value of type [interface{}]: the dynamic type and the value. *)
Inductive GoValue : Type :=
| VNil
| VBool (b : bool)
| VInt (n : Z)
| VFloat64 (f : float)
| VString (s : string)
| VStrings (l : list string).

(** The type assertion [v.(float64)] in its two-result form. *)
Definition as_float64 (v : GoValue) : option float :=
  match v with
  | VFloat64 f => Some f
  | _ => None
  end.

Record ScanConfig : Type := mkScanConfig {
  cfg_Targets : list string;
  cfg_Output : string;
  cfg_ReportDir : string;
  cfg_Threads : Z;
  cfg_RateLimit : Z;
  cfg_Deep : bool;
  cfg_BleedingEdge : bool;
  cfg_Stealth : bool;
  cfg_Aggressive : bool;
  cfg_NoThrottle : bool;
  cfg_Exclude : list string;
  cfg_LLMModel : string;
  cfg_Temperature : float;
  cfg_GeneratePatch : bool;
  cfg_ShadowClone : string;
  cfg_DepDrift : bool;
  cfg_TimingMap : bool;
  cfg_BlueTeam : bool
}.

Record PortResult : Type := mkPortResult {
  port_Port : Z;
  port_Protocol : string;
  port_State : string;
  port_Service : string;
  port_Version : string
}.

Record ServiceResult : Type := mkServiceResult {
  svc_Name : string;
  svc_Version : string;
  svc_Banner : string;
  svc_Metadata : gmap string GoValue
}.

Record WebAppResult : Type := mkWebAppResult {
  web_URL : string;
  web_StatusCode : Z;
  web_Title : string;
  web_Technology : list string;
  web_Headers : gmap string string;
  web_Endpoints : list string;
  web_Metadata : gmap string GoValue
}.

Record HostResult : Type := mkHostResult {
  host_IP : string;
  host_Hostname : string;
  host_Ports : list PortResult;
  host_Services : list ServiceResult;
  host_WebApps : list WebAppResult
}.

Record Vulnerability : Type := mkVulnerability {
  vuln_ID : string;
  vuln_Name : string;
  vuln_Description : string;
  vuln_Severity : string;
  vuln_CVSS : float;
  vuln_CVE : string;
  vuln_Host : string;
  vuln_Port : Z;
  vuln_Service : string;
  vuln_URL : string;
  vuln_Evidence : string;
  vuln_PoC : string;
  vuln_References : list string;
  vuln_RiskScore : float;
  vuln_Exploitable : bool;
  vuln_Metadata : gmap string GoValue
}.

(** [vuln.RiskScore = score] *)
Definition set_RiskScore (score : float) (v : Vulnerability) : Vulnerability :=
  mkVulnerability (vuln_ID v) (vuln_Name v) (vuln_Description v)
    (vuln_Severity v) (vuln_CVSS v) (vuln_CVE v) (vuln_Host v) (vuln_Port v)
    (vuln_Service v) (vuln_URL v) (vuln_Evidence v) (vuln_PoC v)
    (vuln_References v) score (vuln_Exploitable v) (vuln_Metadata v).

Record PatchRecommendation : Type := mkPatchRecommendation {
  patch_VulnID : string;
  patch_Type : string;
  patch_Language : string;
  patch_Framework : string;
  patch_Diff : string;
  patch_WAFRule : string;
  patch_Description : string;
  patch_Confidence : float
}.

Record ScanSummary : Type := mkScanSummary {
  TotalHosts : Z;
  AliveHosts : Z;
  TotalPorts : Z;
  OpenPorts : Z;
  TotalVulns : Z;
  CriticalVulns : Z;
  HighVulns : Z;
  MediumVulns : Z;
  LowVulns : Z;
  ExploitableVulns : Z;
  HighRiskVulns : Z;
  ScanDuration : string;
  RiskScore : float;
  ModulesExecuted : list string
}.

(** The zero value of [ScanSummary]. *)
Definition zeroSummary : ScanSummary :=
  mkScanSummary 0 0 0 0 0 0 0 0 0 0 0 "" 0%float [].

Record ScanResults : Type := mkScanResults {
  Hosts : list HostResult;
  Vulnerabilities : list Vulnerability;
  Patches : list PatchRecommendation;
  BleedingEdge : gmap string GoValue;
  Summary : ScanSummary
}.

(** One entry of the logging sink ([logrus]): level, the fields added
    through [WithField] on top of the run's base logger, and the
    formatted message.  Durations are wall-clock readings; the
    "duration" field is left out of the entries. *)
Inductive Level : Type := LvlDebug | LvlInfo | LvlWarn | LvlError.

Record LogEntry : Type := mkLogEntry {
  log_level : Level;
  log_fields : list (string * string);
  log_msg : string
}.

(** [Scan]: the run's shared state.  [Logger] is the sink itself: the
    entries written so far, oldest first. *)
Record Scan : Type := mkScan {
  ID : string;
  Targets : list string;
  Config : ScanConfig;
  Results : ScanResults;
  Context : gmap string GoValue;
  Logger : list LogEntry
}.

(** [s.Results = results] and the like: assignments through the
    pointers the source holds. *)
Definition set_Results (results : ScanResults) (s : Scan) : Scan :=
  mkScan (ID s) (Targets s) (Config s) results (Context s) (Logger s).

Definition set_Logger (logger : list LogEntry) (s : Scan) : Scan :=
  mkScan (ID s) (Targets s) (Config s) (Results s) (Context s) logger.

Definition set_Summary (summary : ScanSummary) (r : ScanResults) : ScanResults :=
  mkScanResults (Hosts r) (Vulnerabilities r) (Patches r) (BleedingEdge r) summary.

Definition set_Vulnerabilities (vulns : list Vulnerability) (r : ScanResults) : ScanResults :=
  mkScanResults (Hosts r) vulns (Patches r) (BleedingEdge r) (Summary r).

Definition set_HighRiskVulns (n : Z) (s : ScanSummary) : ScanSummary :=
  mkScanSummary (TotalHosts s) (AliveHosts s) (TotalPorts s) (OpenPorts s)
    (TotalVulns s) (CriticalVulns s) (HighVulns s) (MediumVulns s) (LowVulns s)
    (ExploitableVulns s) n (ScanDuration s) (RiskScore s) (ModulesExecuted s).

Definition set_ScanDuration (d : string) (s : ScanSummary) : ScanSummary :=
  mkScanSummary (TotalHosts s) (AliveHosts s) (TotalPorts s) (OpenPorts s)
    (TotalVulns s) (CriticalVulns s) (HighVulns s) (MediumVulns s) (LowVulns s)
    (ExploitableVulns s) (HighRiskVulns s) d (RiskScore s) (ModulesExecuted s).

Definition set_SummaryRiskScore (x : float) (s : ScanSummary) : ScanSummary :=
  mkScanSummary (TotalHosts s) (AliveHosts s) (TotalPorts s) (OpenPorts s)
    (TotalVulns s) (CriticalVulns s) (HighVulns s) (MediumVulns s) (LowVulns s)
    (ExploitableVulns s) (HighRiskVulns s) (ScanDuration s) x (ModulesExecuted s).

Definition set_ModulesExecuted (l : list string) (s : ScanSummary) : ScanSummary :=
  mkScanSummary (TotalHosts s) (AliveHosts s) (TotalPorts s) (OpenPorts s)
    (TotalVulns s) (CriticalVulns s) (HighVulns s) (MediumVulns s) (LowVulns s)
    (ExploitableVulns s) (HighRiskVulns s) (ScanDuration s) (RiskScore s) l.

(** A logging call on the run's sink. *)
Definition logf (lvl : Level) (fields : list (string * string)) (msg : string)
    (s : Scan) : Scan :=
  set_Logger (Logger s ++ [mkLogEntry lvl fields msg]) s.

(** [func (s *Scan) GetContext(key string) (interface{}, bool)] *)
Definition GetContext (s : Scan) (key : string) : GoValue * bool :=
  match Context s !! key with
  | Some val => (val, true)
  | None => (VNil, false)
  end.

(** [func (s *Scan) AddHost(host HostResult)], under [Results.mu]. *)
Definition AddHost (host : HostResult) (s : Scan) : Scan :=
  set_Results
    (mkScanResults (Hosts (Results s) ++ [host]) (Vulnerabilities (Results s))
       (Patches (Results s)) (BleedingEdge (Results s)) (Summary (Results s))) s.

(** [func (s *Scan) AddVulnerability(vuln Vulnerability)], under [Results.mu]. *)
Definition AddVulnerability (vuln : Vulnerability) (s : Scan) : Scan :=
  set_Results (set_Vulnerabilities (Vulnerabilities (Results s) ++ [vuln]) (Results s)) s.

End Modules.
Import Modules.

(* ================================================================== *)
(** * package modules: the capability contract and the registry *)

Module Registry.

(** Why a [context.Context] is done. *)
Inductive CtxErr : Type := Canceled | DeadlineExceeded.

(** The state of a [context.Context]: [None] while live, [Some c] once
    [Done()] is closed. *)
Definition Ctx : Type := option CtxErr.

(** The error of a done context: [context.Canceled] or
    [context.DeadlineExceeded]. *)
Definition ctx_error (c : CtxErr) : error :=
  match c with
  | Canceled => ErrCanceled
  | DeadlineExceeded => ErrDeadlineExceeded
  end.

(** [ctx.Err()] *)
Definition Err (ctx : Ctx) : option error := ctx_error <$> ctx.

(** [type Module interface].  An implementation is the record of its
    methods; [Run] receives the cancellation context and the shared
    [Scan] and returns the [Scan] as it left it together with its error
    result.  [Flags] only concerns command line parsing. *)
Record Module : Type := mkModule {
  Name : string;
  Description : string;
  Category : string;
  Author : string;
  Version : string;
  Prerequisites : option error;
  Run : Ctx -> Scan -> Scan * option error;
  Cleanup : option error
}.

(** [type Registry struct { modules map[string]Module; mu sync.RWMutex }]:
    every access below holds [mu], so each function is one atomic
    transition of the map. *)
Abbreviation Registry := (gmap string Module).

(** [registry = &Registry{modules: make(map[string]Module)}] *)
Definition registry0 : Registry := ∅.

(** What a call that may end in [logrus.Fatalf] produces: either it
    returns, or the message is logged and the process exits with
    status 1. *)
Inductive outcome (A : Type) : Type :=
| Returned (a : A)
| Fatal (msg : string).
Arguments Returned {A} a.
Arguments Fatal {A} msg.

(** [func Register(module Module)]; the debug entry it writes on
    success goes to the global logger and is not kept. *)
Definition Register (module : Module) (reg : Registry) : outcome Registry :=
  let name := Name module in
  if decide (name = "") then Fatal "Module name cannot be empty"
  else
    match reg !! name with
    | Some _ => Fatal ("Module " +:+ name +:+ " already registered")
    | None => Returned (<[name := module]> reg)
    end.

(** [func GetModule(name string) (Module, bool)]; the first component
    is [None] for the nil interface value. *)
Definition GetModule (reg : Registry) (name : string) : option Module * bool :=
  match reg !! name with
  | Some module => (Some module, true)
  | None => (None, false)
  end.

(** [func GetModulesByCategory(category string) []Module]: the range
    over the map visits the entries in an order Go leaves open; the
    embedding takes the one of [map_to_list]. *)
Definition GetModulesByCategory (reg : Registry) (category : string) : list Module :=
  foldl (fun filtered kv =>
           if decide (Category kv.2 = category) then filtered ++ [kv.2]
           else filtered)
        [] (map_to_list reg).

(** [func ValidateTargets(targets []string) error] *)
Definition ValidateTargets (targets : list string) : option error := None.

End Registry.
Import Registry.

(* ================================================================== *)
(** * internal/scoring/engine.go *)

Module Scoring.

Record Engine : Type := mkEngine {
  severityWeights : gmap string float;
  exploitWeight : float;
  driftWeight : float;
  llmWeight : float
}.

(** [func NewEngine() *Engine] *)
Definition NewEngine : Engine :=
  mkEngine
    (<["critical" := 10.0%float]>
       (<["high" := 7.5%float]>
          (<["medium" := 5.0%float]>
             (<["low" := 2.5%float]>
                (<["info" := 1.0%float]> ∅)))))
    1.5%float 0.2%float 0.2%float.

(** [m[k]] on a [map[string]float64]: the zero value when [k] is missing. *)
Definition index_float (m : gmap string float) (k : string) : float :=
  default 0%float (m !! k).

(** [if score > 100 { score = 100 }] *)
Definition cap100 (score : float) : float :=
  if (100 <? score)%float then 100%float else score.

(** [math.Round(score*100) / 100] *)
Definition round2 (score : float) : float :=
  (Round (score * 100) / 100)%float.

(** [func (e *Engine) CalculateRiskScore(vuln *Vulnerability, scan *Scan) float64] *)
Definition CalculateRiskScore (e : Engine) (vuln : Vulnerability) (scan : Scan) : float :=
  let baseSeverity := index_float (severityWeights e) (vuln_Severity vuln) in
  let baseSeverity := if (baseSeverity =? 0)%float then 1.0%float else baseSeverity in
  let exploitCoeff := if vuln_Exploitable vuln then exploitWeight e else 1.0%float in
  let driftFactor :=
    match GetContext scan "supply_chain_drift" with
    | (driftData, true) =>
        match as_float64 driftData with
        | Some drift => (1.0 + drift * driftWeight e)%float
        | None => 1.0%float
        end
    | (_, false) => 1.0%float
    end in
  let llmConfidence :=
    match vuln_Metadata vuln !! "llm_confidence" with
    | Some confidence =>
        match as_float64 confidence with
        | Some conf => (0.8 + conf * llmWeight e)%float
        | None => 1.0%float
        end
    | None => 1.0%float
    end in
  let score := (baseSeverity * exploitCoeff * driftFactor * llmConfidence)%float in
  round2 (cap100 score).

(** The loop of [CalculateOverallRiskScore]: [totalScore],
    [criticalCount] and [highCount] after ranging over [vulns]. *)
Definition overall_loop (vulns : list Vulnerability) : float * Z * Z :=
  foldl (fun '(totalScore, criticalCount, highCount) vuln =>
           let totalScore := (totalScore + vuln_RiskScore vuln)%float in
           if decide (vuln_Severity vuln = "critical")
           then (totalScore, int_incr criticalCount, highCount)
           else if decide (vuln_Severity vuln = "high")
           then (totalScore, criticalCount, int_incr highCount)
           else (totalScore, criticalCount, highCount))
        (0%float, 0, 0) vulns.

(** [func (e *Engine) CalculateOverallRiskScore(vulns []Vulnerability) float64] *)
Definition CalculateOverallRiskScore (e : Engine) (vulns : list Vulnerability) : float :=
  if decide (len vulns = 0) then 0.0%float
  else
    let '(totalScore, criticalCount, highCount) := overall_loop vulns in
    let avgScore := (totalScore / float_of_int (len vulns))%float in
    let criticalBonus := (float_of_int criticalCount * 5.0)%float in
    let highBonus := (float_of_int highCount * 2.0)%float in
    let overallScore := (avgScore + criticalBonus + highBonus)%float in
    round2 (cap100 overallScore).

End Scoring.
Import Scoring.

(* ================================================================== *)
(** * package sandbox: the isolation layer *)

Module Sandbox.

Record Manager : Type := mkManager {
  m_config : ScanConfig;
  m_active : bool;
  m_namespace : string
}.

(** What [Initialize] asks of the host: the effective user id, whether
    [unshare] is on the PATH, and the result of starting the command. *)
Record Host : Type := mkHost {
  host_euid : Z;
  host_unshare : bool;
  host_start : option error
}.

Definition sandbox_fields : list (string * string) := [("component", "sandbox")].

(** [func NewManager(config *ScanConfig) ( *Manager, error)] *)
Definition NewManager (config : ScanConfig) : Manager * option error :=
  (mkManager config false "", None).

(** [func (m *Manager) Initialize(ctx context.Context) error]; the
    manager's log entries go to the sink held in [scan]. *)
Definition Initialize (host : Host) (m : Manager) (scan : Scan)
    : Manager * Scan * option error :=
  if negb (host_euid host =? 0) then
    (m, logf LvlInfo sandbox_fields "Not running as root, sandbox disabled" scan, None)
  else if negb (host_unshare host) then
    (m, logf LvlWarn sandbox_fields "unshare command not available, sandbox disabled" scan,
     None)
  else
    let m := mkManager (m_config m) (m_active m) "tracehawk-scan" in
    let scan := logf LvlInfo sandbox_fields "Initializing network namespace sandbox" scan in
    match host_start host with
    | Some err => (m, scan, Some (ErrWrap "failed to create network namespace" err))
    | None =>
        (mkManager (m_config m) true (m_namespace m),
         logf LvlInfo sandbox_fields "Sandbox initialized successfully" scan, None)
    end.

(** [func (m *Manager) IsActive() bool] *)
Definition IsActive (m : Manager) : bool := m_active m.

(** [func (m *Manager) ExecuteModule(ctx, module, scan) error] *)
Definition ExecuteModule (m : Manager) (ctx : Ctx) (module : Module) (scan : Scan)
    : Scan * option error :=
  if negb (m_active m) then Run module ctx scan
  else
    Run module ctx
      (logf LvlInfo (sandbox_fields ++ [("module", Name module)])
         "Executing module in sandbox" scan).

(** [func (m *Manager) Cleanup() error] *)
Definition Cleanup (m : Manager) (scan : Scan) : Manager * Scan * option error :=
  if negb (m_active m) then (m, scan, None)
  else
    (mkManager (m_config m) false (m_namespace m),
     logf LvlInfo sandbox_fields "Cleaning up sandbox" scan, None).

End Sandbox.
Import Sandbox.

(* ================================================================== *)
(** * package core: the orchestrator *)

Module Core.

(** [type Orchestrator struct]; [logger] is the sink held in the
    [Scan]; [reporter] stands for the report generator by its
    [Generate(ctx, scan)] method, a collaborator the orchestrator only
    calls. *)
Record Orchestrator : Type := mkOrchestrator {
  o_config : ScanConfig;
  o_scan : Scan;
  o_sandbox : Manager;
  o_reporter : Ctx -> Scan -> Scan * option error;
  o_scorer : Engine
}.

Definition set_scan (scan : Scan) (o : Orchestrator) : Orchestrator :=
  mkOrchestrator (o_config o) scan (o_sandbox o) (o_reporter o) (o_scorer o).

Definition set_sandbox (m : Manager) (o : Orchestrator) : Orchestrator :=
  mkOrchestrator (o_config o) (o_scan o) m (o_reporter o) (o_scorer o).

(** [o.scan.Results.Summary = summary] *)
Definition set_summary (summary : ScanSummary) (o : Orchestrator) : Orchestrator :=
  set_scan (set_Results (set_Summary summary (Results (o_scan o))) (o_scan o)) o.

Definition summary_of (o : Orchestrator) : ScanSummary := Summary (Results (o_scan o)).

(** [o.logger.Info(..)], [o.logger.Warnf(..)], ... *)
Definition olog (lvl : Level) (fields : list (string * string)) (msg : string)
    (o : Orchestrator) : Orchestrator :=
  set_scan (logf lvl fields msg (o_scan o)) o.

(** The orchestrator together with the state of the [ctx] its methods
    are called with. *)
Record World : Type := mkWorld {
  orch : Orchestrator;
  ctx : Ctx
}.

Definition on_orch (f : Orchestrator -> Orchestrator) (w : World) : World :=
  mkWorld (f (orch w)) (ctx w).

(** ** updateScanSummary *)

(** [for _, host := range Hosts { if len(host.Ports) > 0 || len(host.Services) > 0 { AliveHosts++ } }] *)
Definition count_alive (hosts : list HostResult) : Z :=
  foldl (fun alive host =>
           if (0 <? len (host_Ports host)) || (0 <? len (host_Services host))
           then int_incr alive else alive)
        0 hosts.

(** [for _, port := range host.Ports { if port.State == "open" { OpenPorts++ } }] *)
Definition count_open (open : Z) (ports : list PortResult) : Z :=
  foldl (fun open port =>
           if decide (port_State port = "open") then int_incr open else open)
        open ports.

(** The second loop over the hosts: [TotalPorts] and [OpenPorts]. *)
Definition count_ports (hosts : list HostResult) : Z * Z :=
  foldl (fun '(total, open) host =>
           (int_add total (len (host_Ports host)),
            count_open open (host_Ports host)))
        (0, 0) hosts.

(** The loop over the vulnerabilities: the four severity buckets and
    [ExploitableVulns]. *)
Definition count_vulns (vulns : list Vulnerability) : Z * Z * Z * Z * Z :=
  foldl (fun '(critical, high, medium, low, exploitable) vuln =>
           let '(critical, high, medium, low) :=
             if decide (vuln_Severity vuln = "critical")
             then (int_incr critical, high, medium, low)
             else if decide (vuln_Severity vuln = "high")
             then (critical, int_incr high, medium, low)
             else if decide (vuln_Severity vuln = "medium")
             then (critical, high, int_incr medium, low)
             else if decide (vuln_Severity vuln = "low")
             then (critical, high, medium, int_incr low)
             else (critical, high, medium, low) in
           (critical, high, medium, low,
            if vuln_Exploitable vuln then int_incr exploitable else exploitable))
        (0, 0, 0, 0, 0) vulns.

(** [func (o *Orchestrator) updateScanSummary()] *)
Definition updateScanSummary (o : Orchestrator) : Orchestrator :=
  let results := Results (o_scan o) in
  let summary := Summary results in
  let '(totalPorts, openPorts) := count_ports (Hosts results) in
  let '(critical, high, medium, low, exploitable) :=
    count_vulns (Vulnerabilities results) in
  set_summary
    (mkScanSummary (len (Hosts results)) (count_alive (Hosts results))
       totalPorts openPorts
       (len (Vulnerabilities results)) critical high medium low exploitable
       (HighRiskVulns summary) (ScanDuration summary) (RiskScore summary)
       (ModulesExecuted summary))
    o.

(** ** runScoringPhase *)

(** [o.scan.Results.Vulnerabilities[i] = vuln] *)
Definition store_vuln (i : nat) (vuln : Vulnerability) (o : Orchestrator) : Orchestrator :=
  set_scan
    (set_Results
       (set_Vulnerabilities (<[i := vuln]> (Vulnerabilities (Results (o_scan o))))
          (Results (o_scan o)))
       (o_scan o))
    o.

(** One iteration of [for i := range o.scan.Results.Vulnerabilities]. *)
Definition score_vuln (i : nat) (o : Orchestrator) : Orchestrator :=
  match Vulnerabilities (Results (o_scan o)) !! i with
  | None => o
  | Some vuln =>
      let score := CalculateRiskScore (o_scorer o) vuln (o_scan o) in
      let o := store_vuln i (set_RiskScore score vuln) o in
      if (70.0 <=? score)%float
      then set_summary (set_HighRiskVulns (int_incr (HighRiskVulns (summary_of o)))
                          (summary_of o)) o
      else o
  end.

(** The iterations [i, i+1, ..., i+n-1]. *)
Fixpoint score_range (n i : nat) (o : Orchestrator) : Orchestrator :=
  match n with
  | O => o
  | S n' => score_range n' (S i) (score_vuln i o)
  end.

(** [func (o *Orchestrator) runScoringPhase(ctx context.Context) error] *)
Definition runScoringPhase (w : World) : World * option error :=
  let o := olog LvlInfo [] "📊 Calculating risk scores" (orch w) in
  let o := score_range (length (Vulnerabilities (Results (o_scan o)))) 0 o in
  let overallScore :=
    CalculateOverallRiskScore (o_scorer o) (Vulnerabilities (Results (o_scan o))) in
  let o := set_summary (set_SummaryRiskScore overallScore (summary_of o)) o in
  let o := updateScanSummary o in
  (mkWorld o (ctx w), None).

(** [func (o *Orchestrator) runReportingPhase(ctx context.Context) error] *)
Definition runReportingPhase (w : World) : World * option error :=
  let o := olog LvlInfo [] "📝 Generating reports" (orch w) in
  let '(scan, err) := o_reporter o (ctx w) (o_scan o) in
  (mkWorld (set_scan scan o) (ctx w), err).

(** [func (o *Orchestrator) validateTargets() error] *)
Definition validateTargets (o : Orchestrator) : option error :=
  if decide (len (Targets (o_scan o)) = 0) then Some (ErrNew "no targets specified")
  else ValidateTargets (Targets (o_scan o)).

(** ** executeModule *)

Definition module_fields (module : Module) : list (string * string) :=
  [("module", Name module)].

(** The body of [executeModule] up to the test of [err]: the start
    entry, the call through the sandbox or directly, and the error
    entry when the call failed. *)
Definition call_module (gctx : Ctx) (module : Module) (o : Orchestrator)
    : Orchestrator * option error :=
  let o := olog LvlInfo (module_fields module) "🔧 Executing module" o in
  let '(scan, err) :=
    if IsActive (o_sandbox o) then ExecuteModule (o_sandbox o) gctx module (o_scan o)
    else Run module gctx (o_scan o) in
  let o := set_scan scan o in
  match err with
  | Some e =>
      (olog LvlError (module_fields module) ("Module execution failed: " +:+ Error e) o,
       Some e)
  | None => (o, None)
  end.

(** The operand of the assignment
    [ModulesExecuted = append(ModulesExecuted, mod.Name())]: the slice
    is read, and the name is put behind what was read.  The source
    takes no lock around the statement, so other goroutines may run
    between this read and the assignment below.

    The slice is modelled by its value, the read and the assignment as
    one step each.  That is exact for appends that do not overlap.
    Appends that overlap are a data race on the three words of the
    slice header and on the element behind them, which the compiled
    program writes one after the other; its outcomes include those of
    this model (a name lost to a stale read) and others the model does
    not have (an element read before it was written, say).  So the
    interleavings below serve to exhibit runs of the program and to
    prove what does not depend on the trail's contents; of the trail
    itself nothing is claimed for all interleavings. *)
Definition appended (module : Module) (o : Orchestrator) : list string :=
  ModulesExecuted (summary_of o) ++ [Name module].

(** The assignment itself. *)
Definition store_executed (l : list string) (o : Orchestrator) : Orchestrator :=
  set_summary (set_ModulesExecuted l (summary_of o)) o.

(** The deferred function of [executeModule]. *)
Definition module_completed (module : Module) (o : Orchestrator) : Orchestrator :=
  olog LvlInfo (module_fields module) "Module execution completed" o.

(** [func (o *Orchestrator) executeModule(ctx context.Context, mod Module) error],
    run without interference from other goroutines. *)
Definition executeModule (gctx : Ctx) (module : Module) (o : Orchestrator)
    : Orchestrator * option error :=
  let '(o, err) := call_module gctx module o in
  match err with
  | Some _ => (module_completed module o, None)
  | None => (module_completed module (store_executed (appended module o) o), None)
  end.

(** ** executeModules: resolution and prerequisites *)

(** [moduleMap[mod.Name()] = mod] for each available module. *)
Definition moduleMap_of (availableModules : list Module) : gmap string Module :=
  foldl (fun moduleMap module => <[Name module := module]> moduleMap) ∅ availableModules.

(** The loop over [moduleNames] that builds [activeModules]. *)
Definition select_active (moduleMap : gmap string Module) (moduleNames : list string)
    (o : Orchestrator) : list Module * Orchestrator :=
  foldl (fun '(activeModules, o) name =>
           match moduleMap !! name with
           | Some module =>
               match Prerequisites module with
               | Some err =>
                   (activeModules,
                    olog LvlWarn []
                      ("Module " +:+ name +:+ " prerequisites not met, skipping: "
                       +:+ Error err) o)
               | None => (activeModules ++ [module], o)
               end
           | None => (activeModules, o)
           end)
        ([], o) moduleNames.

(** ** executeModules: the goroutines of the errgroup *)

(** [sem := make(chan struct{}, 3)] *)
Definition semCapacity : nat := 3.

(** Where a goroutine started by [g.Go] stands:
    - [GWaiting]: blocked in the [select] on [sem] and [gCtx.Done()];
    - [GRunning]: admitted, inside [executeModule] before [Run] returned;
    - [GAppend]: [Run] returned nil, the append is about to read the slice;
    - [GStore l]: [append] produced [l], the assignment is pending;
    - [GReturn]: [executeModule] is returning, its deferred call and the
      deferred [<-sem] are pending;
    - [GDone r]: the function passed to [g.Go] returned [r]. *)
Inductive GState : Type :=
| GWaiting
| GRunning
| GAppend
| GStore (l : list string)
| GReturn
| GDone (r : option error).

(** A goroutine holds a slot of [sem] from its admission to its return. *)
Definition holds_slot (st : GState) : bool :=
  match st with
  | GRunning | GAppend | GStore _ | GReturn => true
  | GWaiting | GDone _ => false
  end.

Definition is_done (st : GState) : bool :=
  match st with
  | GDone _ => true
  | _ => false
  end.

(** The errgroup at work: the orchestrator and [ctx], the derived
    [gCtx], the number of elements in [sem], the group's first error,
    and the goroutines, the [i]-th running [activeModules[i]]. *)
Record Group : Type := mkGroup {
  g_world : World;
  g_gctx : Ctx;
  g_sem : nat;
  g_err : option error;
  g_routines : list GState
}.

(** What can happen next: a step of goroutine [i], or [ctx] becoming
    done from outside (the interrupt handler's [cancel()], a deadline). *)
Inductive Event : Type :=
| EvAdmit (i : nat)
| EvAbandon (i : nat)
| EvRun (i : nat)
| EvLoad (i : nat)
| EvStore (i : nat)
| EvReturn (i : nat)
| EvCancel (c : CtxErr).

(** [g, gCtx := errgroup.WithContext(ctx)] followed by the [g.Go] calls. *)
Definition spawn (activeModules : list Module) (w : World) : Group :=
  mkGroup w (ctx w) 0 None (replicate (length activeModules) GWaiting).

Definition set_routine (i : nat) (st : GState) (g : Group) : Group :=
  mkGroup (g_world g) (g_gctx g) (g_sem g) (g_err g) (<[i := st]> (g_routines g)).

(** A goroutine of the group returned [r]: the first non-nil error is
    kept and cancels [gCtx]. *)
Definition group_done (i : nat) (r : option error) (g : Group) : Group :=
  match r, g_err g with
  | Some e, None =>
      mkGroup (g_world g)
        (match g_gctx g with None => Some Canceled | c => c end)
        (g_sem g) (Some e) (<[i := GDone r]> (g_routines g))
  | _, _ => set_routine i (GDone r) g
  end.

(** One event; an event that is not enabled leaves the group as it is. *)
Definition step (activeModules : list Module) (ev : Event) (g : Group) : Group :=
  match ev with
  | EvCancel c =>
      match ctx (g_world g) with
      | Some _ => g
      | None =>
          mkGroup (mkWorld (orch (g_world g)) (Some c))
            (match g_gctx g with None => Some c | c' => c' end)
            (g_sem g) (g_err g) (g_routines g)
      end
  | EvAdmit i =>
      match g_routines g !! i with
      | Some GWaiting =>
          if decide (g_sem g < semCapacity)%nat
          then mkGroup (g_world g) (g_gctx g) (S (g_sem g)) (g_err g)
                 (<[i := GRunning]> (g_routines g))
          else g
      | _ => g
      end
  | EvAbandon i =>
      match g_routines g !! i, g_gctx g with
      | Some GWaiting, Some c => group_done i (Some (ctx_error c)) g
      | _, _ => g
      end
  | EvRun i =>
      match g_routines g !! i, activeModules !! i with
      | Some GRunning, Some module =>
          let '(o, err) := call_module (g_gctx g) module (orch (g_world g)) in
          mkGroup (mkWorld o (ctx (g_world g))) (g_gctx g) (g_sem g) (g_err g)
            (<[i := match err with Some _ => GReturn | None => GAppend end]>
               (g_routines g))
      | _, _ => g
      end
  | EvLoad i =>
      match g_routines g !! i, activeModules !! i with
      | Some GAppend, Some module =>
          set_routine i (GStore (appended module (orch (g_world g)))) g
      | _, _ => g
      end
  | EvStore i =>
      match g_routines g !! i with
      | Some (GStore l) =>
          mkGroup (on_orch (store_executed l) (g_world g)) (g_gctx g) (g_sem g)
            (g_err g) (<[i := GReturn]> (g_routines g))
      | _ => g
      end
  | EvReturn i =>
      match g_routines g !! i, activeModules !! i with
      | Some GReturn, Some module =>
          group_done i None
            (mkGroup (on_orch (module_completed module) (g_world g)) (g_gctx g)
               (pred (g_sem g)) (g_err g) (g_routines g))
      | _, _ => g
      end
  end.

(** The slots a goroutine holds: one or none. *)
Definition slot (st : GState) : nat := if holds_slot st then 1%nat else 0%nat.

(** How many goroutines hold a slot. *)
Definition count_slots (routines : list GState) : nat :=
  length (filter (fun st => holds_slot st = true) routines).

Definition holders (g : Group) : nat := count_slots (g_routines g).

(** What holds of the group at every point of every interleaving: the
    elements in [sem] are the slots held, there are at most
    [semCapacity] of them, there is one goroutine per active module,
    and [gCtx] is done exactly when [ctx] is, for the same reason. *)
Definition group_inv (activeModules : list Module) (g : Group) : Prop :=
  g_sem g = holders g
  /\ (holders g <= semCapacity)%nat
  /\ length (g_routines g) = length activeModules
  /\ g_gctx g = ctx (g_world g)
  /\ (forall e, g_err g = Some e -> Err (ctx (g_world g)) = Some e).

(** The goroutine an event is a step of. *)
Definition ev_index (ev : Event) : option nat :=
  match ev with
  | EvAdmit i | EvAbandon i | EvRun i | EvLoad i | EvStore i | EvReturn i => Some i
  | EvCancel _ => None
  end.

(** A goroutine is settled when it holds no slot: it waits or has
    returned. *)
Definition settled (st : GState) : bool := negb (holds_slot st).

Definition settled_at (g : Group) (j : nat) : Prop :=
  exists st, g_routines g !! j = Some st /\ settled st = true.

(** Goroutine [j] has returned. *)
Definition done_at (g : Group) (j : nat) : Prop :=
  exists r, g_routines g !! j = Some (GDone r).

(** The events of a schedule, one after the other. *)
Definition run_schedule (activeModules : list Module) (sched : list Event)
    (g : Group) : Group :=
  foldl (fun g ev => step activeModules ev g) g sched.

(** Goroutine [i] taken from wherever it stands to its return, if it
    is admitted or can be. *)
Definition finish (i : nat) : list Event :=
  [EvAdmit i; EvRun i; EvLoad i; EvStore i; EvReturn i].

(** A schedule that lets every goroutine return, whatever happened
    before: one pass finishes those holding a slot, a second the ones
    that were still waiting. *)
Definition completion (n : nat) : list Event :=
  concat (finish <$> seq 0 n) ++ concat (finish <$> seq 0 n).

(** [func (o *Orchestrator) executeModules(ctx, moduleNames, category) error].
    [sched] is the interleaving of the goroutines and of the
    cancellation of [ctx] up to some point; [g.Wait()] returns once
    all goroutines have, which [completion] brings about. *)
Definition executeModules (reg : Registry) (sched : list Event)
    (moduleNames : list string) (category : string) (w : World)
    : World * option error :=
  let availableModules := GetModulesByCategory reg category in
  let moduleMap := moduleMap_of availableModules in
  let '(activeModules, o) := select_active moduleMap moduleNames (orch w) in
  if decide (len activeModules = 0) then
    (mkWorld (olog LvlWarn [] ("No modules available for category " +:+ category) o)
       (ctx w),
     None)
  else
    let g := run_schedule activeModules
               (sched ++ completion (length activeModules))
               (spawn activeModules (mkWorld o (ctx w))) in
    (g_world g, g_err g).

(** ** The phases *)

(** Cancellations of [ctx] that arrive while a phase without goroutines
    of its own is at work. *)
Definition deliver (sched : list Event) (w : World) : World :=
  foldl (fun w ev =>
           match ev, ctx w with
           | EvCancel c, None => mkWorld (orch w) (Some c)
           | _, _ => w
           end)
        w sched.

(** [func (o *Orchestrator) runDiscoveryPhase(ctx context.Context) error] *)
Definition runDiscoveryPhase (reg : Registry) (sched : list Event) (w : World)
    : World * option error :=
  let discoveryModules := ["subfinder"; "amass"; "dnsx"; "asnmap"] in
  executeModules reg sched discoveryModules "stable" w.

(** [func (o *Orchestrator) runScanningPhase(ctx context.Context) error] *)
Definition runScanningPhase (reg : Registry) (sched : list Event) (w : World)
    : World * option error :=
  let scanningModules := ["naabu"; "nmap"; "httpx"] in
  executeModules reg sched scanningModules "stable" w.

(** [func (o *Orchestrator) runVulnPhase(ctx context.Context) error] *)
Definition runVulnPhase (reg : Registry) (sched : list Event) (w : World)
    : World * option error :=
  let vulnModules := ["nuclei"; "katana"; "ffuf"] in
  executeModules reg sched vulnModules "stable" w.

Definition bleedingModules : list string :=
  ["llm-fuzzer"; "auto-patch"; "shadow-clone"; "dep-drift"; "timing-map"; "blue-team"].

(** [func (o *Orchestrator) runBleedingEdgePhase(ctx context.Context) error] *)
Definition runBleedingEdgePhase (reg : Registry) (sched : list Event) (w : World)
    : World * option error :=
  if negb (cfg_BleedingEdge (o_config (orch w))) then
    (on_orch (olog LvlInfo [] "Skipping bleeding-edge modules (not enabled)") w, None)
  else
    executeModules reg sched bleedingModules "bleeding-edge" w.

(** ** Execute *)

(** [phases := []struct{ name string; fn func(context.Context) error }] *)
Definition Phase : Type := string * (World -> World * option error).

(** [for _, phase := range phases { ... }]: the loop of [Execute], with
    the error it returns, or nil when it runs to its end. *)
Fixpoint run_phases (phases : list Phase) (w : World) : World * option error :=
  match phases with
  | [] => (w, None)
  | (name, fn) :: rest =>
      let w := on_orch (olog LvlInfo [] ("📍 Phase: " +:+ name)) w in
      let '(w, r) := fn w in
      match r with
      | Some err => (w, Some (ErrWrap ("phase " +:+ name +:+ " failed") err))
      | None =>
          let w := on_orch (olog LvlInfo [] ("✅ Phase " +:+ name +:+ " completed")) w in
          match ctx w with
          | Some c => (w, Some (ctx_error c))
          | None => run_phases rest w
          end
      end
  end.

(** What happens around the orchestrator during each phase: the
    interleaving of its goroutines and the cancellations of [ctx]. *)
Record Schedules : Type := mkSchedules {
  during_discovery : list Event;
  during_scanning : list Event;
  during_vuln : list Event;
  during_bleeding : list Event;
  during_scoring : list Event;
  during_reporting : list Event
}.

Definition then_deliver (sched : list Event) (fn : World -> World * option error)
    (w : World) : World * option error :=
  let '(w, r) := fn w in (deliver sched w, r).

(** The six phases of [Execute]. *)
Definition phases_of (reg : Registry) (s : Schedules) : list Phase :=
  [("Discovery", runDiscoveryPhase reg (during_discovery s));
   ("Scanning", runScanningPhase reg (during_scanning s));
   ("Vulnerability Assessment", runVulnPhase reg (during_vuln s));
   ("Bleeding Edge", runBleedingEdgePhase reg (during_bleeding s));
   ("Scoring", then_deliver (during_scoring s) runScoringPhase);
   ("Reporting", then_deliver (during_reporting s) runReportingPhase)].

(** The two deferred calls of [Execute], last deferred first:
    [o.sandbox.Cleanup()], then the function that records the duration
    ([elapsed] is [duration.String()]). *)
Definition deferred_cleanup (w : World) : World :=
  let '(m, scan, _) := Cleanup (o_sandbox (orch w)) (o_scan (orch w)) in
  on_orch (fun o => set_sandbox m (set_scan scan o)) w.

Definition deferred_duration (elapsed : string) (w : World) : World :=
  on_orch (fun o =>
             olog LvlInfo [] "Scan completed"
               (set_summary (set_ScanDuration elapsed (summary_of o)) o))
          w.

(** [func (o *Orchestrator) Execute(ctx context.Context) error] *)
Definition Execute (reg : Registry) (host : Host) (s : Schedules) (elapsed : string)
    (w : World) : World * option error :=
  let w := on_orch (olog LvlInfo [] "🦅 Starting TraceHawk X scan") w in
  match validateTargets (orch w) with
  | Some err =>
      (deferred_duration elapsed w, Some (ErrWrap "target validation failed" err))
  | None =>
      let '(m, scan, ierr) := Initialize host (o_sandbox (orch w)) (o_scan (orch w)) in
      let w := on_orch (fun o => set_sandbox m (set_scan scan o)) w in
      let w :=
        match ierr with
        | Some err =>
            on_orch (olog LvlWarn []
                       ("Sandbox initialization failed, continuing without sandbox: "
                        +:+ Error err)) w
        | None => w
        end in
      let '(w, r) := run_phases (phases_of reg s) w in
      let w :=
        match r with
        | None => on_orch (olog LvlInfo [] "🎯 Scan execution completed successfully") w
        | Some _ => w
        end in
      (deferred_duration elapsed (deferred_cleanup w), r)
  end.

End Core.
Import Core.

(* ================================================================== *)
(** * The rules as the specification words them *)

Module Spec.

(** critical=10.0, high=7.5, medium=5.0, low=2.5, info=1.0, unknown=1.0 *)
Definition severityWeight (severity : string) : float :=
  if decide (severity = "critical") then 10.0%float
  else if decide (severity = "high") then 7.5%float
  else if decide (severity = "medium") then 5.0%float
  else if decide (severity = "low") then 2.5%float
  else if decide (severity = "info") then 1.0%float
  else 1.0%float.

(** exploitable ? 1.5 : 1.0 *)
Definition exploitCoeff (exploitable : bool) : float :=
  if exploitable then 1.5%float else 1.0%float.

(** The float value of the context key "supply_chain_drift", or 0.0. *)
Definition supplyChainDrift (scan : Scan) : float :=
  match Context scan !! "supply_chain_drift" with
  | Some (VFloat64 drift) => drift
  | _ => 0.0%float
  end.

(** 1.0 + drift * 0.2 *)
Definition driftFactor (scan : Scan) : float :=
  (1.0 + supplyChainDrift scan * 0.2)%float.

(** hasLLMConfidenceMeta ? 0.8 + confidence*0.2 : 1.0 *)
Definition llmConfidence (vuln : Vulnerability) : float :=
  match vuln_Metadata vuln !! "llm_confidence" with
  | Some (VFloat64 confidence) => (0.8 + confidence * 0.2)%float
  | _ => 1.0%float
  end.

(** base * exploitCoeff * driftFactor * llmConfidence, before the cap. *)
Definition raw_score (vuln : Vulnerability) (scan : Scan) : float :=
  (severityWeight (vuln_Severity vuln) * exploitCoeff (vuln_Exploitable vuln)
   * driftFactor scan * llmConfidence vuln)%float.

(** "Clamped so any result exceeding 100 becomes exactly 100": a score
    that compares greater than 100 is replaced, every other score
    (NaN included, which compares with nothing) is kept. *)
Definition clamp100 (score : float) : float :=
  match (score ?= 100)%float with
  | FGt => 100%float
  | _ => score
  end.

(** The integer nearest to [m * 2^e], for [e < 0], a half counted
    upwards: [floor (m * 2^e + 1/2)]. *)
Definition nearest (m : positive) (e : Z) : Z :=
  (2 * Z.pos m + 2 ^ (- e)) / (2 * 2 ^ (- e)).

(** A binary64 to the nearest integer, a half going away from zero.
    The finite values [(-1)^s * m * 2^e] with [e >= 0] are integers
    and stay, as do the zeros, the infinities and NaN. *)
Definition to_integer (y : float) : float :=
  match Prim2SF y with
  | S754_finite s m e =>
      if 0 <=? e then y
      else if s then (- float_of_int (nearest m e))%float
           else float_of_int (nearest m e)
  | _ => y
  end.

(** Rounding to 2 decimal places as binary64 arithmetic does it: the
    score times 100 (rounded to binary64), to the nearest integer,
    over 100. *)
Definition round_cents (score : float) : float :=
  (to_integer (score * 100) / 100)%float.

(** min(score, 100), rounded to 2 decimal places. *)
Definition risk_score (vuln : Vulnerability) (scan : Scan) : float :=
  round_cents (clamp100 (raw_score vuln scan)).

(** The exact value of the finite binary64 [(-1)^s * m * 2^e], times
    100, as the fraction [num / den]. *)
Definition hundredfold (s : bool) (m : positive) (e : Z) : Z * Z :=
  let v := if s then - Z.pos m else Z.pos m in
  if 0 <=? e then (100 * v * 2 ^ e, 1) else (100 * v, 2 ^ (- e)).



(** "[r] is [x] rounded to 2 decimal places", of the exact value of
    [x]: [r] is [n / 100] for an integer [n] nearest to [100 * x],
    whichever way a tie goes. *)
Definition rounded_2dp (x r : float) : Prop :=
  match Prim2SF x with
  | S754_finite s m e =>
      let '(num, den) := hundredfold s m e in
      exists n : Z, Z.abs (2 * (num - n * den)) <= den
                    /\ r = (float_of_int n / 100)%float
  | _ => r = x
  end.

(** The number of vulnerabilities carrying a severity label. *)
Definition count_severity (label : string) (vulns : list Vulnerability) : Z :=
  len (filter (fun vuln => vuln_Severity vuln = label) vulns).

(** The sum of the risk-score fields, added up front to back from 0. *)
Definition sum_scores (vulns : list Vulnerability) : float :=
  foldl (fun acc vuln => (acc + vuln_RiskScore vuln)%float) 0%float vulns.

(** mean(per-vulnerability risk scores) *)
Definition mean_score (vulns : list Vulnerability) : float :=
  (sum_scores vulns / float_of_int (len vulns))%float.

(** avg + 5.0*countCritical + 2.0*countHigh, before the cap. *)
Definition raw_aggregate (vulns : list Vulnerability) : float :=
  (mean_score vulns
   + float_of_int (count_severity "critical" vulns) * 5.0
   + float_of_int (count_severity "high" vulns) * 2.0)%float.

(** avg + 5.0*countCritical + 2.0*countHigh, capped and rounded; 0.0 for
    no vulnerabilities. *)
Definition aggregate_score (vulns : list Vulnerability) : float :=
  match vulns with
  | [] => 0.0%float
  | _ => round_cents (clamp100 (raw_aggregate vulns))
  end.

(** The aggregate with the rounding read to the letter: [r] is the
    aggregate score of [vulns]. *)
Definition aggregate_rounded_2dp (vulns : list Vulnerability) (r : float) : Prop :=
  match vulns with
  | [] => r = 0.0%float
  | _ => rounded_2dp (clamp100 (raw_aggregate vulns)) r
  end.

(** The registry invariant: every module is filed under its own name. *)
Definition well_keyed (reg : Registry) : Prop :=
  forall key module, reg !! key = Some module -> Name module = key.

(** [module] is one of the registered modules. *)
Definition registered (reg : Registry) (module : Module) : Prop :=
  exists key, reg !! key = Some module.

(** The number of list elements that satisfy a test. *)
Definition count {A} (p : A -> bool) (l : list A) : Z :=
  len (filter (fun x => p x = true) l).

(** A host is alive if it has at least one port or one service entry. *)
Definition alive (host : HostResult) : bool :=
  negb (bool_decide (host_Ports host = [])) || negb (bool_decide (host_Services host = [])).

Definition is_open (port : PortResult) : bool :=
  bool_decide (port_State port = "open").

Definition has_severity (label : string) (vuln : Vulnerability) : bool :=
  bool_decide (vuln_Severity vuln = label).

(** The ports of all hosts, host after host. *)
Definition all_ports (hosts : list HostResult) : list PortResult :=
  concat (host_Ports <$> hosts).

(** The orchestrator with its vulnerability list and its high-risk
    counter replaced. *)
Definition with_scores (vulns : list Vulnerability) (highRisk : Z) (o : Orchestrator)
    : Orchestrator :=
  set_scan
    (set_Results
       (set_Summary (set_HighRiskVulns highRisk (summary_of o))
          (set_Vulnerabilities vulns (Results (o_scan o))))
       (o_scan o))
    o.

(** A score of at least 70 marks a vulnerability as high-risk. *)
Definition high_risk (score : float) : bool := (70.0 <=? score)%float.

(** The world in which a phase's function is called, and the world in
    which the cancellation check after it is made. *)
Definition phase_started (name : string) (w : World) : World :=
  on_orch (olog LvlInfo [] ("📍 Phase: " +:+ name)) w.

Definition phase_completed (name : string) (w : World) : World :=
  on_orch (olog LvlInfo [] ("✅ Phase " +:+ name +:+ " completed")) w.

(** What a phase is left with from its requested names: the modules
    registered under a requested name in the phase's category whose
    prerequisites check succeeds, in the order of the request. *)
Definition resolve (reg : Registry) (category : string) (moduleNames : list string)
    : list Module :=
  omap (fun name =>
          match reg !! name with
          | Some module =>
              if decide (Category module = category)
              then match Prerequisites module with
                   | None => Some module
                   | Some _ => None
                   end
              else None
          | None => None
          end)
       moduleNames.

(** The warnings the resolution logs: one per resolved module whose
    prerequisites check fails, none for a name that resolves to nothing. *)
Definition prereq_warnings (reg : Registry) (category : string)
    (moduleNames : list string) : list LogEntry :=
  omap (fun name =>
          match reg !! name with
          | Some module =>
              if decide (Category module = category)
              then match Prerequisites module with
                   | None => None
                   | Some err =>
                       Some (mkLogEntry LvlWarn []
                               ("Module " +:+ name
                                +:+ " prerequisites not met, skipping: "
                                +:+ Error err))
                   end
              else None
          | None => None
          end)
       moduleNames.

(** The orchestrator after the given entries were logged. *)
Definition logged (entries : list LogEntry) (o : Orchestrator) : Orchestrator :=
  set_scan (set_Logger (Logger (o_scan o) ++ entries) (o_scan o)) o.



End Spec.

(* ================================================================== *)
(** * Sample modules, registries and runs *)

Module Examples.

(** A module whose prerequisites hold and whose [Run] succeeds without
    touching the scan. *)
Definition ok_module (name category : string) : Module :=
  mkModule name "" category "TraceHawk Team" "1.0.0" None
    (fun _ scan => (scan, None)) None.

(** A module whose [Run] fails. *)
Definition failing_module (name category : string) : Module :=
  mkModule name "" category "TraceHawk Team" "1.0.0" None
    (fun _ scan => (scan, Some (ErrNew "target unreachable"))) None.


Definition config0 (bleedingEdge : bool) : ScanConfig :=
  mkScanConfig ["example.com"] "report" "reports" 10 100 false bleedingEdge
    false false false [] "" 0.7 false "" false false false.

Definition scan0 (bleedingEdge : bool) : Scan :=
  mkScan "scan-1" ["example.com"] (config0 bleedingEdge)
    (mkScanResults [] [] [] ∅ zeroSummary) ∅ [].

(** The orchestrator [NewOrchestrator] builds, with a reporter that
    succeeds. *)
Definition orchestrator0 (bleedingEdge : bool) : Orchestrator :=
  mkOrchestrator (config0 bleedingEdge) (scan0 bleedingEdge)
    (NewManager (config0 bleedingEdge)).1 (fun _ scan => (scan, None)) NewEngine.

Definition world0 (bleedingEdge : bool) : World :=
  mkWorld (orchestrator0 bleedingEdge) None.

(** The scanning modules [nmap] and [httpx], both succeeding. *)
Definition scanners : Registry :=
  <["nmap" := ok_module "nmap" "stable"]>
    (<["httpx" := ok_module "httpx" "stable"]> ∅).

(** Both goroutines are admitted, both modules run, both goroutines
    read [ModulesExecuted] before either assigns it. *)
Definition overlapping_appends : list Event :=
  [EvAdmit 0; EvAdmit 1; EvRun 0; EvRun 1;
   EvLoad 0; EvLoad 1; EvStore 0; EvStore 1;
   EvReturn 0; EvReturn 1].

(** A critical, exploitable finding and a low one, scored under a
    supply-chain drift of 20.0: 75.0 and 12.5. *)
Definition finding (id severity : string) (exploitable : bool) : Vulnerability :=
  mkVulnerability id "finding" "" severity 0 "" "10.0.0.1" 443 "https" ""
    "" "" [] 0 exploitable ∅.

Definition drifting_world : World :=
  mkWorld
    (set_scan
       (mkScan "scan-1" ["example.com"] (config0 false)
          (mkScanResults [] [finding "V-1" "critical" true; finding "V-2" "low" false]
             [] ∅ zeroSummary)
          (<["supply_chain_drift" := VFloat64 20.0]> ∅) [])
       (orchestrator0 false))
    None.


(** A finding that has been scored already. *)
Definition scored (id severity : string) (score : float) : Vulnerability :=
  mkVulnerability id "finding" "" severity 0 "" "10.0.0.1" 443 "https" ""
    "" "" [] score false ∅.

(** Four active modules, more than there are slots. *)
Definition four_modules : list Module :=
  [ok_module "llm-fuzzer" "bleeding-edge"; ok_module "auto-patch" "bleeding-edge";
   ok_module "shadow-clone" "bleeding-edge"; ok_module "dep-drift" "bleeding-edge"].

End Examples.

(* ================================================================== *)
(** * package modules: the helper methods of [Scan] and the utilities *)

From Stdlib Require Import Ascii DecimalString.
From stdpp Require Import sorting.
Open Scope Z_scope.

Module Helpers.

(** [func (s *Scan) AddPatch(patch PatchRecommendation)], under [Results.mu]. *)
Definition AddPatch (patch : PatchRecommendation) (s : Scan) : Scan :=
  set_Results
    (mkScanResults (Hosts (Results s)) (Vulnerabilities (Results s))
       (Patches (Results s) ++ [patch]) (BleedingEdge (Results s))
       (Summary (Results s))) s.

(** [func (s *Scan) SetBleedingEdgeResult(moduleID string, result interface{})],
    under [Results.mu]; a nil map reads like the empty one, and the
    method allocates it before the write. *)
Definition SetBleedingEdgeResult (moduleID : string) (result : GoValue) (s : Scan)
    : Scan :=
  set_Results
    (mkScanResults (Hosts (Results s)) (Vulnerabilities (Results s))
       (Patches (Results s)) (<[moduleID := result]> (BleedingEdge (Results s)))
       (Summary (Results s))) s.

(** [func (s *Scan) SetContext(key string, value interface{})], under
    the scan's own mutex. *)
Definition SetContext (key : string) (value : GoValue) (s : Scan) : Scan :=
  mkScan (ID s) (Targets s) (Config s) (Results s) (<[key := value]> (Context s))
    (Logger s).

(** [func GetModules() map[string]Module]: a fresh map with the
    registry's entries. *)
Definition GetModules (reg : Registry) : gmap string Module :=
  map_fold (fun name module modules => <[name := module]> modules) ∅ reg.

(** [func IsCommandAvailable(command string) bool] *)
Definition IsCommandAvailable (command : string) : bool := true.

(** [strings.ReplaceAll(s, old, new)] for an [old] of one byte, which is
    how the sources call it: every occurrence of the byte gives way to
    [new], front to back. *)
Fixpoint ReplaceAll (s : string) (old : ascii) (new : string) : string :=
  match s with
  | EmptyString => EmptyString
  | String c rest =>
      if Ascii.eqb c old then new +:+ ReplaceAll rest old new
      else String c (ReplaceAll rest old new)
  end.

(** The bytes 0x5C (backslash) and 0x22 (double quote). *)
Definition backslash : ascii := ascii_of_nat 92.
Definition dquote : ascii := ascii_of_nat 34.

(** [func EscapeShellArg(arg string) string] *)
Definition EscapeShellArg (arg : string) : string :=
  ReplaceAll (ReplaceAll arg backslash (String backslash (String backslash "")))
    dquote (String backslash (String dquote "")).

(** One of the three appends, as a goroutine performs it while holding
    [Results.mu]. *)
Inductive Append : Type :=
| OfHost (host : HostResult)
| OfVulnerability (vuln : Vulnerability)
| OfPatch (patch : PatchRecommendation).

Definition append (a : Append) (s : Scan) : Scan :=
  match a with
  | OfHost host => AddHost host s
  | OfVulnerability vuln => AddVulnerability vuln s
  | OfPatch patch => AddPatch patch s
  end.

(** The appends in the order in which the mutex was granted. *)
Definition appends (l : list Append) (s : Scan) : Scan :=
  foldl (fun s a => append a s) s l.

(** What a list of appends adds to each sequence. *)
Definition hosts_of (l : list Append) : list HostResult :=
  omap (fun a => match a with OfHost host => Some host | _ => None end) l.

Definition vulns_of (l : list Append) : list Vulnerability :=
  omap (fun a => match a with OfVulnerability vuln => Some vuln | _ => None end) l.

Definition patches_of (l : list Append) : list PatchRecommendation :=
  omap (fun a => match a with OfPatch patch => Some patch | _ => None end) l.

(** Reading an escaped string back: a backslash makes the byte after
    it literal; a bare double quote would end a double-quoted word, and
    a backslash at the very end would reach for the closing quote.
    [None] in these two cases. *)
Fixpoint unquote (s : string) : option string :=
  match s with
  | EmptyString => Some EmptyString
  | String c rest =>
      if Ascii.eqb c backslash then
        match rest with
        | EmptyString => None
        | String c' rest' => String c' <$> unquote rest'
        end
      else if Ascii.eqb c dquote then None
      else String c <$> unquote rest
  end.

(** The byte occurs in the string. *)
Fixpoint has_byte (c : ascii) (s : string) : bool :=
  match s with
  | EmptyString => false
  | String c' rest => Ascii.eqb c' c || has_byte c rest
  end.

(** What [EscapeShellArg] makes of one byte. *)
Definition escape_byte (c : ascii) : string :=
  if Ascii.eqb c backslash then String backslash (String backslash "")
  else if Ascii.eqb c dquote then String backslash (String dquote "")
  else String c "".

(** The bytes of a string that [EscapeShellArg] rewrites. *)
Fixpoint count_special (s : string) : nat :=
  match s with
  | EmptyString => 0
  | String c rest =>
      (if Ascii.eqb c backslash || Ascii.eqb c dquote then 1 else 0)
      + count_special rest
  end.

(** The modules of a list registered one after the other, as the
    [init] functions of the module packages do; the first fatal
    registration ends the process. *)
Fixpoint register_all (l : list Module) (reg : Registry) : outcome Registry :=
  match l with
  | [] => Returned reg
  | module :: rest =>
      match Register module reg with
      | Returned reg' => register_all rest reg'
      | Fatal msg => Fatal msg
      end
  end.

(** The registry with the modules of a list filed under their names. *)
Definition filed (l : list Module) (reg : Registry) : Registry :=
  list_to_map ((fun module => (Name module, module)) <$> l) ∪ reg.

(** What makes a list of modules registrable: no empty name, no name
    twice, no name taken. *)
Definition registrable (l : list Module) (reg : Registry) : Prop :=
  NoDup (Name <$> l)
  /\ forall module, module ∈ l -> Name module <> "" /\ reg !! Name module = None.

End Helpers.
Import Helpers.

(* ================================================================== *)
(** * package core: construction of the orchestrator *)

Module Startup.

(** [func NewOrchestrator(config *ScanConfig) ( *Orchestrator, error)].
    [scanID] is the fresh [uuid.New().String()]; [generator] is what
    [report.NewGenerator(config.ReportDir, config.Output)] returns: the
    generator's [Generate] method, or an error. *)
Definition NewOrchestrator (scanID : string)
    (generator : (Ctx -> Scan -> Scan * option error) + error)
    (config : ScanConfig) : Orchestrator + error :=
  let scan :=
    mkScan scanID (cfg_Targets config) config
      (mkScanResults [] [] [] ∅ zeroSummary) ∅ [] in
  match NewManager config with
  | (_, Some err) => inr (ErrWrap "failed to initialize sandbox" err)
  | (sandboxMgr, None) =>
      match generator with
      | inr err => inr (ErrWrap "failed to initialize report generator" err)
      | inl reportGen =>
          inl (mkOrchestrator config scan sandboxMgr reportGen NewEngine)
      end
  end.

(** The world in which the loop of [Execute] starts once the targets
    passed validation: the start entry is written, the sandbox is
    initialised, and a failure to do so is logged and passed over. *)
Definition prepared (host : Host) (w : World) : World :=
  let w := on_orch (olog LvlInfo [] "🦅 Starting TraceHawk X scan") w in
  let '(m, scan, ierr) := Initialize host (o_sandbox (orch w)) (o_scan (orch w)) in
  let w := on_orch (fun o => set_sandbox m (set_scan scan o)) w in
  match ierr with
  | Some err =>
      on_orch (olog LvlWarn []
                 ("Sandbox initialization failed, continuing without sandbox: "
                  +:+ Error err)) w
  | None => w
  end.

(** What [Execute] does with the outcome of the loop: the success
    entry when the loop ran to its end, then the two deferred calls. *)
Definition concluded (elapsed : string) (r : World * option error)
    : World * option error :=
  let w :=
    match r.2 with
    | None => on_orch (olog LvlInfo [] "🎯 Scan execution completed successfully") r.1
    | Some _ => r.1
    end in
  (deferred_duration elapsed (deferred_cleanup w), r.2).

(** The phases of [Execute] that run modules. *)
Definition module_phases : list string :=
  ["Discovery"; "Scanning"; "Vulnerability Assessment"; "Bleeding Edge"].

(** The fields of the orchestrator that no phase assigns: the
    configuration, the sandbox manager, the report generator and the
    scoring engine. *)
Definition fixtures (o : Orchestrator)
    : ScanConfig * Manager * (Ctx -> Scan -> Scan * option error) * Engine :=
  (o_config o, o_sandbox o, o_reporter o, o_scorer o).

(** Three things a phase function may guarantee: it fails only with the
    error of its context, which is then done; a context that is done
    when it starts is done, for the same reason, when it returns; and
    it leaves the fixtures alone. *)
Definition fails_with_ctx (fn : World -> World * option error) : Prop :=
  forall w e, (fn w).2 = Some e -> Err (ctx (fn w).1) = Some e.

Definition keeps_done (fn : World -> World * option error) : Prop :=
  forall w c, ctx w = Some c -> ctx (fn w).1 = Some c.

Definition keeps_fixtures (fn : World -> World * option error) : Prop :=
  forall w, fixtures (orch (fn w).1) = fixtures (orch w).

(** The schedule holds no cancellation of [ctx]. *)
Definition no_cancel (sched : list Event) : Prop :=
  forall c, EvCancel c ∉ sched.

Definition quiet (s : Schedules) : Prop :=
  no_cancel (during_discovery s) /\ no_cancel (during_scanning s)
  /\ no_cancel (during_vuln s) /\ no_cancel (during_bleeding s)
  /\ no_cancel (during_scoring s) /\ no_cancel (during_reporting s).


(** A module whose [Run] leaves the audit trail alone. *)
Definition keeps_trail (module : Module) : Prop :=
  forall gctx scan,
    ModulesExecuted (Summary (Results (Run module gctx scan).1))
    = ModulesExecuted (Summary (Results scan)).


End Startup.
Import Startup.

(* ================================================================== *)
(** * package core: the terminal interface *)

Module TUI.

(** [type model struct]; [selected] is a [map[int]struct{}] used as a
    set.  [Update] has a value receiver, so the cursor it changes is
    that of its copy, while the map is shared with the caller's model;
    the program goes on with the model [Update] returns, which is the
    one described here. *)
Record model : Type := mkModel {
  choices : list string;
  cursor : Z;
  selected : gset Z
}.

(** A [tea.Msg]: a key press, with [msg.String()], or anything else. *)
Inductive Msg : Type :=
| KeyMsg (key : string)
| OtherMsg.

(** The [tea.Cmd] returned: [tea.Quit] or nil. *)
Inductive Cmd : Type := Quit.

(** [func initialModel() model] *)
Definition initialModel : model :=
  mkModel
    ["Start New Scan"; "View Previous Results"; "Configure Settings";
     "Module Management"; "Exit"]
    0 ∅.

(** [func (m model) Init() tea.Cmd] *)
Definition Init (m : model) : option Cmd := None.

(** [len(m.choices)-1] *)
Definition last_index (m : model) : Z := int_wrap (len (choices m) - 1).

(** [func (m model) Update(msg tea.Msg) (tea.Model, tea.Cmd)] *)
Definition Update (msg : Msg) (m : model) : model * option Cmd :=
  match msg with
  | KeyMsg key =>
      if decide (key = "ctrl+c" \/ key = "q") then (m, Some Quit)
      else if decide (key = "up" \/ key = "k") then
        (if decide (0 < cursor m)
         then mkModel (choices m) (int_wrap (cursor m - 1)) (selected m)
         else m,
         None)
      else if decide (key = "down" \/ key = "j") then
        (if decide (cursor m < last_index m)
         then mkModel (choices m) (int_incr (cursor m)) (selected m)
         else m,
         None)
      else if decide (key = "enter" \/ key = " ") then
        if decide (cursor m = last_index m) then (m, Some Quit)
        else if decide (cursor m ∈ selected m)
        then (mkModel (choices m) (cursor m) (selected m ∖ {[cursor m]}), None)
        else (mkModel (choices m) (cursor m) ({[cursor m]} ∪ selected m), None)
      else (m, None)
  | OtherMsg => (m, None)
  end.

(** One pass of the loop of [View]:
    [fmt.Sprintf("%s [%s] %s\n", cursor, checked, choice)]. *)
Definition menu_line (m : model) (i : Z) (choice : string) : string :=
  (if decide (cursor m = i) then ">" else " ")
  +:+ " [" +:+ (if decide (i ∈ selected m) then "x" else " ") +:+ "] "
  +:+ choice +:+ String (ascii_of_nat 10) "".

(** The lines the loop of [View] adds, for the choices from index [i]. *)
Fixpoint menu_lines (m : model) (i : Z) (l : list string) : list string :=
  match l with
  | [] => []
  | choice :: rest => menu_line m i choice :: menu_lines m (i + 1) rest
  end.

(** [func (m model) View() string]; [title] is what
    [style.Render("TraceHawk X TUI")] returns. *)
Definition View (title : string) (m : model) : string :=
  let nl := String (ascii_of_nat 10) "" in
  foldl String.app (title +:+ nl +:+ nl) (menu_lines m 0 (choices m))
  +:+ (nl +:+ "Press q to quit." +:+ nl)
  +:+ (nl +:+ "🌐 Visit: hunter3.ninja" +:+ nl).

(** The messages of a session, one after the other. *)
Definition Updates (msgs : list Msg) (m : model) : model :=
  foldl (fun m msg => (Update msg m).1) m msgs.

(** The messages on which [Update] asks the program to quit. *)
Definition quits (msg : Msg) (m : model) : Prop :=
  match msg with
  | KeyMsg key =>
      key = "ctrl+c" \/ key = "q"
      \/ ((key = "enter" \/ key = " ") /\ cursor m = len (choices m) - 1)
  | OtherMsg => False
  end.

(** A model as the sessions produce them: a menu that is not empty, the
    cursor on one of its entries, and selections among the entries
    before the last. *)
Definition well_formed (m : model) : Prop :=
  0 < len (choices m) <= MaxInt
  /\ 0 <= cursor m < len (choices m)
  /\ forall i, i ∈ selected m -> 0 <= i < len (choices m) - 1.

(** The lines that show the cursor. *)
Definition cursor_lines (lines : list string) : list string :=
  filter (fun line => String.prefix ">" line = true) lines.

End TUI.

(* ================================================================== *)
(** * package modules: the module table *)

Module Listing.

(** A cell handed to [table.Append]: a string as it is, or wrapped by
    [color.GreenString] or [color.MagentaString]. *)
Inductive Cell : Type :=
| Plain (s : string)
| GreenString (s : string)
| MagentaString (s : string).

Definition Row : Type := list Cell.

(** What [ListModules] prints: the notice for an empty registry, or
    the table with the rows appended to it; the title, the header and
    the usage hints around the table are fixed text. *)
Inductive Printed : Type :=
| NoModulesRegistered
| Table (rows : list Row).

(** [if len(desc) > 60 { desc = desc[:57] + "..." }] *)
Definition truncate (desc : string) : string :=
  if decide (60 < Z.of_nat (String.length desc))
  then String.substring 0 57 desc +:+ "..."
  else desc.

(** The loop that groups the sorted names by category:
    [categories[category] = append(categories[category], name)].
    [registry.modules[name]] is the nil interface for a name that is
    not a key, and calling [Category] on it panics: [None]. *)
Definition group (reg : Registry) (names : list string)
    : option (gmap string (list string)) :=
  foldl (fun acc name =>
           categories ← acc;
           module ← reg !! name;
           Some (<[Category module :=
                     default [] (categories !! Category module) ++ [name]]>
                   categories))
        (Some ∅) names.

(** The row of one module. *)
Definition row (category name : string) (module : Module) : Row :=
  let nameColor :=
    if decide (category = "stable") then GreenString name else MagentaString name in
  let categoryColor :=
    if decide (category = "stable") then GreenString category
    else MagentaString category in
  [nameColor; categoryColor; Plain (Version module); Plain (Author module);
   Plain (truncate (Description module))].

(** The separator appended before the bleeding-edge modules. *)
Definition separator : Row := [Plain ""; Plain ""; Plain ""; Plain ""; Plain ""].

(** One pass of the loop over ["stable"; "bleeding-edge"]: the rows it
    appends. *)
Definition category_rows (reg : Registry) (categories : gmap string (list string))
    (category : string) : option (list Row) :=
  match categories !! category with
  | Some moduleNames =>
      rows ← mapM (fun name => module ← reg !! name;
                               Some (row category name module)) moduleNames;
      Some ((if decide (category = "bleeding-edge") then [separator] else [])
            ++ rows)
  | None => Some []
  end.

(** [func ListModules()], for the order [keys] in which the range over
    the map yields the names. *)
Definition ListModules_from (keys : list string) (reg : Registry) : option Printed :=
  if decide (Z.of_nat (size reg) = 0) then Some NoModulesRegistered
  else
    let names := merge_sort String.le keys in
    categories ← group reg names;
    rows ← foldl (fun acc category =>
                    rows ← acc;
                    more ← category_rows reg categories category;
                    Some (rows ++ more))
                 (Some []) ["stable"; "bleeding-edge"];
    Some (Table rows).

(** [func ListModules()]; the embedding takes the order of
    [map_to_list] for the range over the map. *)
Definition ListModules (reg : Registry) : option Printed :=
  ListModules_from (map_to_list reg).*1 reg.

(** The names registered with a category, in the order of
    [sort.Strings]. *)
Definition names_of (reg : Registry) (category : string) : list string :=
  filter (fun name => Category <$> reg !! name = Some category)
    (merge_sort String.le (map_to_list reg).*1).

(** The row of a registered name. *)
Definition row_of (reg : Registry) (category name : string) : Row :=
  match reg !! name with
  | Some module => row category name module
  | None => []
  end.

End Listing.

(* ================================================================== *)
(** * The functions of Go's [strings] and [strconv] that the sources call

    A Go string is a sequence of bytes; the functions below work on the
    bytes, [list ascii], and are then carried over to [string]. *)

Module Strings.

Definition bytes (s : string) : list ascii := String.list_ascii_of_string s.
Definition of_bytes (l : list ascii) : string := String.string_of_list_ascii l.

Definition byte (n : nat) : ascii := ascii_of_nat n.

(** The separator of lines, ["\n"]. *)
Definition LF : ascii := byte 10.

(** The UTF-8 encodings of the code points for which [unicode.IsSpace]
    holds: U+0009 to U+000D, U+0020, U+0085, U+00A0, U+1680, U+2000 to
    U+200A, U+2028, U+2029, U+202F, U+205F and U+3000.  Each encoding
    begins with an ASCII byte or a leading byte and continues with
    continuation bytes only, so a white space rune is met by Go's
    decoder exactly where its encoding occurs in the bytes, whether the
    bytes are read forwards or backwards. *)
Definition spaces : list (list ascii) :=
  [[byte 9]; [byte 10]; [byte 11]; [byte 12]; [byte 13]; [byte 32];
   [byte 194; byte 133]; [byte 194; byte 160];
   [byte 225; byte 154; byte 128];
   [byte 226; byte 128; byte 128]; [byte 226; byte 128; byte 129];
   [byte 226; byte 128; byte 130]; [byte 226; byte 128; byte 131];
   [byte 226; byte 128; byte 132]; [byte 226; byte 128; byte 133];
   [byte 226; byte 128; byte 134]; [byte 226; byte 128; byte 135];
   [byte 226; byte 128; byte 136]; [byte 226; byte 128; byte 137];
   [byte 226; byte 128; byte 138];
   [byte 226; byte 128; byte 168]; [byte 226; byte 128; byte 169];
   [byte 226; byte 128; byte 175]; [byte 226; byte 129; byte 159];
   [byte 227; byte 128; byte 128]].

(** [p] is a prefix of [l]. *)
Fixpoint starts_with (p l : list ascii) : bool :=
  match p, l with
  | [], _ => true
  | _ :: _, [] => false
  | a :: p', b :: l' => Ascii.eqb a b && starts_with p' l'
  end.

(** What is left of [l] behind the first of the patterns it begins
    with. *)
Fixpoint strip (patterns : list (list ascii)) (l : list ascii)
    : option (list ascii) :=
  match patterns with
  | [] => None
  | p :: rest =>
      if starts_with p l then Some (drop (length p) l) else strip rest l
  end.

(** [l] without the patterns it begins with, one after the other. *)
Fixpoint trim_fuel (patterns : list (list ascii)) (fuel : nat) (l : list ascii)
    : list ascii :=
  match fuel with
  | O => l
  | S fuel' =>
      match strip patterns l with
      | Some rest => trim_fuel patterns fuel' rest
      | None => l
      end
  end.

Definition trim_front (patterns : list (list ascii)) (l : list ascii) : list ascii :=
  trim_fuel patterns (length l) l.

Definition trim_back (patterns : list (list ascii)) (l : list ascii) : list ascii :=
  reverse (trim_front (reverse <$> patterns) (reverse l)).

(** [strings.TrimSpace(s)]: [s] without leading and trailing white
    space. *)
Definition trim_space (l : list ascii) : list ascii :=
  trim_back spaces (trim_front spaces l).

Definition TrimSpace (s : string) : string := of_bytes (trim_space (bytes s)).

(** [strings.Split(s, sep)] for a separator of one byte, which is how
    the sources call it: the pieces between the separators, one more
    than there are separators. *)
Fixpoint split (sep : ascii) (l : list ascii) : list (list ascii) :=
  match l with
  | [] => [[]]
  | c :: rest =>
      if Ascii.eqb c sep then [] :: split sep rest
      else match split sep rest with
           | piece :: pieces => (c :: piece) :: pieces
           | [] => [[c]]
           end
  end.

Definition Split (s : string) (sep : ascii) : list string :=
  of_bytes <$> split sep (bytes s).

(** [strings.Join(elems, sep)] *)
Fixpoint join (sep : list ascii) (elems : list (list ascii)) : list ascii :=
  match elems with
  | [] => []
  | [e] => e
  | e :: rest => e ++ sep ++ join sep rest
  end.

Definition Join (elems : list string) (sep : string) : string :=
  of_bytes (join (bytes sep) (bytes <$> elems)).

(** [strings.HasPrefix(s, prefix)] *)
Definition HasPrefix (s prefix : string) : bool :=
  starts_with (bytes prefix) (bytes s).

(** [strings.Contains(s, substr)] *)
Fixpoint contains (sub l : list ascii) : bool :=
  starts_with sub l
  || match l with
     | [] => false
     | _ :: rest => contains sub rest
     end.

Definition Contains (s substr : string) : bool := contains (bytes substr) (bytes s).

(** [strings.Count(s, substr)] for a [substr] of one byte. *)
Definition Count (s : string) (c : ascii) : Z :=
  len (filter (fun b => b = c) (bytes s)).

(** [strings.Fields(s)]: the maximal runs of bytes between white space.
    [field] is the run being read, in reverse. *)
Fixpoint fields_fuel (fuel : nat) (field : list ascii) (l : list ascii)
    : list (list ascii) :=
  let flush := match field with [] => [] | _ => [reverse field] end in
  match fuel with
  | O => flush
  | S fuel' =>
      match l with
      | [] => flush
      | c :: rest =>
          match strip spaces l with
          | Some rest' => flush ++ fields_fuel fuel' [] rest'
          | None => fields_fuel fuel' (c :: field) rest
          end
      end
  end.

Definition fields (l : list ascii) : list (list ascii) :=
  fields_fuel (S (length l)) [] l.

Definition Fields (s : string) : list string := of_bytes <$> fields (bytes s).

(** The value of a decimal digit. *)
Definition digit (c : ascii) : option Z :=
  let n := Z.of_nat (nat_of_ascii c) in
  if decide (48 <= n <= 57) then Some (n - 48) else None.

(** The value of a run of decimal digits read after [acc]. *)
Fixpoint digits (acc : Z) (l : list ascii) : option Z :=
  match l with
  | [] => Some acc
  | c :: rest =>
      match digit c with
      | Some d => digits (10 * acc + d) rest
      | None => None
      end
  end.

(** [strconv.Atoi(s)]: an optional sign and at least one decimal digit,
    the value within the range of an int; [None] for the syntax and the
    range error. *)
Definition Atoi (s : string) : option Z :=
  let '(negative, l) :=
    match bytes s with
    | c :: rest =>
        if Ascii.eqb c (byte 45) then (true, rest)
        else if Ascii.eqb c (byte 43) then (false, rest)
        else (false, c :: rest)
    | [] => (false, [])
    end in
  match l with
  | [] => None
  | _ =>
      match digits 0 l with
      | Some n =>
          let n := if negative : bool then - n else n in
          if decide (MinInt <= n <= MaxInt) then Some n else None
      | None => None
      end
  end.

(** No pattern is empty: stripping one shortens the bytes. *)
Definition solid (patterns : list (list ascii)) : Prop :=
  forall p, p ∈ patterns -> p <> [].

End Strings.

(* ================================================================== *)
(** * package config: targets read from a file *)

Module Config.

(** [os.ReadFile]: the contents of a file, or the error. *)
Definition FileSystem : Type := string -> string + error.

(** [func loadTargetsFromFile(filename string) ([]string, error)] *)
Definition loadTargetsFromFile (fs : FileSystem) (filename : string)
    : list string * option error :=
  match fs filename with
  | inr err => ([], Some err)
  | inl data =>
      let lines := Strings.Split data Strings.LF in
      (foldl (fun targets line =>
                let line := Strings.TrimSpace line in
                if negb (bool_decide (line = "")) && negb (Strings.HasPrefix line "#")
                then targets ++ [line]
                else targets)
             [] lines,
       None)
  end.

(** A target as a file can give it: not empty, not a comment, without
    white space at either end and without a line break. *)
Definition clean (target : string) : Prop :=
  target <> ""
  /\ Strings.HasPrefix target "#" = false
  /\ Strings.TrimSpace target = target
  /\ Strings.LF ∉ Strings.bytes target.

(** The flags of the command as [overrideWithFlags] reads them:
    [cmd.Flags().GetStringSlice(name)], [GetString], [GetBool] and
    [GetFloat64] give the flag's value, or an error ([None]) when the
    command has no flag of that name and type. *)
Record Flags : Type := mkFlags {
  flag_target : option (list string);
  flag_target_file : option (list string);
  flag_exclude : option (list string);
  flag_output : option string;
  flag_report : option string;
  flag_deep : option bool;
  flag_bleeding_edge : option bool;
  flag_stealth : option bool;
  flag_aggressive : option bool;
  flag_no_throttle : option bool;
  flag_llm_model : option string;
  flag_temp : option float;
  flag_generate_patch : option bool;
  flag_shadow_clone : option string;
  flag_dep_drift : option bool;
  flag_timing_map : option bool;
  flag_blue_team : option bool
}.

(** [if v, err := cmd.Flags().GetX(name); err == nil { field = v }] *)
Definition overridden {A : Type} (flag : option A) (field : A) : A :=
  match flag with
  | Some v => v
  | None => field
  end.

(** [if v, err := cmd.Flags().GetString(name); err == nil && v != "" { field = v }] *)
Definition overridden_string (flag : option string) (field : string) : string :=
  match flag with
  | Some v => if bool_decide (v <> "") then v else field
  | None => field
  end.

(** [logrus.Warnf("Failed to load targets from file %s: %v", file, err)] *)
Definition load_warning (file : string) (err : error) : LogEntry :=
  mkLogEntry LvlWarn []
    ("Failed to load targets from file " +:+ file +:+ ": " +:+ Error err).

(** [func overrideWithFlags(cmd *cobra.Command, config *modules.ScanConfig) error]:
    the configuration after the call, the entries written to the
    standard logger, and the error returned. *)
Definition overrideWithFlags (fs : FileSystem) (flags : Flags) (config : ScanConfig)
    : ScanConfig * list LogEntry * option error :=
  let targets :=
    match flag_target flags with
    | Some targets =>
        if bool_decide (0 < Z.of_nat (length targets))
        then cfg_Targets config ++ targets
        else cfg_Targets config
    | None => cfg_Targets config
    end in
  let '(targets, warnings) :=
    match flag_target_file flags with
    | Some targetFiles =>
        if bool_decide (0 < Z.of_nat (length targetFiles))
        then foldl (fun '(targets, warnings) file =>
                      match loadTargetsFromFile fs file with
                      | (_, Some err) => (targets, warnings ++ [load_warning file err])
                      | (loaded, None) => (targets ++ loaded, warnings)
                      end)
                   (targets, []) targetFiles
        else (targets, [])
    | None => (targets, [])
    end in
  (mkScanConfig
     targets
     (overridden_string (flag_output flags) (cfg_Output config))
     (overridden_string (flag_report flags) (cfg_ReportDir config))
     (cfg_Threads config)
     (cfg_RateLimit config)
     (overridden (flag_deep flags) (cfg_Deep config))
     (overridden (flag_bleeding_edge flags) (cfg_BleedingEdge config))
     (overridden (flag_stealth flags) (cfg_Stealth config))
     (overridden (flag_aggressive flags) (cfg_Aggressive config))
     (overridden (flag_no_throttle flags) (cfg_NoThrottle config))
     (overridden (flag_exclude flags) (cfg_Exclude config))
     (overridden_string (flag_llm_model flags) (cfg_LLMModel config))
     (overridden (flag_temp flags) (cfg_Temperature config))
     (overridden (flag_generate_patch flags) (cfg_GeneratePatch config))
     (overridden_string (flag_shadow_clone flags) (cfg_ShadowClone config))
     (overridden (flag_dep_drift flags) (cfg_DepDrift config))
     (overridden (flag_timing_map flags) (cfg_TimingMap config))
     (overridden (flag_blue_team flags) (cfg_BlueTeam config)),
   warnings,
   None).

(** What the flags ask for: the targets given on the command line, the
    files of targets, the targets of the files that can be read, a
    warning for each file that cannot. *)
Definition given (flags : Flags) : list string :=
  default [] (flag_target flags).

Definition files (flags : Flags) : list string :=
  default [] (flag_target_file flags).

Definition loaded (fs : FileSystem) (file : string) : list string :=
  match loadTargetsFromFile fs file with
  | (_, Some _) => []
  | (targets, None) => targets
  end.

Definition unreadable (fs : FileSystem) (file : string) : option LogEntry :=
  match fs file with
  | inr err => Some (load_warning file err)
  | inl _ => None
  end.

End Config.

(* ================================================================== *)
(** * modules/stable and modules/bleeding-edge: the shipped modules *)

Module Shipped.

(** The outside of the process as the modules meet it:
    [exec.LookPath(tool)] finds the tool or not, and
    [exec.CommandContext(ctx, name, args...).Output()] gives the
    standard output of the command, or an error. *)
Record Env : Type := mkEnv {
  LookPath : string -> bool;
  Output : Ctx -> string -> list string -> string + error
}.

(** [%d] of an int. *)
Definition itoa (n : Z) : string := NilZero.string_of_int (Z.to_int n).

(** [if _, err := exec.LookPath(tool); err != nil { return fmt.Errorf(..) }] *)
Definition in_path (env : Env) (tool : string) : option error :=
  if LookPath env tool then None else Some (ErrNew (tool +:+ " not found in PATH")).

(** ** subfinder *)

(** The loop over the lines of the output: every line that is not
    empty becomes a host without address. *)
Definition add_subdomains (subdomains : list string) (scan : Scan) : Scan :=
  foldl (fun scan subdomain =>
           if decide (subdomain <> "")
           then AddHost (mkHostResult "" subdomain [] [] []) scan
           else scan)
        scan subdomains.

(** [func (m *SubfinderModule) Run(ctx, scan) error] *)
Definition SubfinderRun (env : Env) (ctx : Ctx) (scan : Scan) : Scan * option error :=
  let scan := logf LvlInfo [] "Running subfinder for subdomain discovery" scan in
  (foldl (fun scan target =>
            if Strings.Contains target "/" || bool_decide (Strings.Count target "." = 3)
            then scan
            else
              match Output env ctx "subfinder" ["-d"; target; "-silent"] with
              | inr err =>
                  logf LvlWarn []
                    ("Subfinder failed for " +:+ target +:+ ": " +:+ Error err) scan
              | inl output =>
                  let subdomains :=
                    Strings.Split (Strings.TrimSpace output) Strings.LF in
                  let scan := add_subdomains subdomains scan in
                  logf LvlInfo []
                    ("Discovered " +:+ itoa (len subdomains) +:+ " subdomains for "
                     +:+ target) scan
              end)
         scan (Targets scan),
   None).

Definition SubfinderModule (env : Env) : Module :=
  mkModule "subfinder" "Fast passive subdomain enumeration using multiple sources"
    "stable" "TraceHawk Team" "1.0.0" (in_path env "subfinder") (SubfinderRun env) None.

(** ** nmap *)

(** The arguments of the nmap command for one target. *)
Definition nmap_args (config : ScanConfig) (target : string) : list string :=
  let args := ["-sS"; "-sV"; "-O"; "--top-ports"; "1000"; "-T4"; target] in
  let args := if cfg_Stealth config then ["-sS"; "-T2"; target] else args in
  let args := if cfg_Aggressive config then ["-A"; "-T5"; target] else args in
  args.

(** One pass of the loop of [parseNmapOutput]: the port a line
    describes, if it describes one. *)
Definition parse_line (line : string) : option PortResult :=
  let line := Strings.TrimSpace line in
  if Strings.Contains line "/tcp" && Strings.Contains line "open" then
    let parts := Strings.Fields line in
    if decide (3 <= len parts) then
      let portStr := default "" (head (Strings.Split (default "" (parts !! 0%nat)) "/")) in
      match Strings.Atoi portStr with
      | Some port =>
          Some (mkPortResult port "tcp" "open" (default "" (parts !! 2%nat))
                  (if decide (3 < len parts) then Strings.Join (drop 3 parts) " "
                   else ""))
      | None => None
      end
    else None
  else None.

(** [func (m *NmapModule) parseNmapOutput(output, target string) *HostResult] *)
Definition parseNmapOutput (output target : string) : HostResult :=
  mkHostResult target target
    (omap parse_line (Strings.Split output Strings.LF)) [] [].

(** [func (m *NmapModule) Run(ctx, scan) error] *)
Definition NmapRun (env : Env) (ctx : Ctx) (scan : Scan) : Scan * option error :=
  let scan := logf LvlInfo [] "Running nmap for port scanning" scan in
  (foldl (fun scan target =>
            match Output env ctx "nmap" (nmap_args (Config scan) target) with
            | inr err =>
                logf LvlWarn []
                  ("Nmap failed for " +:+ target +:+ ": " +:+ Error err) scan
            | inl output =>
                let host := parseNmapOutput output target in
                let scan := AddHost host scan in
                logf LvlInfo []
                  ("Scanned " +:+ target +:+ " with " +:+ itoa (len (host_Ports host))
                   +:+ " open ports") scan
            end)
         scan (Targets scan),
   None).

Definition NmapModule (env : Env) : Module :=
  mkModule "nmap" "Network port scanner and service detection"
    "stable" "TraceHawk Team" "1.0.0" (in_path env "nmap") (NmapRun env) None.

(** ** The modules whose [Run] is a placeholder: it logs one line and
    returns nil. *)

Definition placeholder (msg : string) (ctx : Ctx) (scan : Scan) : Scan * option error :=
  (logf LvlInfo [] msg scan, None).

Definition HttpxModule (env : Env) : Module :=
  mkModule "httpx" "Fast HTTP probing and web application discovery"
    "stable" "TraceHawk Team" "1.0.0" (in_path env "httpx")
    (placeholder "Running httpx for web application discovery") None.

Definition NucleiModule (env : Env) : Module :=
  mkModule "nuclei" "Fast vulnerability scanner based on templates"
    "stable" "TraceHawk Team" "1.0.0" (in_path env "nuclei")
    (placeholder "Running nuclei for vulnerability scanning") None.

Definition LLMFuzzerModule : Module :=
  mkModule "llm-fuzzer" "LLM-guided semantic fuzzer using local Llama models"
    "bleeding-edge" "TraceHawk Team" "1.0.0" None
    (placeholder "Running LLM-guided semantic fuzzer") None.

Definition AutoPatchModule : Module :=
  mkModule "auto-patch"
    "Generates code patches and WAF rules for discovered vulnerabilities"
    "bleeding-edge" "TraceHawk Team" "1.0.0" None
    (placeholder "Generating auto-patches for vulnerabilities") None.

Definition ShadowCloneModule : Module :=
  mkModule "shadow-clone"
    "Mirrors production traffic to test auth-bound vulnerabilities"
    "bleeding-edge" "TraceHawk Team" "1.0.0" None
    (placeholder "Running shadow clone proxy") None.

Definition DepDriftModule : Module :=
  mkModule "dep-drift" "Scans for supply chain dependency drift and risk distance"
    "bleeding-edge" "TraceHawk Team" "1.0.0" None
    (placeholder "Scanning for dependency drift") None.

Definition TimingMapModule : Module :=
  mkModule "timing-map" "Performs side-channel timing analysis using eBPF"
    "bleeding-edge" "TraceHawk Team" "1.0.0" None
    (placeholder "Performing timing analysis") None.

Definition BlueTeamModule : Module :=
  mkModule "blue-team"
    "Generates blue team replay kits with synthetic logs and detection rules"
    "bleeding-edge" "TraceHawk Team" "1.0.0" None
    (placeholder "Generating blue team replay kit") None.

(** The [init] functions of the two packages: the modules in the
    order in which they are registered. *)
Definition stable_modules (env : Env) : list Module :=
  [SubfinderModule env; NmapModule env; HttpxModule env; NucleiModule env].

Definition bleeding_edge_modules : list Module :=
  [LLMFuzzerModule; AutoPatchModule; ShadowCloneModule; DepDriftModule;
   TimingMapModule; BlueTeamModule].

(** The registry of the program as shipped. *)
Definition registry (env : Env) : Registry :=
  filed (stable_modules env ++ bleeding_edge_modules) registry0.

(** What of a scan no shipped module writes: everything but the hosts,
    the summary and the log. *)
Definition findings (scan : Scan)
    : string * list string * ScanConfig * list Vulnerability
      * list PatchRecommendation * gmap string GoValue * gmap string GoValue :=
  (ID scan, Targets scan, Config scan, Vulnerabilities (Results scan),
   Patches (Results scan), BleedingEdge (Results scan), Context scan).

(** The hosts a target adds when nmap is run for it. *)
Definition nmap_host (env : Env) (ctx : Ctx) (config : ScanConfig) (target : string)
    : list HostResult :=
  match Output env ctx "nmap" (nmap_args config target) with
  | inl output => [parseNmapOutput output target]
  | inr _ => []
  end.

(** The hosts a target adds when subfinder is run for it. *)
Definition subfinder_hosts (env : Env) (ctx : Ctx) (target : string) : list HostResult :=
  if Strings.Contains target "/" || bool_decide (Strings.Count target "." = 3) then []
  else
    match Output env ctx "subfinder" ["-d"; target; "-silent"] with
    | inl output =>
        (fun subdomain => mkHostResult "" subdomain [] [] [])
        <$> filter (fun subdomain => subdomain <> "")
              (Strings.Split (Strings.TrimSpace output) Strings.LF)
    | inr _ => []
    end.

(** What a module's [Run] may do to the scan and still pass for one
    that only adds hosts: the findings and the summary stay, and the
    hosts grow at the end. *)
Definition adds_hosts (hosts : list HostResult) (before after : Scan) : Prop :=
  Hosts (Results after) = Hosts (Results before) ++ hosts
  /\ findings after = findings before
  /\ Summary (Results after) = Summary (Results before).

(** A host as the shipped modules find them for the targets of a
    scan: a subdomain reported by subfinder for a target, or what nmap
    reported for a target. *)
Definition shipped_host (env : Env) (targets : list string) (config : ScanConfig)
    (host : HostResult) : Prop :=
  exists gctx target,
    target ∈ targets
    /\ (host ∈ subfinder_hosts env gctx target
        \/ host ∈ nmap_host env gctx config target).

(** From [before] to [after] the findings stayed and the hosts grew by
    hosts the shipped modules find. *)
Definition grows (env : Env) (before after : Scan) : Prop :=
  findings after = findings before
  /\ exists extra,
       Hosts (Results after) = Hosts (Results before) ++ extra
       /\ Forall (shipped_host env (Targets before) (Config before)) extra.

(** A module whose [Run] returns nil and leaves the scan grown. *)
Definition tame (env : Env) (module : Module) : Prop :=
  forall gctx scan,
    (Run module gctx scan).2 = None
    /\ grows env scan (Run module gctx scan).1
    /\ ModulesExecuted (Summary (Results (Run module gctx scan).1))
       = ModulesExecuted (Summary (Results scan)).

(** A report generator that reads the scan and writes, at most, log
    entries. *)
Definition read_only (generate : Ctx -> Scan -> Scan * option error) : Prop :=
  forall gctx scan,
    Results (generate gctx scan).1 = Results scan
    /\ findings (generate gctx scan).1 = findings scan.

(** A phase function under which a scan without vulnerabilities stays
    grown. *)
Definition grows_phase (env : Env) (fn : World -> World * option error) : Prop :=
  forall before w,
    Vulnerabilities (Results before) = [] ->
    grows env before (o_scan (orch w)) ->
    grows env before (o_scan (orch (fn w).1)).

(** The names the four module phases ask for. *)
Definition requested : list string :=
  ["subfinder"; "amass"; "dnsx"; "asnmap"; "naabu"; "nmap"; "httpx";
   "nuclei"; "katana"; "ffuf"] ++ bleedingModules.

End Shipped.

(* ================================================================== *)
(** * Properties *)

(** ** Machine integers *)

Lemma int_wrap_small (z : Z) : int_range z -> int_wrap z = z.
Proof.
  unfold int_range, MinInt, MaxInt, int_wrap. intros Hz.
  rewrite Z.mod_small by lia. lia.
Qed.

Lemma int_wrap_range (z : Z) : int_range (int_wrap z).
Proof.
  unfold int_range, MinInt, MaxInt, int_wrap.
  pose proof (Z.mod_pos_bound (z + 2 ^ 63) (2 ^ 64) ltac:(lia)). lia.
Qed.

Lemma int_wrap_add_l (a b : Z) : int_wrap (int_wrap a + b) = int_wrap (a + b).
Proof.
  unfold int_wrap. f_equal.
  replace ((a + 2 ^ 63) mod 2 ^ 64 - 2 ^ 63 + b + 2 ^ 63)
    with ((a + 2 ^ 63) mod 2 ^ 64 + b) by lia.
  rewrite Zplus_mod_idemp_l. f_equal. lia.
Qed.

(** ** Rounding *)

(** On a finite value with a fractional part, [Round] yields the floor
    of the magnitude plus one half: halves go away from zero. *)
Lemma Round_half_away (x : float) (s : bool) (m : positive) (e : Z) :
  Prim2SF x = S754_finite s m e -> e < 0 ->
  Round x =
    let n := (2 * Z.pos m + 2 ^ (- e)) / (2 * 2 ^ (- e)) in
    if s then (- float_of_int n)%float else float_of_int n.
Proof.
  intros Hx He. unfold Round. rewrite Hx.
  destruct (Z.leb_spec 0 e) as [?|_]; [lia|].
  set (d := 2 ^ (- e)).
  assert (Hd : 0 < d) by (apply Z.pow_pos_nonneg; lia).
  cbv zeta.
  assert (Hn : (if d <=? 2 * (Z.pos m mod d) then Z.pos m / d + 1 else Z.pos m / d)
               = (2 * Z.pos m + d) / (2 * d)).
  { pose proof (Z.div_mod (Z.pos m) d ltac:(lia)) as Hdm.
    pose proof (Z.mod_pos_bound (Z.pos m) d Hd) as Hr.
    destruct (Z.leb_spec d (2 * (Z.pos m mod d))).
    - apply Z.div_unique with (r := 2 * (Z.pos m mod d) - d); nia.
    - apply Z.div_unique with (r := 2 * (Z.pos m mod d) + d); nia. }
  rewrite Hn. reflexivity.
Qed.

(** Comparing the other way round gives the opposite answer. *)
Lemma SFcompare_antisym (x y : spec_float) :
  SFcompare y x = option_map CompOpp (SFcompare x y).
Proof.
  destruct x as [[]|[]| |[] mx ex], y as [[]|[]| |[] my ey]; cbn; try done.
  all: rewrite (Z.compare_antisym ex ey); destruct (ex ?= ey) eqn:He; cbn; try done.
  all: change (PosDef.Pos.compare_cont Eq my mx) with (my ?= mx)%positive;
    change (PosDef.Pos.compare_cont Eq mx my) with (mx ?= my)%positive;
    rewrite (Pos.compare_antisym mx my); by destruct (mx ?= my)%positive.
Qed.

Lemma cap100_clamp (score : float) : cap100 score = Spec.clamp100 score.
Proof.
  unfold cap100, Spec.clamp100.
  rewrite FloatAxioms.ltb_spec, FloatAxioms.compare_spec. unfold SFltb.
  rewrite (SFcompare_antisym (Prim2SF score) (Prim2SF 100)).
  by destruct (SFcompare (Prim2SF score) (Prim2SF 100)) as [[]|].
Qed.

(** The clamp replaces the scores above 100, and no other. *)
Lemma clamp100_spec (score : float) :
  ((100 <? score)%float = true -> Spec.clamp100 score = 100%float)
  /\ ((100 <? score)%float = false -> Spec.clamp100 score = score).
Proof.
  rewrite <- cap100_clamp. unfold cap100. by split; intros ->.
Qed.

Lemma Round_to_integer (y : float) : Round y = Spec.to_integer y.
Proof.
  unfold Spec.to_integer.
  destruct (Prim2SF y) as [| | |s m e] eqn:Hy; try (unfold Round; by rewrite Hy).
  destruct (Z.leb_spec 0 e) as [He|He].
  - unfold Round. rewrite Hy. by destruct (Z.leb_spec 0 e); [|lia].
  - rewrite (Round_half_away y s m e Hy He). reflexivity.
Qed.

Lemma round2_cents (score : float) : round2 score = Spec.round_cents score.
Proof. unfold round2, Spec.round_cents. by rewrite Round_to_integer. Qed.

(** [nearest m e] is the one integer [n] with
    [n - 1/2 <= m * 2^e < n + 1/2]. *)
Lemma nearest_spec (m : positive) (e : Z) :
  e < 0 ->
  let n := Spec.nearest m e in
  (2 * n - 1) * 2 ^ (- e) <= 2 * Z.pos m < (2 * n + 1) * 2 ^ (- e).
Proof.
  intros He. cbv zeta. unfold Spec.nearest. set (d := 2 ^ (- e)).
  assert (Hd : 0 < d) by (subst d; apply Z.pow_pos_nonneg; lia).
  pose proof (Z.div_mod (2 * Z.pos m + d) (2 * d) ltac:(lia)) as Hdm.
  pose proof (Z.mod_pos_bound (2 * Z.pos m + d) (2 * d) ltac:(lia)) as Hr.
  nia.
Qed.

Lemma nearest_unique (m : positive) (e n : Z) :
  e < 0 ->
  (2 * n - 1) * 2 ^ (- e) <= 2 * Z.pos m < (2 * n + 1) * 2 ^ (- e) ->
  n = Spec.nearest m e.
Proof.
  intros He Hn. pose proof (nearest_spec m e He) as Hs. cbv zeta in Hs.
  assert (Hd : 0 < 2 ^ (- e)) by (apply Z.pow_pos_nonneg; lia).
  nia.
Qed.

(** What [round_cents] computes, by the shape of the score times 100:
    with a fractional part it is [n / 100] for the integer [n] nearest
    to the magnitude, a half counted upwards, under the sign of the
    score; otherwise the product is divided as it is. *)
Lemma round_cents_spec (score : float) :
  (forall s m e,
     Prim2SF (score * 100) = S754_finite s m e -> e < 0 ->
     exists n,
       (2 * n - 1) * 2 ^ (- e) <= 2 * Z.pos m < (2 * n + 1) * 2 ^ (- e)
       /\ Spec.round_cents score
          = ((if s then - float_of_int n else float_of_int n) / 100)%float)
  /\ ((forall s m e, Prim2SF (score * 100) = S754_finite s m e -> 0 <= e) ->
      Spec.round_cents score = (score * 100 / 100)%float).
Proof.
  unfold Spec.round_cents, Spec.to_integer. split.
  - intros s m e Hy He. rewrite Hy.
    destruct (Z.leb_spec 0 e); [lia|].
    exists (Spec.nearest m e). split; [by apply nearest_spec|]. by destruct s.
  - intros Hint. destruct (Prim2SF (score * 100)) as [| | |s m e] eqn:Hy; try done.
    specialize (Hint s m e eq_refl). by destruct (Z.leb_spec 0 e); [|lia].
Qed.

(** ** The scoring engine *)

Lemma NewEngine_base (severity : string) :
  (let baseSeverity := index_float (severityWeights NewEngine) severity in
   if (baseSeverity =? 0)%float then 1.0%float else baseSeverity)
  = Spec.severityWeight severity.
Proof.
  unfold Spec.severityWeight, index_float, NewEngine, severityWeights.
  repeat case_decide; subst;
    repeat (rewrite lookup_insert_ne by done);
    rewrite ?lookup_insert_eq, ?lookup_empty; reflexivity.
Qed.

Lemma driftFactor_refines (scan : Scan) :
  match GetContext scan "supply_chain_drift" with
  | (driftData, true) =>
      match as_float64 driftData with
      | Some drift => (1.0 + drift * driftWeight NewEngine)%float
      | None => 1.0%float
      end
  | (_, false) => 1.0%float
  end = Spec.driftFactor scan.
Proof.
  unfold Spec.driftFactor, Spec.supplyChainDrift, GetContext.
  destruct (Context scan !! "supply_chain_drift") as [[]|]; reflexivity.
Qed.

Lemma llmConfidence_refines (vuln : Vulnerability) :
  match vuln_Metadata vuln !! "llm_confidence" with
  | Some confidence =>
      match as_float64 confidence with
      | Some conf => (0.8 + conf * llmWeight NewEngine)%float
      | None => 1.0%float
      end
  | None => 1.0%float
  end = Spec.llmConfidence vuln.
Proof.
  unfold Spec.llmConfidence.
  destruct (vuln_Metadata vuln !! "llm_confidence") as [[]|]; reflexivity.
Qed.

Lemma CalculateRiskScore_refines (vuln : Vulnerability) (scan : Scan) :
  CalculateRiskScore NewEngine vuln scan = Spec.risk_score vuln scan.
Proof.
  unfold CalculateRiskScore, Spec.risk_score, Spec.raw_score. cbv zeta.
  pose proof (NewEngine_base (vuln_Severity vuln)) as Hb. cbv zeta in Hb.
  rewrite Hb, driftFactor_refines, llmConfidence_refines, round2_cents, cap100_clamp.
  destruct (vuln_Exploitable vuln); reflexivity.
Qed.



Lemma overall_loop_from (vulns : list Vulnerability) (t : float) (c h : Z) :
  int_range c -> int_range h ->
  foldl (fun '(totalScore, criticalCount, highCount) vuln =>
           let totalScore := (totalScore + vuln_RiskScore vuln)%float in
           if decide (vuln_Severity vuln = "critical")
           then (totalScore, int_incr criticalCount, highCount)
           else if decide (vuln_Severity vuln = "high")
           then (totalScore, criticalCount, int_incr highCount)
           else (totalScore, criticalCount, highCount))
        (t, c, h) vulns
  = (foldl (fun acc vuln => (acc + vuln_RiskScore vuln)%float) t vulns,
     int_wrap (c + Spec.count_severity "critical" vulns),
     int_wrap (h + Spec.count_severity "high" vulns)).
Proof.
  revert t c h. unfold Spec.count_severity, len.
  induction vulns as [|v vulns IH]; intros t c h Hc Hh.
  - simpl. rewrite !Z.add_0_r, !int_wrap_small by done. reflexivity.
  - cbn [foldl]. cbv zeta. rewrite !filter_cons.
    destruct (decide (vuln_Severity v = "critical")) as [Hv|Hv].
    + rewrite IH by (done || apply int_wrap_range).
      destruct (decide (vuln_Severity v = "high")) as [Hv'|_];
        [rewrite Hv in Hv'; discriminate|].
      unfold int_incr. rewrite int_wrap_add_l. cbn [length].
      do 2 f_equal. f_equal. lia.
    + destruct (decide (vuln_Severity v = "high")) as [Hv'|Hv'].
      * rewrite IH by (done || apply int_wrap_range).
        unfold int_incr. rewrite int_wrap_add_l. cbn [length].
        f_equal. f_equal. lia.
      * rewrite IH by done. reflexivity.
Qed.

Lemma count_severity_bound (label : string) (vulns : list Vulnerability) :
  0 <= Spec.count_severity label vulns <= len vulns.
Proof.
  unfold Spec.count_severity, len.
  pose proof (length_filter (fun vuln => vuln_Severity vuln = label) vulns). lia.
Qed.

(** C2, as amended.  The aggregate score is 0.0 for no vulnerabilities,
    and otherwise the mean of the risk-score fields plus 5.0 per
    vulnerability labelled "critical" plus 2.0 per vulnerability
    labelled "high", in binary64, clamped so that a sum above 100
    becomes exactly 100 and every other sum stays, then rounded to two
    decimals the way [math.Round(x*100)/100] does: the clamped sum times
    100 is rounded to binary64; if that has a fractional part, it goes
    to the integer [n] nearest to its magnitude, a half counted
    upwards, and the score is [n / 100] under the sign of the sum; if it
    has none, it is divided by 100 as it is. *)
Theorem C2_overall_risk_score (vulns : list Vulnerability) :
  len vulns <= MaxInt ->
  let score := CalculateOverallRiskScore NewEngine vulns in
  let total := Spec.raw_aggregate vulns in
  let scaled := (Spec.clamp100 total * 100)%float in
  score = Spec.aggregate_score vulns
  /\ (vulns = [] -> score = 0.0%float)
  /\ (vulns <> [] ->
      ((100 <? total)%float = true -> Spec.clamp100 total = 100%float)
      /\ ((100 <? total)%float = false -> Spec.clamp100 total = total)
      /\ (forall s m e,
            Prim2SF scaled = S754_finite s m e -> e < 0 ->
            exists n,
              (2 * n - 1) * 2 ^ (- e) <= 2 * Z.pos m < (2 * n + 1) * 2 ^ (- e)
              /\ score
                 = ((if s then - float_of_int n else float_of_int n) / 100)%float)
      /\ ((forall s m e, Prim2SF scaled = S754_finite s m e -> 0 <= e) ->
          score = (scaled / 100)%float)
      /\ ((100 <? total)%float = true -> score = 100%float)).
Proof.
  intros Hlen. cbv zeta.
  assert (Hrefines : CalculateOverallRiskScore NewEngine vulns = Spec.aggregate_score vulns).
  { unfold CalculateOverallRiskScore, Spec.aggregate_score, Spec.raw_aggregate,
      Spec.mean_score, Spec.sum_scores.
    destruct vulns as [|v vulns]; [reflexivity|].
    destruct (decide (len (v :: vulns) = 0)) as [H0|_];
      [unfold len in H0; simpl in H0; lia|].
    unfold overall_loop.
    rewrite overall_loop_from by (unfold int_range, MinInt, MaxInt; lia).
    rewrite !Z.add_0_l.
    pose proof (count_severity_bound "critical" (v :: vulns)).
    pose proof (count_severity_bound "high" (v :: vulns)).
    rewrite !int_wrap_small by (unfold int_range, MinInt, MaxInt in *; lia).
    by rewrite round2_cents, cap100_clamp. }
  rewrite Hrefines. split; [done|]. split; [by intros ->|].
  intros Hne.
  assert (Hagg : Spec.aggregate_score vulns
                 = Spec.round_cents (Spec.clamp100 (Spec.raw_aggregate vulns))).
  { unfold Spec.aggregate_score. by destruct vulns. }
  rewrite Hagg.
  destruct (clamp100_spec (Spec.raw_aggregate vulns)) as [Hover Hkeep].
  destruct (round_cents_spec (Spec.clamp100 (Spec.raw_aggregate vulns)))
    as [Hfrac Hint].
  split_and!; try done.
  intros Hbig. rewrite (Hover Hbig). by vm_compute.
Qed.

(** C2, as the specification words it, fails: a single "low" finding
    with a risk score just below 7.515 (the binary64 nearest to it)
    has that score as aggregate, whose two decimals are 7.51, and the
    code returns 7.52. *)
Lemma C2_rounding_counterexample :
  CalculateOverallRiskScore NewEngine [Examples.scored "V-1" "low" 7.515] = 7.52%float
  /\ Spec.aggregate_rounded_2dp [Examples.scored "V-1" "low" 7.515] 7.51%float
  /\ ~ Spec.aggregate_rounded_2dp [Examples.scored "V-1" "low" 7.515]
         (CalculateOverallRiskScore NewEngine [Examples.scored "V-1" "low" 7.515]).
Proof.
  assert (Hshape :
    Prim2SF (Spec.clamp100 (Spec.raw_aggregate [Examples.scored "V-1" "low" 7.515]))
    = S754_finite false 8461137799922319 (-50)) by (by vm_compute).
  split_and!.
  - by vm_compute.
  - unfold Spec.aggregate_rounded_2dp, Spec.rounded_2dp. rewrite Hshape.
    exists 751. split; [by vm_compute|by vm_compute].
  - unfold Spec.aggregate_rounded_2dp, Spec.rounded_2dp. rewrite Hshape.
    intros (n & Hn & Hr). cbn in Hn.
    assert (n = 751) as -> by lia.
    apply (f_equal Prim2SF) in Hr. vm_compute in Hr. discriminate.
Qed.

(** A critical finding scored 15.0, a high one scored 7.5 and a low one
    scored 0.13: the mean 7.5433.. plus 5.0 plus 2.0 rounds to 14.54. *)
Lemma C2_overall_risk_score_witness :
  CalculateOverallRiskScore NewEngine
    [Examples.scored "V-1" "critical" 15.0; Examples.scored "V-2" "high" 7.5;
     Examples.scored "V-3" "low" 0.13]
  = 14.54%float.
Proof.
  refine (eq_trans (proj1 (C2_overall_risk_score _ _)) _).
  - vm_compute. discriminate.
  - vm_compute. reflexivity.
Defined.


(** ** The module registry *)

Lemma well_keyed_empty : Spec.well_keyed registry0.
Proof. intros key module H. unfold registry0 in H. by rewrite lookup_empty in H. Qed.

Lemma well_keyed_insert (module : Module) (reg : Registry) :
  Spec.well_keyed reg -> Spec.well_keyed (<[Name module := module]> reg).
Proof.
  intros Hwk key m. rewrite lookup_insert.
  case_decide; [intros [= <-]; done | apply Hwk].
Qed.

(** C6. [Register] ends the process exactly when the module's name is
    empty or a module of that name is registered already; otherwise it
    returns the mapping with the module inserted under its name, where
    [GetModule] then finds it.  [GetModule] is a total function of the
    mapping: it returns the entry and whether there is one. *)
Theorem C6_register_and_lookup (module : Module) (reg : Registry) :
  Spec.well_keyed reg ->
  ((exists msg, Register module reg = Fatal msg) <->
   (Name module = "" \/
    exists m, Spec.registered reg m /\ Name m = Name module))
  /\ ((forall msg, Register module reg <> Fatal msg) ->
      Register module reg = Returned (<[Name module := module]> reg)
      /\ Spec.well_keyed (<[Name module := module]> reg)
      /\ GetModule (<[Name module := module]> reg) (Name module) = (Some module, true)
      /\ (forall name, name <> Name module ->
          GetModule (<[Name module := module]> reg) name = GetModule reg name))
  /\ (forall name,
        GetModule reg name = (reg !! name, bool_decide (is_Some (reg !! name)))).
Proof.
  intros Hwk. unfold Register, GetModule. split; [|split].
  - split.
    + intros [msg Hmsg]. destruct (decide (Name module = "")) as [?|Hne]; [by left|].
      right. destruct (reg !! Name module) as [m|] eqn:Hm; [|discriminate].
      exists m. split; [by exists (Name module) | by apply Hwk].
    + intros [Hempty | (m & [key Hkey] & Hname)].
      * rewrite decide_True by done. eauto.
      * destruct (decide (Name module = "")); [eauto|].
        pose proof (Hwk _ _ Hkey) as Hk. rewrite Hname in Hk. subst key.
        rewrite Hkey. eauto.
  - intros Hok.
    destruct (decide (Name module = "")); [by destruct (Hok _ eq_refl)|].
    destruct (reg !! Name module) eqn:Hm; [by destruct (Hok _ eq_refl)|].
    split; [done|]. split; [by apply well_keyed_insert|].
    split; [by rewrite lookup_insert_eq|].
    intros name Hname. by rewrite lookup_insert_ne.
  - intros name. destruct (reg !! name) eqn:Hm.
    + by rewrite bool_decide_eq_true_2.
    + rewrite bool_decide_eq_false_2; [done|]. by intros [? ?].
Qed.

Lemma C6_register_and_lookup_witness :
  (exists msg,
     Register (Examples.ok_module "nmap" "stable") Examples.scanners = Fatal msg)
  /\ Register (Examples.ok_module "nuclei" "stable") Examples.scanners
     = Returned (<["nuclei" := Examples.ok_module "nuclei" "stable"]> Examples.scanners).
Proof.
  assert (Hwk : Spec.well_keyed Examples.scanners).
  { apply (well_keyed_insert (Examples.ok_module "nmap" "stable")).
    apply (well_keyed_insert (Examples.ok_module "httpx" "stable")).
    apply well_keyed_empty. }
  split.
  - apply (proj1 (C6_register_and_lookup _ _ Hwk)). right.
    exists (Examples.ok_module "nmap" "stable"). split; [|reflexivity].
    exists "nmap". reflexivity.
  - refine (proj1 (proj1 (proj2 (C6_register_and_lookup
                                   (Examples.ok_module "nuclei" "stable") _ Hwk)) _)).
    intros msg. vm_compute. discriminate.
Defined.

(** ** Counting loops *)

Lemma len_app {A} (l1 l2 : list A) : len (l1 ++ l2) = len l1 + len l2.
Proof. unfold len. rewrite length_app. lia. Qed.

Lemma len_nonneg {A} (l : list A) : 0 <= len l.
Proof. unfold len. lia. Qed.

Lemma count_nil {A} (p : A -> bool) : Spec.count p [] = 0.
Proof. reflexivity. Qed.

Lemma count_cons {A} (p : A -> bool) (x : A) (l : list A) :
  Spec.count p (x :: l) = (if p x then 1 else 0) + Spec.count p l.
Proof.
  unfold Spec.count, len. rewrite filter_cons.
  destruct (p x); case_decide; try done; cbn [length]; lia.
Qed.

Lemma count_app {A} (p : A -> bool) (l1 l2 : list A) :
  Spec.count p (l1 ++ l2) = Spec.count p l1 + Spec.count p l2.
Proof. unfold Spec.count. rewrite filter_app. apply len_app. Qed.

Lemma count_bounds {A} (p : A -> bool) (l : list A) : 0 <= Spec.count p l <= len l.
Proof.
  unfold Spec.count, len.
  pose proof (length_filter (fun x => p x = true) l). lia.
Qed.

Lemma int_range_0 : int_range 0.
Proof. unfold int_range, MinInt, MaxInt. lia. Qed.

Lemma int_incr_range (z : Z) : int_range (int_incr z).
Proof. apply int_wrap_range. Qed.

Lemma int_add_range (x y : Z) : int_range (int_add x y).
Proof. apply int_wrap_range. Qed.

#[local] Hint Resolve int_wrap_range int_incr_range int_add_range int_range_0 : core.

(** Projections of records built by the setters. *)
Ltac proj_simpl :=
  unfold on_orch, olog, set_summary, summary_of, logf, set_scan, set_sandbox,
    set_Results, set_Summary, set_Vulnerabilities, set_Logger;
  cbn [o_config o_scan o_sandbox o_reporter o_scorer orch ctx
       ID Targets Config Results Context Logger
       Hosts Vulnerabilities Patches BleedingEdge Summary
       TotalHosts AliveHosts TotalPorts OpenPorts TotalVulns CriticalVulns
       HighVulns MediumVulns LowVulns ExploitableVulns HighRiskVulns
       ScanDuration RiskScore ModulesExecuted].

Ltac wrap_arith :=
  unfold int_incr, int_add; rewrite ?int_wrap_add_l;
  repeat match goal with
         | |- int_wrap _ = int_wrap _ => f_equal; lia
         | |- (_, _) = (_, _) => f_equal
         end.

(** A loop that increments a counter at every element passing a test
    counts those elements, modulo the width of an int. *)
Lemma count_loop {A} (p : A -> bool) (l : list A) (c : Z) :
  int_range c ->
  foldl (fun n x => if p x then int_incr n else n) c l
  = int_wrap (c + Spec.count p l).
Proof.
  revert c. induction l as [|x l IH]; intros c Hc; cbn [foldl].
  - rewrite count_nil, Z.add_0_r. by rewrite int_wrap_small.
  - rewrite count_cons. destruct (p x).
    + rewrite IH by auto. wrap_arith.
    + rewrite IH by auto. wrap_arith.
Qed.

Lemma foldl_pointwise {A B} (f g : B -> A -> B) (l : list A) (b : B) :
  (forall b x, f b x = g b x) -> foldl f b l = foldl g b l.
Proof.
  intros Hfg. revert b. induction l as [|x l IH]; intros b; cbn [foldl]; [done|].
  by rewrite Hfg, IH.
Qed.

Lemma len_pos_nonempty {A} (l : list A) :
  (0 <? len l) = negb (bool_decide (l = [])).
Proof. destruct l; reflexivity. Qed.

Lemma count_alive_spec (hosts : list HostResult) :
  count_alive hosts = int_wrap (Spec.count Spec.alive hosts).
Proof.
  unfold count_alive.
  rewrite (foldl_pointwise _ (fun n x => if Spec.alive x then int_incr n else n)).
  - by rewrite count_loop.
  - intros b x. unfold Spec.alive. by rewrite !len_pos_nonempty.
Qed.

Lemma count_open_spec (ports : list PortResult) (c : Z) :
  int_range c ->
  count_open c ports = int_wrap (c + Spec.count Spec.is_open ports).
Proof.
  intros Hc. unfold count_open.
  rewrite (foldl_pointwise _ (fun n x => if Spec.is_open x then int_incr n else n)).
  - by rewrite count_loop.
  - intros b x. unfold Spec.is_open. by case_decide; case_bool_decide.
Qed.

Lemma count_ports_from (hosts : list HostResult) (t c : Z) :
  int_range t -> int_range c ->
  foldl (fun '(total, open) host =>
           (int_add total (len (host_Ports host)),
            count_open open (host_Ports host)))
        (t, c) hosts
  = (int_wrap (t + len (Spec.all_ports hosts)),
     int_wrap (c + Spec.count Spec.is_open (Spec.all_ports hosts))).
Proof.
  revert t c. induction hosts as [|h hosts IH]; intros t c Ht Hc; cbn [foldl].
  - unfold Spec.all_ports. cbn. rewrite count_nil, !Z.add_0_r.
    by rewrite !int_wrap_small.
  - rewrite IH by (rewrite ?count_open_spec by done; auto).
    unfold Spec.all_ports. cbn [fmap list_fmap concat].
    rewrite len_app, count_app, count_open_spec by done. wrap_arith.
Qed.

Lemma count_vulns_from (vulns : list Vulnerability) (c h m l e : Z) :
  int_range c -> int_range h -> int_range m -> int_range l -> int_range e ->
  foldl (fun '(critical, high, medium, low, exploitable) vuln =>
           let '(critical, high, medium, low) :=
             if decide (vuln_Severity vuln = "critical")
             then (int_incr critical, high, medium, low)
             else if decide (vuln_Severity vuln = "high")
             then (critical, int_incr high, medium, low)
             else if decide (vuln_Severity vuln = "medium")
             then (critical, high, int_incr medium, low)
             else if decide (vuln_Severity vuln = "low")
             then (critical, high, medium, int_incr low)
             else (critical, high, medium, low) in
           (critical, high, medium, low,
            if vuln_Exploitable vuln then int_incr exploitable else exploitable))
        (c, h, m, l, e) vulns
  = (int_wrap (c + Spec.count (Spec.has_severity "critical") vulns),
     int_wrap (h + Spec.count (Spec.has_severity "high") vulns),
     int_wrap (m + Spec.count (Spec.has_severity "medium") vulns),
     int_wrap (l + Spec.count (Spec.has_severity "low") vulns),
     int_wrap (e + Spec.count vuln_Exploitable vulns)).
Proof.
  revert c h m l e.
  induction vulns as [|v vulns IH]; intros c h m l e Hc Hh Hm Hl He; cbn [foldl].
  - rewrite !count_nil, !Z.add_0_r. by rewrite !int_wrap_small.
  - rewrite !count_cons.
    set (nc := Spec.count (Spec.has_severity "critical") vulns) in *.
    set (nh := Spec.count (Spec.has_severity "high") vulns) in *.
    set (nm := Spec.count (Spec.has_severity "medium") vulns) in *.
    set (nl := Spec.count (Spec.has_severity "low") vulns) in *.
    unfold Spec.has_severity.
    repeat case_decide; repeat case_bool_decide; try congruence;
      destruct (vuln_Exploitable v);
      (rewrite IH by auto); wrap_arith.
Qed.

(** C10. The summary pass is idempotent, and what it recomputes are the
    total and alive host counts, the total and open port counts, the
    vulnerability counts by severity and the exploitable count, each an
    int; the high-risk count is the one the scoring loop left. *)
Theorem C10_summary_idempotent (o : Orchestrator) :
  updateScanSummary (updateScanSummary o) = updateScanSummary o
  /\ let summary := summary_of (updateScanSummary o) in
     let hosts := Hosts (Results (o_scan o)) in
     let vulns := Vulnerabilities (Results (o_scan o)) in
     TotalHosts summary = len hosts
     /\ AliveHosts summary = int_wrap (Spec.count Spec.alive hosts)
     /\ TotalPorts summary = int_wrap (len (Spec.all_ports hosts))
     /\ OpenPorts summary = int_wrap (Spec.count Spec.is_open (Spec.all_ports hosts))
     /\ TotalVulns summary = len vulns
     /\ CriticalVulns summary = int_wrap (Spec.count (Spec.has_severity "critical") vulns)
     /\ HighVulns summary = int_wrap (Spec.count (Spec.has_severity "high") vulns)
     /\ MediumVulns summary = int_wrap (Spec.count (Spec.has_severity "medium") vulns)
     /\ LowVulns summary = int_wrap (Spec.count (Spec.has_severity "low") vulns)
     /\ ExploitableVulns summary = int_wrap (Spec.count vuln_Exploitable vulns)
     /\ HighRiskVulns summary = HighRiskVulns (summary_of o).
Proof.
  split.
  - unfold updateScanSummary.
    destruct (count_ports (Hosts (Results (o_scan o)))) as [tp op] eqn:Hp.
    destruct (count_vulns (Vulnerabilities (Results (o_scan o))))
      as [[[[c h] m] l] e] eqn:Hv.
    proj_simpl. rewrite Hp, Hv. reflexivity.
  - cbv zeta. unfold updateScanSummary, count_ports, count_vulns.
    rewrite count_ports_from, count_vulns_from by auto.
    rewrite count_alive_spec. proj_simpl. rewrite !Z.add_0_l. repeat split.
Qed.

(** ** The scoring phase *)

(** The score reads the scan's context and nothing else of the scan. *)
Lemma CalculateRiskScore_context (e : Engine) (vuln : Vulnerability) (s1 s2 : Scan) :
  Context s1 = Context s2 ->
  CalculateRiskScore e vuln s1 = CalculateRiskScore e vuln s2.
Proof. intros H. unfold CalculateRiskScore, GetContext. by rewrite H. Qed.

Lemma with_scores_id (o : Orchestrator) :
  Spec.with_scores (Vulnerabilities (Results (o_scan o)))
    (HighRiskVulns (summary_of o)) o = o.
Proof. by destruct o as [? [? ? ? [? ? ? ? []] ? ?] ? ? ?]. Qed.

Lemma insert_middle {A} (l1 l2 : list A) (x y : A) :
  <[length l1 := y]> (l1 ++ x :: l2) = l1 ++ y :: l2.
Proof.
  replace (length l1) with (length l1 + 0)%nat at 1 by lia.
  by rewrite insert_app_r.
Qed.

Section ScoreLoop.

Variable o : Orchestrator.

Let score (vuln : Vulnerability) : float :=
  CalculateRiskScore (o_scorer o) vuln (o_scan o).

Let scored (vuln : Vulnerability) : Vulnerability :=
  set_RiskScore (score vuln) vuln.

Lemma score_vuln_step (done todo : list Vulnerability) (vuln : Vulnerability) (hr : Z) :
  score_vuln (length done) (Spec.with_scores (done ++ vuln :: todo) hr o)
  = Spec.with_scores ((done ++ [scored vuln]) ++ todo)
      (if Spec.high_risk (score vuln) then int_incr hr else hr) o.
Proof.
  unfold score_vuln, store_vuln, Spec.with_scores, Spec.high_risk, scored, score.
  proj_simpl.
  rewrite list_lookup_middle by done. proj_simpl.
  rewrite insert_middle, <- app_assoc. cbn [app].
  rewrite (CalculateRiskScore_context _ _ _ (o_scan o)) by done.
  by destruct (70 <=? _)%float.
Qed.

Lemma score_range_spec (todo done : list Vulnerability) (hr : Z) :
  score_range (length todo) (length done) (Spec.with_scores (done ++ todo) hr o)
  = Spec.with_scores (done ++ (scored <$> todo))
      (foldl (fun n vuln => if Spec.high_risk (score vuln) then int_incr n else n)
         hr todo) o.
Proof.
  revert done hr. induction todo as [|vuln todo IH]; intros done hr.
  - reflexivity.
  - cbn [length score_range]. rewrite score_vuln_step.
    replace (S (length done)) with (length (done ++ [scored vuln]))
      by (rewrite length_app; cbn; lia).
    rewrite IH. cbn [foldl fmap list_fmap]. by rewrite <- app_assoc.
Qed.

End ScoreLoop.

Lemma updateScanSummary_keeps (o : Orchestrator) :
  Vulnerabilities (Results (o_scan (updateScanSummary o)))
  = Vulnerabilities (Results (o_scan o))
  /\ HighRiskVulns (summary_of (updateScanSummary o)) = HighRiskVulns (summary_of o).
Proof.
  unfold updateScanSummary.
  destruct (count_ports _) as [tp op].
  destruct (count_vulns _) as [[[[c h] m] l] e].
  by proj_simpl.
Qed.

(** What the scoring phase leaves in the vulnerability list and in the
    high-risk counter. *)
Lemma runScoringPhase_scores (w : World) :
  let o := orch w in
  let score := fun vuln => CalculateRiskScore (o_scorer o) vuln (o_scan o) in
  let o' := orch (runScoringPhase w).1 in
  Vulnerabilities (Results (o_scan o'))
  = (fun vuln => set_RiskScore (score vuln) vuln) <$> Vulnerabilities (Results (o_scan o))
  /\ HighRiskVulns (summary_of o')
     = foldl (fun n vuln => if Spec.high_risk (score vuln) then int_incr n else n)
         (HighRiskVulns (summary_of o)) (Vulnerabilities (Results (o_scan o))).
Proof.
  cbv zeta. unfold runScoringPhase. cbn [fst orch].
  set (o1 := olog LvlInfo [] _ (orch w)).
  pose proof (score_range_spec o1 (Vulnerabilities (Results (o_scan o1))) []
                (HighRiskVulns (summary_of o1))) as Hloop.
  cbn [app length] in Hloop. rewrite with_scores_id in Hloop.
  rewrite Hloop. clear Hloop.
  match goal with
  | |- context [updateScanSummary ?x] =>
      destruct (updateScanSummary_keeps x) as [Hv Hh]
  end.
  split; (etrans; [eassumption|]); unfold Spec.with_scores, set_SummaryRiskScore;
    subst o1; proj_simpl.
  - apply list_fmap_ext. intros _ vuln _.
    f_equal; by apply CalculateRiskScore_context.
  - apply foldl_pointwise. intros n vuln.
    by rewrite (CalculateRiskScore_context _ _ _ (o_scan (orch w))).
Qed.

(** C9. The scoring phase raises the high-risk counter by one for each
    vulnerability whose computed score is at least 70 and leaves it
    alone for the others; the score itself is a value computed from the
    vulnerability and the context, the counter is touched by the loop
    of the phase only.  The scores end up in the risk-score fields. *)
Theorem C9_high_risk_counter (w : World) :
  let o := orch w in
  let vulns := Vulnerabilities (Results (o_scan o)) in
  let score := fun vuln => CalculateRiskScore (o_scorer o) vuln (o_scan o) in
  int_range (HighRiskVulns (summary_of o)) ->
  HighRiskVulns (summary_of o) + len vulns <= MaxInt ->
  HighRiskVulns (summary_of (orch (runScoringPhase w).1))
  = HighRiskVulns (summary_of o)
    + Spec.count (fun vuln => Spec.high_risk (score vuln)) vulns
  /\ (forall i vuln, vulns !! i = Some vuln ->
      HighRiskVulns (summary_of (score_vuln i o))
      = HighRiskVulns (summary_of o) + (if (70.0 <=? score vuln)%float then 1 else 0))
  /\ (forall i vuln, vulns !! i = Some vuln ->
      vuln_RiskScore
        <$> Vulnerabilities (Results (o_scan (orch (runScoringPhase w).1))) !! i
      = Some (score vuln)).
Proof.
  cbv zeta. intros Hhr Hlen.
  destruct (runScoringPhase_scores w) as [Hv Hh]. cbv zeta in Hv, Hh.
  split; [|split].
  - rewrite Hh, count_loop by done.
    pose proof (count_bounds
                  (fun vuln => Spec.high_risk
                     (CalculateRiskScore (o_scorer (orch w)) vuln (o_scan (orch w))))
                  (Vulnerabilities (Results (o_scan (orch w))))).
    apply int_wrap_small. unfold int_range, MinInt, MaxInt in *. lia.
  - intros i vuln Hi. unfold score_vuln. rewrite Hi.
    assert (0 < len (Vulnerabilities (Results (o_scan (orch w))))).
    { apply lookup_lt_Some in Hi. unfold len. lia. }
    unfold summary_of in *.
    destruct (70 <=? _)%float.
    + unfold store_vuln. proj_simpl. unfold int_incr.
      rewrite int_wrap_small; [done|]. unfold int_range, MinInt, MaxInt in *. lia.
    + unfold store_vuln. proj_simpl. lia.
  - intros i vuln Hi. rewrite Hv, list_lookup_fmap, Hi. reflexivity.
Qed.

Lemma C9_high_risk_counter_witness :
  HighRiskVulns (summary_of (orch (runScoringPhase Examples.drifting_world).1)) = 1.
Proof.
  refine (eq_trans (proj1 (C9_high_risk_counter Examples.drifting_world _ _)) _).
  - vm_compute. split; discriminate.
  - vm_compute. discriminate.
  - vm_compute. reflexivity.
Defined.

(** ** The phase pipeline *)

Lemma run_phases_app (pre post : list Phase) (w : World) :
  run_phases (pre ++ post) w
  = match run_phases pre w with
    | (w1, None) => run_phases post w1
    | (w1, Some err) => (w1, Some err)
    end.
Proof.
  revert w. induction pre as [|[name fn] pre IH]; intros w; [done|].
  cbn [app run_phases].
  destruct (fn _) as [w1 [err|]]; [done|].
  destruct (ctx _); [done|]. apply IH.
Qed.

(** Once the targets are validated, [Execute] is the loop over the six
    phases, started in the prepared world and concluded by the success
    entry and the deferred calls. *)
Lemma Execute_validated (reg : Registry) (host : Host) (s : Schedules)
    (elapsed : string) (w : World) :
  Targets (o_scan (orch w)) <> [] ->
  Execute reg host s elapsed w
  = concluded elapsed (run_phases (phases_of reg s) (prepared host w)).
Proof.
  intros Htargets. unfold Execute, concluded, prepared, validateTargets. proj_simpl.
  destruct (decide (len (Targets (o_scan (orch w))) = 0)) as [H0|_].
  { destruct (Targets (o_scan (orch w))); [done|]. unfold len in H0. cbn in H0. lia. }
  unfold ValidateTargets.
  destruct (Initialize _ _ _) as [[m scan] ierr].
  match goal with
  | |- context [run_phases _ ?x] => destruct (run_phases _ x) as [w1 r]
  end.
  by destruct r.
Qed.

(** C4. For every run of [Execute] on validated targets and each of its
    six phases, once the run has reached the phase: if the phase's
    function returns an error, [Execute] returns the error that wraps
    the cause under the phase's name, and the run is concluded from the
    world the phase left (no later phase has run); if it returns nil
    and [ctx] is done at the check that follows, [Execute] returns
    [ctx.Err()] itself, which is never a wrapped error, and the run is
    concluded there; if it returns nil and [ctx] is live, the run goes
    on with the phases that follow, and returns nil if there is none. *)
Theorem C4_phase_transitions (reg : Registry) (host : Host) (s : Schedules)
    (elapsed : string) (w w1 : World) (pre post : list Phase) (name : string)
    (fn : World -> World * option error) :
  Targets (o_scan (orch w)) <> [] ->
  phases_of reg s = pre ++ (name, fn) :: post ->
  run_phases pre (prepared host w) = (w1, None) ->
  let run := Execute reg host s elapsed w in
  let after := fn (Spec.phase_started name w1) in
  let checked := Spec.phase_completed name after.1 in
  (forall cause, after.2 = Some cause ->
     run.2 = Some (ErrWrap ("phase " +:+ name +:+ " failed") cause)
     /\ run = concluded elapsed
                (after.1, Some (ErrWrap ("phase " +:+ name +:+ " failed") cause)))
  /\ (forall c, after.2 = None -> ctx checked = Some c ->
      run.2 = Some (ctx_error c)
      /\ run = concluded elapsed (checked, Some (ctx_error c)))
  /\ (after.2 = None -> ctx checked = None ->
      run = concluded elapsed (run_phases post checked)
      /\ (post = [] -> run.2 = None))
  /\ (forall c prefix cause, ctx_error c <> ErrWrap prefix cause).
Proof.
  intros Htargets Hsplit Hpre. cbv zeta.
  rewrite Execute_validated, Hsplit, run_phases_app, Hpre by done.
  cbn [run_phases].
  unfold Spec.phase_started, Spec.phase_completed.
  destruct (fn _) as [w2 r]. cbn [fst snd].
  split_and!.
  - by intros cause ->.
  - intros c -> Hc. by rewrite Hc.
  - intros -> Hc. rewrite Hc. split; [done|]. by intros ->.
  - intros [] prefix cause; discriminate.
Qed.

Lemma C4_phase_transitions_witness :
  (Execute Examples.scanners (mkHost 1000 false None)
     (mkSchedules [] [EvCancel Canceled] [] [] [] []) "12ms"
     (Examples.world0 false)).2
  = Some ErrCanceled.
Proof.
  refine (proj1
            (proj1 (proj2
                      (C4_phase_transitions Examples.scanners (mkHost 1000 false None)
                         (mkSchedules [] [EvCancel Canceled] [] [] [] []) "12ms"
                         (Examples.world0 false)
                         (run_phases [("Discovery", runDiscoveryPhase Examples.scanners [])]
                            (prepared (mkHost 1000 false None) (Examples.world0 false))).1
                         [("Discovery", runDiscoveryPhase Examples.scanners [])]
                         _ "Scanning" _ _ eq_refl _))
               Canceled _ _)).
  - done.
  - vm_compute. reflexivity.
  - vm_compute. reflexivity.
  - vm_compute. reflexivity.
Defined.

(** ** The goroutines of a phase *)

Lemma count_slots_app (l1 l2 : list GState) :
  count_slots (l1 ++ l2) = (count_slots l1 + count_slots l2)%nat.
Proof. unfold count_slots. by rewrite filter_app, length_app. Qed.

Lemma count_slots_cons (st : GState) (l : list GState) :
  count_slots (st :: l) = (slot st + count_slots l)%nat.
Proof.
  unfold count_slots, slot. rewrite filter_cons.
  by destruct (holds_slot st); case_decide.
Qed.

(** Replacing one goroutine's state moves the number of slots held by
    the difference between the two states. *)
Lemma count_slots_insert (l : list GState) (i : nat) (old new : GState) :
  l !! i = Some old ->
  (count_slots (<[i := new]> l) + slot old = count_slots l + slot new)%nat.
Proof.
  intros Hi. apply list_elem_of_split_length in Hi as (l1 & l2 & -> & ->).
  rewrite insert_middle, !count_slots_app, !count_slots_cons. lia.
Qed.

Lemma count_slots_replicate_waiting (n : nat) :
  count_slots (replicate n GWaiting) = 0%nat.
Proof. induction n as [|n IH]; [done|]. cbn [replicate]. by rewrite count_slots_cons, IH. Qed.

Ltac group_simpl :=
  cbn [g_sem g_routines g_gctx g_world g_err ctx orch].

Lemma spawn_inv (activeModules : list Module) (w : World) :
  group_inv activeModules (spawn activeModules w).
Proof.
  unfold group_inv, spawn, holders. group_simpl.
  rewrite count_slots_replicate_waiting, length_replicate.
  unfold semCapacity. repeat split; try lia. intros e [=].
Qed.

Lemma step_inv (activeModules : list Module) (ev : Event) (g : Group) :
  group_inv activeModules g -> group_inv activeModules (step activeModules ev g).
Proof.
  intros (Hsem & Hcap & Hlen & Hctx & Herr).
  unfold group_inv, holders in *.
  destruct ev as [i|i|i|i|i|i|c]; cbn [step].
  - destruct (g_routines g !! i) as [[]|] eqn:Hi; try done.
    case_decide as Hfree; [|done]. group_simpl.
    pose proof (count_slots_insert _ _ _ GRunning Hi) as Hc. cbn [slot holds_slot] in Hc.
    rewrite length_insert. unfold semCapacity in *. repeat split; try lia; done.
  - destruct (g_routines g !! i) as [[]|] eqn:Hi; try done.
    destruct (g_gctx g) as [c|] eqn:Hg; [|repeat split; congruence || lia || done].
    pose proof (count_slots_insert _ _ _ (GDone (Some (ctx_error c))) Hi) as Hc.
    cbn [slot holds_slot] in Hc. unfold group_done, set_routine.
    destruct (g_err g) eqn:He; group_simpl; rewrite length_insert, ?Hg;
      repeat split; try lia; try done.
    intros e [= <-]. by rewrite <- Hctx.
  - destruct (g_routines g !! i) as [[]|] eqn:Hi; try done.
    destruct (activeModules !! i) as [module|]; [|done].
    destruct (call_module _ _ _) as [o err]. group_simpl.
    pose proof (count_slots_insert _ _ _
                  (match err with Some _ => GReturn | None => GAppend end) Hi) as Hc.
    rewrite length_insert. destruct err; cbn [slot holds_slot] in Hc; repeat split; try lia; done.
  - destruct (g_routines g !! i) as [[]|] eqn:Hi; try done.
    destruct (activeModules !! i) as [module|]; [|done].
    unfold set_routine. group_simpl.
    pose proof (count_slots_insert _ _ _
                  (GStore (appended module (orch (g_world g)))) Hi) as Hc.
    cbn [slot holds_slot] in Hc. rewrite length_insert. repeat split; try lia; done.
  - destruct (g_routines g !! i) as [[]|] eqn:Hi; try done. group_simpl.
    pose proof (count_slots_insert _ _ _ GReturn Hi) as Hc.
    cbn [slot holds_slot] in Hc. rewrite length_insert. repeat split; try lia; done.
  - destruct (g_routines g !! i) as [[]|] eqn:Hi; try done.
    destruct (activeModules !! i) as [module|]; [|done].
    unfold group_done, set_routine. group_simpl.
    pose proof (count_slots_insert _ _ _ (GDone None) Hi) as Hc.
    cbn [slot holds_slot] in Hc. rewrite length_insert. repeat split; try lia; done.
  - destruct (ctx (g_world g)) eqn:Hw.
    + rewrite Hw. repeat split; congruence || lia || done.
    + group_simpl. rewrite Hctx. repeat split; try lia; try done.
      intros e He. apply Herr in He. discriminate.
Qed.

Lemma run_schedule_inv (activeModules : list Module) (sched : list Event) (g : Group) :
  group_inv activeModules g ->
  group_inv activeModules (run_schedule activeModules sched g).
Proof.
  revert g. induction sched as [|ev sched IH]; intros g Hg; [done|].
  cbn [run_schedule foldl]. apply IH. by apply step_inv.
Qed.

Lemma run_schedule_app (activeModules : list Module) (s1 s2 : list Event) (g : Group) :
  run_schedule activeModules (s1 ++ s2) g
  = run_schedule activeModules s2 (run_schedule activeModules s1 g).
Proof. unfold run_schedule. apply foldl_app. Qed.

(** An event of one goroutine leaves the others where they stand. *)
Lemma step_other (activeModules : list Module) (ev : Event) (g : Group) (j : nat) :
  ev_index ev <> Some j ->
  g_routines (step activeModules ev g) !! j = g_routines g !! j.
Proof.
  intros Hj.
  assert (forall i st g0, ev_index ev = Some i ->
            g_routines g0 = g_routines g ->
            <[i := st]> (g_routines g0) !! j = g_routines g !! j) as Hins.
  { intros i st g0 Hi ->. apply list_lookup_insert_ne. congruence. }
  destruct ev as [i|i|i|i|i|i|c]; cbn [step]; unfold group_done, set_routine;
    repeat match goal with
           | |- context [match ?x with _ => _ end] => destruct x eqn:?
           end;
    group_simpl;
    try reflexivity; try (eapply (Hins _ _ g); done).
Qed.

(** A goroutine that has returned stays so. *)
Lemma step_done (activeModules : list Module) (ev : Event) (g : Group) (j : nat)
    (r : option error) :
  g_routines g !! j = Some (GDone r) ->
  g_routines (step activeModules ev g) !! j = Some (GDone r).
Proof.
  intros Hj.
  destruct (decide (ev_index ev = Some j)) as [Hev|Hev];
    [|by rewrite step_other].
  destruct ev as [i|i|i|i|i|i|c]; cbn in Hev; simplify_eq;
    cbn [step]; by rewrite Hj.
Qed.

(** Where [finish i] leaves goroutine [i]: returned, unless it waits and
    all slots are taken. *)
Lemma finish_at (activeModules : list Module) (g : Group) (i : nat) (st : GState) :
  length (g_routines g) = length activeModules ->
  g_routines g !! i = Some st ->
  g_routines (run_schedule activeModules (finish i) g) !! i
  = Some match st with
         | GWaiting =>
             if decide (g_sem g < semCapacity)%nat then GDone None else GWaiting
         | GDone r => GDone r
         | _ => GDone None
         end.
Proof.
  intros Hlen Hi.
  assert (Hlt : (i < length (g_routines g))%nat) by (by apply lookup_lt_Some in Hi).
  destruct (lookup_lt_is_Some_2 activeModules i ltac:(lia)) as [module Hm].
  unfold finish, run_schedule. cbn [foldl].
  destruct st; cbn [step]; rewrite ?Hi, ?Hm; try case_decide;
    repeat first
      [ progress (cbn [step g_routines g_world g_sem g_gctx g_err])
      | progress (unfold group_done, set_routine)
      | rewrite Hi
      | rewrite Hm
      | rewrite list_lookup_insert_eq by (rewrite ?length_insert; exact Hlt)
      | match goal with
        | |- context [call_module ?a ?b ?c] => destruct (call_module a b c) as [? []]
        | |- context [match g_err ?g with _ => _ end] => destruct (g_err g)
        end ];
    try reflexivity.
Qed.

Lemma finish_other (activeModules : list Module) (g : Group) (i j : nat) :
  j <> i ->
  g_routines (run_schedule activeModules (finish i) g) !! j = g_routines g !! j.
Proof.
  intros Hj. unfold finish, run_schedule. cbn [foldl].
  rewrite !step_other by (cbn; congruence). reflexivity.
Qed.

Lemma settled_no_slots (l : list GState) :
  (forall j st, l !! j = Some st -> settled st = true) -> count_slots l = 0%nat.
Proof.
  induction l as [|st l IH]; intros Hall; [done|].
  rewrite count_slots_cons, IH.
  - pose proof (Hall 0%nat st eq_refl) as Hst. unfold settled, slot in *.
    by destruct (holds_slot st).
  - intros j st' Hj. by apply (Hall (S j)).
Qed.

Section Completion.

Variable activeModules : list Module.

Let run := run_schedule activeModules.

Lemma finish_settles (g : Group) (i j : nat) :
  group_inv activeModules g ->
  (i < length activeModules)%nat ->
  j = i \/ settled_at g j ->
  settled_at (run (finish i) g) j.
Proof.
  intros Hinv Hi Hj. pose proof Hinv as (_ & _ & Hlen & _).
  destruct (decide (j = i)) as [->|Hne].
  - destruct (lookup_lt_is_Some_2 (g_routines g) i ltac:(lia)) as [st Hst].
    eexists. split; [by apply finish_at|].
    destruct st; try case_decide; reflexivity.
  - destruct Hj as [?|(st & Hst & Hs)]; [done|].
    exists st. split; [|done]. unfold run. by rewrite finish_other.
Qed.

Lemma pass_settles (idxs : list nat) (g : Group) :
  group_inv activeModules g ->
  (forall i, i ∈ idxs -> (i < length activeModules)%nat) ->
  forall j, j ∈ idxs \/ settled_at g j ->
            settled_at (run (concat (finish <$> idxs)) g) j.
Proof.
  revert g. induction idxs as [|i idxs IH]; intros g Hinv His j Hj.
  - destruct Hj as [Hj|Hj]; [by apply elem_of_nil in Hj | done].
  - cbn [fmap list_fmap concat]. unfold run. rewrite run_schedule_app.
    apply IH.
    + by apply run_schedule_inv.
    + intros i' Hi'. apply His. by right.
    + destruct (decide (j = i)) as [->|Hne].
      * right. apply finish_settles; [done| |by left]. apply His. by left.
      * destruct Hj as [Hj|Hj].
        -- apply elem_of_cons in Hj as [?|?]; [done|by left].
        -- right. apply finish_settles; [done| |by right]. apply His. by left.
Qed.

Lemma finish_returns (g : Group) (i j : nat) :
  group_inv activeModules g ->
  (forall k st, g_routines g !! k = Some st -> settled st = true) ->
  (i < length activeModules)%nat ->
  (forall k st, g_routines (run (finish i) g) !! k = Some st -> settled st = true)
  /\ (j = i \/ done_at g j -> done_at (run (finish i) g) j).
Proof.
  intros Hinv Hall Hi. pose proof Hinv as (Hsem & _ & Hlen & _).
  destruct (lookup_lt_is_Some_2 (g_routines g) i ltac:(lia)) as [st Hst].
  pose proof (finish_at activeModules g i st Hlen Hst) as Hat.
  assert (Hfree : (g_sem g < semCapacity)%nat).
  { rewrite Hsem. unfold holders. rewrite settled_no_slots by done.
    unfold semCapacity. lia. }
  rewrite decide_True in Hat by done.
  assert (Hdone : exists r, g_routines (run (finish i) g) !! i = Some (GDone r)).
  { pose proof (Hall _ _ Hst) as Hs. destruct st; try discriminate; eauto. }
  split.
  - intros k st' Hk. destruct (decide (k = i)) as [->|Hne].
    + destruct Hdone as [r Hr]. unfold run in *. rewrite Hr in Hk. by simplify_eq.
    + unfold run in Hk. rewrite finish_other in Hk by done. by eapply Hall.
  - intros [->|[r Hr]]; [done|].
    destruct (decide (j = i)) as [->|Hne]; [done|].
    exists r. unfold run. by rewrite finish_other.
Qed.

Lemma pass_returns (idxs : list nat) (g : Group) :
  group_inv activeModules g ->
  (forall k st, g_routines g !! k = Some st -> settled st = true) ->
  (forall i, i ∈ idxs -> (i < length activeModules)%nat) ->
  forall j, j ∈ idxs \/ done_at g j -> done_at (run (concat (finish <$> idxs)) g) j.
Proof.
  revert g. induction idxs as [|i idxs IH]; intros g Hinv Hall His j Hj.
  - destruct Hj as [Hj|Hj]; [by apply elem_of_nil in Hj | done].
  - cbn [fmap list_fmap concat]. unfold run. rewrite run_schedule_app.
    assert (Hi : (i < length activeModules)%nat) by (apply His; by left).
    destruct (finish_returns g i j Hinv Hall Hi) as [Hall' Hdone].
    apply IH.
    + by apply run_schedule_inv.
    + exact Hall'.
    + intros i' Hi'. apply His. by right.
    + destruct Hj as [Hj|Hj].
      * apply elem_of_cons in Hj as [->|?]; [right; apply Hdone; by left | by left].
      * right. apply Hdone. by right.
Qed.

(** After [completion], every goroutine has returned: [g.Wait()]
    returns, whatever interleaving came before. *)
Lemma completion_returns (g : Group) (j : nat) (st : GState) :
  group_inv activeModules g ->
  g_routines (run (completion (length activeModules)) g) !! j = Some st ->
  is_done st = true.
Proof.
  intros Hinv Hj. unfold completion, run in *. rewrite run_schedule_app in Hj.
  set (n := length activeModules) in *.
  set (g1 := run_schedule activeModules (concat (finish <$> seq 0 n)) g) in *.
  assert (Hinv1 : group_inv activeModules g1) by (by apply run_schedule_inv).
  assert (Hlen1 : length (g_routines g1) = n) by apply Hinv1.
  assert (Hrange : forall i, i ∈ seq 0 n -> (i < n)%nat).
  { intros i Hi. apply elem_of_seq in Hi. lia. }
  assert (Hall1 : forall k st, g_routines g1 !! k = Some st -> settled st = true).
  { intros k st' Hk.
    destruct (pass_settles (seq 0 n) g Hinv Hrange k) as (st'' & Hk' & Hs).
    - left. apply elem_of_seq. apply lookup_lt_Some in Hk. lia.
    - fold g1 in Hk'. unfold run in Hk'. fold g1 in Hk'. by simplify_eq. }
  destruct (pass_returns (seq 0 n) g1 Hinv1 Hall1 Hrange j) as [r Hr].
  - left. apply elem_of_seq. apply lookup_lt_Some in Hj.
    pose proof (run_schedule_inv activeModules (concat (finish <$> seq 0 n)) g1 Hinv1)
      as (_ & _ & Hlen2 & _).
    fold n in Hlen2. lia.
  - unfold run in Hr. rewrite Hr in Hj. by simplify_eq.
Qed.

End Completion.

(** ** Resolution of a phase's module names *)

Lemma GetModulesByCategory_filter (reg : Registry) (category : string) :
  GetModulesByCategory reg category
  = filter (fun module => Category module = category) ((map_to_list reg).*2).
Proof.
  unfold GetModulesByCategory.
  enough (forall l acc,
            foldl (fun filtered (kv : string * Module) =>
                     if decide (Category kv.2 = category) then filtered ++ [kv.2]
                     else filtered) acc l
            = acc ++ filter (fun module => Category module = category) (l.*2)) as H
    by (by rewrite H).
  induction l as [|[k m] l IH]; intros acc; cbn [foldl fmap list_fmap].
  - by rewrite app_nil_r.
  - rewrite IH, filter_cons. cbn [snd].
    case_decide; [by rewrite <- app_assoc | done].
Qed.

Lemma elem_of_GetModulesByCategory (reg : Registry) (category : string) (module : Module) :
  module ∈ GetModulesByCategory reg category
  <-> Spec.registered reg module /\ Category module = category.
Proof.
  rewrite GetModulesByCategory_filter, list_elem_of_filter, list_elem_of_fmap.
  unfold Spec.registered. split.
  - intros (Hc & [k m] & -> & Hkm). apply elem_of_map_to_list in Hkm. eauto.
  - intros ([k Hk] & Hc). split; [done|]. exists (k, module).
    split; [done|]. by apply elem_of_map_to_list.
Qed.

Lemma moduleMap_of_snoc (l : list Module) (module : Module) :
  moduleMap_of (l ++ [module]) = <[Name module := module]> (moduleMap_of l).
Proof. unfold moduleMap_of. by rewrite foldl_app. Qed.

Lemma moduleMap_of_Some (l : list Module) (name : string) (module : Module) :
  moduleMap_of l !! name = Some module -> module ∈ l /\ Name module = name.
Proof.
  induction l as [|m l IH] using rev_ind.
  - unfold moduleMap_of. cbn. by rewrite lookup_empty.
  - rewrite moduleMap_of_snoc, lookup_insert. case_decide as Hn.
    + intros [= ->]. split; [|done]. apply elem_of_app. right. by left.
    + intros H. destruct (IH H) as [Hin Hname]. split; [|done].
      apply elem_of_app. by left.
Qed.

Lemma moduleMap_of_is_Some (l : list Module) (module : Module) :
  module ∈ l -> is_Some (moduleMap_of l !! Name module).
Proof.
  induction l as [|m l IH] using rev_ind; [by intros ?%elem_of_nil|].
  rewrite moduleMap_of_snoc, lookup_insert. intros Hin.
  case_decide; [eauto|].
  apply elem_of_app in Hin as [Hin|Hin]; [by apply IH|].
  apply list_elem_of_singleton in Hin. congruence.
Qed.

(** The map a phase resolves its names against holds exactly the
    registered modules of the phase's category, under their names. *)
Lemma moduleMap_lookup (reg : Registry) (category name : string) (module : Module) :
  Spec.well_keyed reg ->
  moduleMap_of (GetModulesByCategory reg category) !! name = Some module
  <-> reg !! name = Some module /\ Category module = category.
Proof.
  intros Hwk. split.
  - intros H. apply moduleMap_of_Some in H as [Hin Hname].
    apply elem_of_GetModulesByCategory in Hin as [[k Hk] Hc].
    pose proof (Hwk _ _ Hk). split; [congruence|done].
  - intros [Hreg Hc].
    assert (Hin : module ∈ GetModulesByCategory reg category).
    { apply elem_of_GetModulesByCategory. split; [by exists name|done]. }
    pose proof (Hwk _ _ Hreg) as Hname.
    destruct (moduleMap_of_is_Some _ _ Hin) as [m' Hm']. rewrite Hname in Hm'.
    pose proof Hm' as Hm''. apply moduleMap_of_Some in Hm'' as [Hin' Hname'].
    apply elem_of_GetModulesByCategory in Hin' as [[k Hk] _].
    pose proof (Hwk _ _ Hk). congruence.
Qed.

Lemma moduleMap_lookup_eq (reg : Registry) (category name : string) :
  Spec.well_keyed reg ->
  moduleMap_of (GetModulesByCategory reg category) !! name
  = match reg !! name with
    | Some module => if decide (Category module = category) then Some module else None
    | None => None
    end.
Proof.
  intros Hwk.
  destruct (moduleMap_of _ !! name) as [m|] eqn:Hm.
  - apply moduleMap_lookup in Hm as [-> Hc]; [|done]. by rewrite decide_True.
  - destruct (reg !! name) as [m|] eqn:Hr; [|done].
    case_decide as Hc; [|done].
    assert (moduleMap_of (GetModulesByCategory reg category) !! name = Some m)
      by (by apply moduleMap_lookup).
    congruence.
Qed.

Lemma logged_nil (o : Orchestrator) : Spec.logged [] o = o.
Proof. unfold Spec.logged. rewrite app_nil_r. by destruct o as [? [] ? ? ?]. Qed.

Lemma logged_app (l1 l2 : list LogEntry) (o : Orchestrator) :
  Spec.logged (l1 ++ l2) o = Spec.logged l2 (Spec.logged l1 o).
Proof. unfold Spec.logged. proj_simpl. by rewrite app_assoc. Qed.

Lemma select_active_spec (reg : Registry) (category : string)
    (moduleNames : list string) (o : Orchestrator) :
  Spec.well_keyed reg ->
  select_active (moduleMap_of (GetModulesByCategory reg category)) moduleNames o
  = (Spec.resolve reg category moduleNames,
     Spec.logged (Spec.prereq_warnings reg category moduleNames) o).
Proof.
  intros Hwk. unfold select_active.
  set (body := fun '(activeModules, o) name => _).
  enough (forall names o acc,
            foldl body (acc, o) names
            = (acc ++ Spec.resolve reg category names,
               Spec.logged (Spec.prereq_warnings reg category names) o)) as H
    by apply (H moduleNames o []).
  induction names as [|name names IH]; intros o' acc.
  - cbn. by rewrite app_nil_r, logged_nil.
  - cbn [foldl]. unfold body at 2. rewrite moduleMap_lookup_eq by done.
    unfold Spec.resolve, Spec.prereq_warnings in *. cbn [omap list_omap].
    destruct (reg !! name) as [m|]; [|apply IH].
    case_decide; [|apply IH].
    destruct (Prerequisites m) as [err|].
    + rewrite IH. f_equal. symmetry. apply (logged_app [_]).
    + rewrite IH. by rewrite <- app_assoc.
Qed.

(** The only error a phase's module execution returns is the error of
    a done [ctx]. *)
Lemma executeModules_error (reg : Registry) (sched : list Event)
    (moduleNames : list string) (category : string) (w : World) (e : error) :
  (executeModules reg sched moduleNames category w).2 = Some e ->
  Err (ctx (executeModules reg sched moduleNames category w).1) = Some e.
Proof.
  unfold executeModules.
  destruct (select_active _ _ _) as [activeModules o].
  case_decide; [done|]. cbn [fst snd].
  apply (run_schedule_inv activeModules), spawn_inv.
Qed.



(** C8. With the bleeding-edge flag off the phase logs that it skips
    and returns nil: no registry lookup, no goroutine, the results
    untouched, whatever is registered or scheduled; with the flag on
    it is the execution of the whole bleeding-edge list. *)
Theorem C8_bleeding_edge_phase (reg : Registry) (sched : list Event) (w : World) :
  (cfg_BleedingEdge (o_config (orch w)) = false ->
   runBleedingEdgePhase reg sched w
   = (mkWorld
        (Spec.logged
           [mkLogEntry LvlInfo [] "Skipping bleeding-edge modules (not enabled)"]
           (orch w))
        (ctx w),
      None)
   /\ Results (o_scan (orch (runBleedingEdgePhase reg sched w).1))
      = Results (o_scan (orch w)))
  /\ (cfg_BleedingEdge (o_config (orch w)) = true ->
      runBleedingEdgePhase reg sched w
      = executeModules reg sched
          ["llm-fuzzer"; "auto-patch"; "shadow-clone"; "dep-drift"; "timing-map";
           "blue-team"]
          "bleeding-edge" w).
Proof.
  unfold runBleedingEdgePhase. split; intros ->; cbn [negb]; [split|]; reflexivity.
Qed.

Lemma C8_bleeding_edge_phase_witness :
  runBleedingEdgePhase
    (<["llm-fuzzer" := Examples.ok_module "llm-fuzzer" "bleeding-edge"]> ∅)
    [EvAdmit 0; EvRun 0] (Examples.world0 false)
  = (mkWorld
       (Spec.logged
          [mkLogEntry LvlInfo [] "Skipping bleeding-edge modules (not enabled)"]
          (orch (Examples.world0 false)))
       None,
     None).
Proof.
  apply (proj1 (C8_bleeding_edge_phase _ _ (Examples.world0 false))). reflexivity.
Defined.

Lemma run_schedule_done (activeModules : list Module) (sched : list Event) (g : Group)
    (j : nat) (r : option error) :
  g_routines g !! j = Some (GDone r) ->
  g_routines (run_schedule activeModules sched g) !! j = Some (GDone r).
Proof.
  revert g. induction sched as [|ev sched IH]; intros g Hj; [done|].
  cbn [run_schedule foldl]. apply IH. by apply step_done.
Qed.

(** C5. At every point of every interleaving of a phase's goroutines,
    whatever the configuration, the goroutines between admission and
    return are as many as there are elements in [sem], and at most 3.
    A waiting goroutine moves only by being admitted, which happens
    exactly when fewer than 3 slots are held, or by observing the done
    context, in which case it returns the context's error, the shared
    state is as it was, and the goroutine never runs its module. *)
Theorem C5_bounded_admission (activeModules : list Module) (w : World)
    (sched : list Event) :
  let g := run_schedule activeModules sched (spawn activeModules w) in
  (holders g <= 3)%nat
  /\ g_sem g = holders g
  /\ g_gctx g = ctx (g_world g)
  /\ forall i, g_routines g !! i = Some GWaiting ->
       g_routines (step activeModules (EvAdmit i) g) !! i
       = Some (if decide (holders g < 3)%nat then GRunning else GWaiting)
       /\ (forall c, ctx (g_world g) = Some c ->
           let g' := step activeModules (EvAbandon i) g in
           g_routines g' !! i = Some (GDone (Some (ctx_error c)))
           /\ g_world g' = g_world g
           /\ forall sched',
                g_routines (run_schedule activeModules sched' g') !! i
                = Some (GDone (Some (ctx_error c))))
       /\ (ctx (g_world g) = None -> step activeModules (EvAbandon i) g = g)
       /\ (forall ev, ev <> EvAdmit i -> ev <> EvAbandon i ->
           g_routines (step activeModules ev g) !! i = Some GWaiting).
Proof.
  cbv zeta.
  pose proof (run_schedule_inv activeModules sched _ (spawn_inv activeModules w))
    as (Hsem & Hcap & Hlen & Hctx & Herr).
  set (g := run_schedule activeModules sched (spawn activeModules w)) in *.
  split; [exact Hcap|]. split; [exact Hsem|]. split; [exact Hctx|].
  intros i Hi.
  assert (Hlt : (i < length (g_routines g))%nat) by (by apply lookup_lt_Some in Hi).
  split; [|split; [|split]].
  - cbn [step]. rewrite Hi, Hsem. unfold semCapacity.
    case_decide; [|done]. group_simpl. by rewrite list_lookup_insert_eq.
  - intros c Hc.
    assert (Hab : g_routines (step activeModules (EvAbandon i) g) !! i
                  = Some (GDone (Some (ctx_error c)))
                  /\ g_world (step activeModules (EvAbandon i) g) = g_world g).
    { cbn [step]. rewrite Hi, Hctx, Hc. unfold group_done, set_routine.
      destruct (g_err g); group_simpl; by rewrite list_lookup_insert_eq. }
    destruct Hab as [Hab1 Hab2]. split; [done|]. split; [done|].
    intros sched'. by apply run_schedule_done.
  - intros Hc. cbn [step]. by rewrite Hi, Hctx, Hc.
  - intros ev Hev1 Hev2.
    destruct (decide (ev_index ev = Some i)) as [Hev|Hev];
      [|by rewrite step_other].
    destruct ev as [k|k|k|k|k|k|c]; cbn in Hev; simplify_eq;
      cbn [step]; by rewrite Hi.
Qed.

Lemma C5_bounded_admission_witness :
  g_routines
    (step Examples.four_modules (EvAdmit 3)
       (run_schedule Examples.four_modules [EvAdmit 0; EvAdmit 1; EvAdmit 2]
          (spawn Examples.four_modules (Examples.world0 true)))) !! 3%nat
  = Some GWaiting.
Proof.
  refine (eq_trans
            (proj1 (proj2 (proj2 (proj2
               (C5_bounded_admission Examples.four_modules (Examples.world0 true)
                  [EvAdmit 0; EvAdmit 1; EvAdmit 2]))) 3%nat _)) _).
  - vm_compute. reflexivity.
  - vm_compute. reflexivity.
Defined.

(** ** One module's execution *)

(** [executeModule] never returns an error. *)
Lemma executeModule_nil (gctx : Ctx) (module : Module) (o : Orchestrator) :
  (executeModule gctx module o).2 = None.
Proof. unfold executeModule. by destruct (call_module _ _ _) as [? []]. Qed.


(** A failing module: the error is logged, and the audit trail is the
    one the module's [Run] left. *)
Lemma executeModule_failure (gctx : Ctx) (module : Module) (o : Orchestrator)
    (e : error) :
  (call_module gctx module o).2 = Some e ->
  let o' := (executeModule gctx module o).1 in
  ModulesExecuted (summary_of o')
  = ModulesExecuted (summary_of (call_module gctx module o).1)
  /\ mkLogEntry LvlError (module_fields module)
       ("Module execution failed: " +:+ Error e) ∈ Logger (o_scan o').
Proof.
  unfold executeModule, call_module. proj_simpl.
  destruct (if IsActive _ then _ else _) as [scan [e'|]]; [|done].
  intros [= ->]. unfold module_completed. proj_simpl. split; [done|].
  cbn [fst]. proj_simpl. rewrite !elem_of_app, !list_elem_of_singleton. auto.
Qed.

(** A succeeding module: its name is put behind the audit trail its
    [Run] left. *)
Lemma executeModule_success (gctx : Ctx) (module : Module) (o : Orchestrator) :
  (call_module gctx module o).2 = None ->
  ModulesExecuted (summary_of (executeModule gctx module o).1)
  = ModulesExecuted (summary_of (call_module gctx module o).1) ++ [Name module].
Proof.
  unfold executeModule.
  destruct (call_module _ _ _) as [o1 [e|]]; [done|]. intros _.
  unfold module_completed, store_executed, appended. by proj_simpl.
Qed.


(** *** Goroutines that do not overlap *)






(** C3 (what the code does). Two scanning modules, [nmap] and [httpx],
    are registered and both succeed.  When their goroutines both read
    [ModulesExecuted] before either assigns it, the phase returns nil
    and the audit trail holds [httpx] alone: the name of [nmap], whose
    run succeeded, is lost.  Left to run one after the other, the same
    goroutines record both names. *)
Theorem C3_audit_trail_loses_a_name :
  let racy :=
    runScanningPhase Examples.scanners Examples.overlapping_appends
      (Examples.world0 false) in
  let serial := runScanningPhase Examples.scanners [] (Examples.world0 false) in
  (forall gctx scan, (Run (Examples.ok_module "nmap" "stable") gctx scan).2 = None)
  /\ racy.2 = None
  /\ ModulesExecuted (summary_of (orch racy.1)) = ["httpx"]
  /\ ("nmap" ∉ ModulesExecuted (summary_of (orch racy.1)))
  /\ ModulesExecuted (summary_of (orch serial.1)) = ["nmap"; "httpx"].
Proof.
  cbv zeta. split; [done|]. split; [by vm_compute|].
  assert (H : ModulesExecuted
                (summary_of
                   (orch (runScanningPhase Examples.scanners
                            Examples.overlapping_appends (Examples.world0 false)).1))
              = ["httpx"]) by (by vm_compute).
  split; [exact H|]. split.
  - rewrite H. intros Hin. apply list_elem_of_singleton in Hin. discriminate.
  - by vm_compute.
Qed.

(** ** Worked values *)

(** severity=high, not exploitable, drift 0.5, LLM confidence 0.9: the
    binary64 product is 8.0850000000000009, and the score is 8.09. *)
Remark risk_score_high_drift_llm :
  CalculateRiskScore NewEngine
    (mkVulnerability "V-3" "finding" "" "high" 0 "" "10.0.0.1" 443 "https" ""
       "" "" [] 0 false (<["llm_confidence" := VFloat64 0.9]> ∅))
    (mkScan "scan-1" ["example.com"] (Examples.config0 false)
       (mkScanResults [] [] [] ∅ zeroSummary)
       (<["supply_chain_drift" := VFloat64 0.5]> ∅) [])
  = 8.09%float.
Proof. by vm_compute. Qed.

(** The scoring loop adds to the high-risk counter it finds: a second
    run of the whole scoring phase counts the same vulnerability again,
    whereas a second run of the summary pass changes nothing. *)
Remark scoring_phase_accumulates :
  let once := (runScoringPhase Examples.drifting_world).1 in
  let twice := (runScoringPhase once).1 in
  HighRiskVulns (summary_of (orch once)) = 1
  /\ HighRiskVulns (summary_of (orch twice)) = 2.
Proof. by vm_compute. Qed.

(** Without a cancellation, a phase's module execution returns nil. *)
Lemma executeModules_live (reg : Registry) (sched : list Event)
    (moduleNames : list string) (category : string) (w : World) :
  ctx (executeModules reg sched moduleNames category w).1 = None ->
  (executeModules reg sched moduleNames category w).2 = None.
Proof.
  intros Hctx.
  destruct (executeModules reg sched moduleNames category w).2 as [e|] eqn:He; [|done].
  apply executeModules_error in He. rewrite Hctx in He. discriminate.
Qed.

(* ================================================================== *)
(** * Further properties of the code *)

(** ** Registration of several modules *)

Lemma Register_ok (module : Module) (reg : Registry) :
  Name module <> "" -> reg !! Name module = None ->
  Register module reg = Returned (<[Name module := module]> reg).
Proof. intros Hn Hr. unfold Register. by rewrite decide_False, Hr. Qed.

Lemma Register_fatal (module : Module) (reg : Registry) :
  Name module = "" \/ is_Some (reg !! Name module) ->
  exists msg, Register module reg = Fatal msg.
Proof.
  unfold Register. intros [H|[m H]].
  - rewrite decide_True by done. eauto.
  - case_decide; [eauto|]. rewrite H. eauto.
Qed.

Lemma filed_cons (module : Module) (l : list Module) (reg : Registry) :
  Name module ∉ Name <$> l ->
  filed l (<[Name module := module]> reg) = filed (module :: l) reg.
Proof.
  intros Hfresh. unfold filed. cbn [fmap list_fmap list_to_map foldr].
  cbn [uncurry]. rewrite <- insert_union_l. symmetry. apply insert_union_r.
  apply not_elem_of_list_to_map_1. rewrite <- list_fmap_compose.
  exact Hfresh.
Qed.

Lemma filed_well_keyed (l : list Module) (reg : Registry) :
  Spec.well_keyed reg -> Spec.well_keyed (filed l reg).
Proof.
  intros Hwk key module. unfold filed. rewrite lookup_union_Some_raw.
  intros [H|[_ H]]; [|by apply Hwk].
  apply elem_of_list_to_map_2, list_elem_of_fmap in H as (m & [= -> ->] & _).
  done.
Qed.

Lemma register_all_filed (l : list Module) (reg : Registry) :
  registrable l reg -> register_all l reg = Returned (filed l reg).
Proof.
  revert reg. induction l as [|module l IH]; intros reg [Hnd Hall].
  - unfold filed. cbn. by rewrite (left_id_L ∅ (∪)).
  - cbn [register_all]. cbn [fmap list_fmap] in Hnd.
    apply NoDup_cons in Hnd as [Hfresh Hnd].
    destruct (Hall module ltac:(left)) as [Hne Hnone].
    rewrite Register_ok by done. rewrite IH; [by rewrite filed_cons|].
    split; [done|]. intros m Hm. destruct (Hall m ltac:(by right)) as [? ?].
    split; [done|]. rewrite lookup_insert_ne; [done|].
    intros Heq. apply Hfresh. rewrite Heq. apply list_elem_of_fmap. eauto.
Qed.

Lemma register_all_returned (l : list Module) (reg reg' : Registry) :
  register_all l reg = Returned reg' -> registrable l reg.
Proof.
  revert reg. induction l as [|module l IH]; intros reg H.
  - split; [constructor|]. by intros m ?%elem_of_nil.
  - cbn [register_all] in H.
    destruct (Register module reg) as [reg1|msg] eqn:Hreg; [|done].
    assert (Hne : Name module <> "").
    { intros Hn. destruct (Register_fatal module reg) as [? ?]; [by left|congruence]. }
    assert (Hnone : reg !! Name module = None).
    { destruct (reg !! Name module) eqn:Hr; [|done].
      destruct (Register_fatal module reg) as [? ?]; [right; eauto|congruence]. }
    rewrite Register_ok in Hreg by done. simplify_eq.
    destruct (IH _ H) as [Hnd Hall].
    assert (Hfresh : Name module ∉ Name <$> l).
    { intros (m & Hm & Hin)%list_elem_of_fmap.
      destruct (Hall m Hin) as [_ Hl]. rewrite <- Hm, lookup_insert_eq in Hl. done. }
    split; [cbn; by apply NoDup_cons|].
    intros m [->|Hm]%elem_of_cons; [done|].
    destruct (Hall m Hm) as [? Hl]. split; [done|].
    rewrite lookup_insert_ne in Hl; [done|].
    intros Heq. apply Hfresh. rewrite Heq. apply list_elem_of_fmap. eauto.
Qed.

(** X1. Modules registered one after the other all get in exactly when
    none has an empty name, no two share a name and no name is taken;
    any other list ends the process.  The registry that is then
    returned holds each module under its name, reads as before at the
    names outside the list, and is the one returned for every other
    order of registration. *)
Theorem X1_register_all (l : list Module) (reg : Registry) :
  ((exists reg', register_all l reg = Returned reg') <-> registrable l reg)
  /\ (forall reg',
        register_all l reg = Returned reg' ->
        (forall module, module ∈ l ->
           GetModule reg' (Name module) = (Some module, true))
        /\ (forall name, name ∉ Name <$> l ->
            GetModule reg' name = GetModule reg name)
        /\ (forall l', l' ≡ₚ l -> register_all l' reg = Returned reg')).
Proof.
  split.
  - split; [intros [reg' H]; by eapply register_all_returned|].
    intros H. eexists. by apply register_all_filed.
  - intros reg' Hret.
    pose proof (register_all_returned _ _ _ Hret) as Hreg.
    rewrite register_all_filed in Hret by done. injection Hret as <-.
    pose proof Hreg as [Hnd Hall]. split; [|split].
    + intros module Hm. unfold GetModule, filed.
      assert (H : (list_to_map ((fun m => (Name m, m)) <$> l) : gmap string Module)
                    !! Name module
                  = Some module).
      { apply elem_of_list_to_map_1.
        - by rewrite <- list_fmap_compose.
        - apply list_elem_of_fmap. eauto. }
      by rewrite (lookup_union_Some_l _ _ _ _ H).
    + intros name Hname. unfold GetModule, filed.
      rewrite lookup_union_r; [done|].
      apply not_elem_of_list_to_map_1. by rewrite <- list_fmap_compose.
    + intros l' Hperm.
      assert (Hreg' : registrable l' reg).
      { split; [by rewrite Hperm|]. intros m Hm. apply Hall. by rewrite <- Hperm. }
      rewrite register_all_filed by done. f_equal. unfold filed. f_equal.
      apply list_to_map_proper; [|by rewrite Hperm].
      rewrite <- list_fmap_compose. destruct Hreg' as [Hnd' _]. exact Hnd'.
Qed.

Lemma X1_register_all_witness :
  register_all
    [Examples.ok_module "nuclei" "stable"; Examples.ok_module "subfinder" "stable"]
    Examples.scanners
  = register_all
      [Examples.ok_module "subfinder" "stable"; Examples.ok_module "nuclei" "stable"]
      Examples.scanners.
Proof.
  assert (Hret :
    register_all
      [Examples.ok_module "subfinder" "stable"; Examples.ok_module "nuclei" "stable"]
      Examples.scanners
    = Returned
        (filed [Examples.ok_module "subfinder" "stable";
                Examples.ok_module "nuclei" "stable"] Examples.scanners)).
  { apply register_all_filed. split.
    - apply (bool_decide_unpack _). by vm_compute.
    - intros module Hm. repeat (apply elem_of_cons in Hm as [->|Hm]);
        [split; [done|by vm_compute]..|by apply elem_of_nil in Hm]. }
  rewrite Hret.
  refine (proj2 (proj2 (proj2 (X1_register_all
            [Examples.ok_module "subfinder" "stable";
             Examples.ok_module "nuclei" "stable"] Examples.scanners) _ Hret)) _ _).
  apply Permutation_swap.
Defined.

(** ** Reading the registry *)

Lemma names_sublist (category : string) (l : list (string * Module)) :
  (forall kv, kv ∈ l -> Name kv.2 = kv.1) ->
  Name <$> filter (fun module => Category module = category) (l.*2)
  `sublist_of` l.*1.
Proof.
  induction l as [|[k m] l IH]; intros Hl; [constructor|].
  cbn [fmap list_fmap snd fst]. rewrite filter_cons. cbn [snd].
  assert (IH' : Name <$> filter (fun module => Category module = category) (l.*2)
                `sublist_of` l.*1).
  { apply IH. intros kv Hkv. apply Hl. by right. }
  case_decide.
  - cbn [fmap list_fmap]. pose proof (Hl (k, m) ltac:(left)) as Hk.
    cbn [fst snd] in Hk. rewrite Hk. by constructor.
  - by constructor.
Qed.

Lemma GetModules_copy (reg : Registry) : GetModules reg = reg.
Proof.
  unfold GetModules.
  apply (map_fold_weak_ind (fun (r : gmap string Module) m => r = m)); [done|].
  by intros i x m r _ ->.
Qed.

(** X2. [GetModulesByCategory] returns exactly the registered modules
    of the category, none of them twice, and nothing when no module has
    that category; [GetModules] returns a map with exactly the
    registry's entries. *)
Theorem X2_registry_reads (reg : Registry) (category : string) :
  Spec.well_keyed reg ->
  (forall module,
     module ∈ GetModulesByCategory reg category
     <-> reg !! Name module = Some module /\ Category module = category)
  /\ NoDup (Name <$> GetModulesByCategory reg category)
  /\ ((forall name module, reg !! name = Some module -> Category module <> category) ->
      GetModulesByCategory reg category = [])
  /\ GetModules reg = reg.
Proof.
  intros Hwk. split; [|split; [|split]].
  - intros module. rewrite elem_of_GetModulesByCategory. unfold Spec.registered.
    split.
    + intros [[k Hk] Hc]. pose proof (Hwk _ _ Hk). split; [congruence|done].
    + intros [Hk Hc]. eauto.
  - rewrite GetModulesByCategory_filter.
    eapply sublist_NoDup; [apply (NoDup_fst_map_to_list reg)|].
    apply names_sublist. intros [k m] Hkm. apply elem_of_map_to_list in Hkm.
    by apply Hwk.
  - intros Hnone.
    destruct (GetModulesByCategory reg category) as [|m l] eqn:Hg; [done|].
    assert (Hin : m ∈ GetModulesByCategory reg category) by (rewrite Hg; left).
    apply elem_of_GetModulesByCategory in Hin as [[k Hk] Hc].
    by destruct (Hnone _ _ Hk).
  - apply GetModules_copy.
Qed.

Lemma X2_registry_reads_witness :
  GetModulesByCategory Examples.scanners "bleeding-edge" = [].
Proof.
  refine (proj1 (proj2 (proj2 (X2_registry_reads Examples.scanners "bleeding-edge" _))) _).
  - apply (well_keyed_insert (Examples.ok_module "nmap" "stable")).
    apply (well_keyed_insert (Examples.ok_module "httpx" "stable")).
    apply well_keyed_empty.
  - intros name module. unfold Examples.scanners.
    rewrite !lookup_insert, lookup_empty.
    repeat case_decide; intros [= <-]; discriminate.
Defined.

(** ** The shared scan state *)

Lemma appends_snoc (l : list Append) (a : Append) (s : Scan) :
  appends (l ++ [a]) s = append a (appends l s).
Proof. unfold appends. by rewrite foldl_app. Qed.

Lemma appends_spec (l : list Append) (s : Scan) :
  Hosts (Results (appends l s)) = Hosts (Results s) ++ hosts_of l
  /\ Vulnerabilities (Results (appends l s))
     = Vulnerabilities (Results s) ++ vulns_of l
  /\ Patches (Results (appends l s)) = Patches (Results s) ++ patches_of l
  /\ BleedingEdge (Results (appends l s)) = BleedingEdge (Results s)
  /\ Summary (Results (appends l s)) = Summary (Results s)
  /\ Context (appends l s) = Context s
  /\ Logger (appends l s) = Logger s
  /\ ID (appends l s) = ID s
  /\ Targets (appends l s) = Targets s
  /\ Config (appends l s) = Config s.
Proof.
  induction l as [|a l IH] using rev_ind.
  - unfold hosts_of, vulns_of, patches_of. cbn. by rewrite !app_nil_r.
  - destruct IH as (Hh & Hv & Hp & Hb & Hs & Hc & Hl & Hi & Ht & Hg).
    rewrite appends_snoc. unfold hosts_of, vulns_of, patches_of in *.
    rewrite !omap_app.
    destruct a; cbn [append omap list_omap];
      unfold AddHost, AddVulnerability, AddPatch, set_Results, set_Vulnerabilities;
      cbn [Results Hosts Vulnerabilities Patches BleedingEdge Summary Context Logger
           ID Targets Config];
      rewrite ?Hh, ?Hv, ?Hp, ?app_nil_r, <- ?app_assoc; done.
Qed.

(** X3. However the appends of hosts, vulnerabilities and patches are
    ordered among the goroutines that make them, each sequence keeps
    what it held, in place, and gains exactly the entries appended to
    it: none is lost, none is doubled, and two orders give the same
    entries up to their order.  Nothing else of the scan changes: not
    the summary, the bleeding-edge results, the context, the log, the
    id, the targets or the configuration. *)
Theorem X3_appends_keep_everything (l : list Append) (s : Scan) :
  Hosts (Results (appends l s)) = Hosts (Results s) ++ hosts_of l
  /\ Vulnerabilities (Results (appends l s))
     = Vulnerabilities (Results s) ++ vulns_of l
  /\ Patches (Results (appends l s)) = Patches (Results s) ++ patches_of l
  /\ len (Hosts (Results (appends l s)))
     + len (Vulnerabilities (Results (appends l s)))
     + len (Patches (Results (appends l s)))
     = len (Hosts (Results s)) + len (Vulnerabilities (Results s))
       + len (Patches (Results s)) + len l
  /\ (forall l', l' ≡ₚ l ->
      Hosts (Results (appends l' s)) ≡ₚ Hosts (Results (appends l s))
      /\ Vulnerabilities (Results (appends l' s))
         ≡ₚ Vulnerabilities (Results (appends l s))
      /\ Patches (Results (appends l' s)) ≡ₚ Patches (Results (appends l s)))
  /\ Summary (Results (appends l s)) = Summary (Results s)
  /\ BleedingEdge (Results (appends l s)) = BleedingEdge (Results s)
  /\ Context (appends l s) = Context s
  /\ Logger (appends l s) = Logger s
  /\ ID (appends l s) = ID s
  /\ Targets (appends l s) = Targets s
  /\ Config (appends l s) = Config s.
Proof.
  destruct (appends_spec l s) as (Hh & Hv & Hp & Hb & Hs & Hc & Hl & Hi & Ht & Hg).
  split; [done|]. split; [done|]. split; [done|]. split; [|split].
  - rewrite Hh, Hv, Hp, !len_app.
    assert (len (hosts_of l) + len (vulns_of l) + len (patches_of l) = len l);
      [|lia].
    unfold hosts_of, vulns_of, patches_of, len.
    clear. induction l as [|a l IH]; [done|]. destruct a; cbn in *; lia.
  - intros l' Hperm.
    destruct (appends_spec l' s) as (Hh' & Hv' & Hp' & _).
    rewrite Hh, Hv, Hp, Hh', Hv', Hp'. unfold hosts_of, vulns_of, patches_of.
    by rewrite Hperm.
  - done.
Qed.

(** X4. The two string-keyed side channels behave as maps: a value
    stored under a key is the one read back, the other keys are not
    affected, a second store under the same key replaces the first, and
    a key never stored reads as (nil, false).  Storing into the context
    leaves the results alone and commutes with every append to them;
    storing a bleeding-edge result leaves the three sequences, the
    summary and the context alone. *)
Theorem X4_side_channels (s : Scan) (key : string) (value : GoValue) :
  GetContext (SetContext key value s) key = (value, true)
  /\ (forall key', key' <> key ->
      GetContext (SetContext key value s) key' = GetContext s key')
  /\ (forall value',
      SetContext key value' (SetContext key value s) = SetContext key value' s)
  /\ (Context s !! key = None -> GetContext s key = (VNil, false))
  /\ Results (SetContext key value s) = Results s
  /\ (forall a, append a (SetContext key value s) = SetContext key value (append a s))
  /\ BleedingEdge (Results (SetBleedingEdgeResult key value s)) !! key = Some value
  /\ (forall key', key' <> key ->
      BleedingEdge (Results (SetBleedingEdgeResult key value s)) !! key'
      = BleedingEdge (Results s) !! key')
  /\ (forall value',
      SetBleedingEdgeResult key value' (SetBleedingEdgeResult key value s)
      = SetBleedingEdgeResult key value' s)
  /\ Hosts (Results (SetBleedingEdgeResult key value s)) = Hosts (Results s)
  /\ Vulnerabilities (Results (SetBleedingEdgeResult key value s))
     = Vulnerabilities (Results s)
  /\ Patches (Results (SetBleedingEdgeResult key value s)) = Patches (Results s)
  /\ Summary (Results (SetBleedingEdgeResult key value s)) = Summary (Results s)
  /\ Context (SetBleedingEdgeResult key value s) = Context s.
Proof.
  unfold GetContext, SetContext, SetBleedingEdgeResult, set_Results.
  cbn [Context Results BleedingEdge Hosts Vulnerabilities Patches Summary
       ID Targets Config Logger].
  repeat split.
  - by rewrite lookup_insert_eq.
  - intros key' Hne. by rewrite lookup_insert_ne.
  - intros value'. by rewrite insert_insert_eq.
  - by intros ->.
  - by intros [].
  - by rewrite lookup_insert_eq.
  - intros key' Hne. by rewrite lookup_insert_ne.
  - intros value'. by rewrite insert_insert_eq.
Qed.

Lemma X4_side_channels_witness :
  GetContext (Examples.scan0 false) "supply_chain_drift" = (VNil, false).
Proof.
  apply (proj1 (proj2 (proj2 (proj2
           (X4_side_channels (Examples.scan0 false) "supply_chain_drift" VNil))))).
  reflexivity.
Defined.

(** ** EscapeShellArg *)

Lemma app_String (c : ascii) (s1 s2 : string) :
  String c s1 +:+ s2 = String c (s1 +:+ s2).
Proof. reflexivity. Qed.

Lemma app_empty (s : string) : "" +:+ s = s.
Proof. reflexivity. Qed.

Lemma app_string_assoc (s1 s2 s3 : string) :
  (s1 +:+ s2) +:+ s3 = s1 +:+ (s2 +:+ s3).
Proof.
  induction s1 as [|c s1 IH]; [done|]. by rewrite !app_String, IH.
Qed.

Lemma ReplaceAll_app (s1 s2 : string) (old : ascii) (new : string) :
  ReplaceAll (s1 +:+ s2) old new = ReplaceAll s1 old new +:+ ReplaceAll s2 old new.
Proof.
  induction s1 as [|c s1 IH]; [done|]. rewrite app_String. cbn [ReplaceAll].
  rewrite IH. destruct (Ascii.eqb c old); [|done].
  by rewrite app_string_assoc.
Qed.

Lemma EscapeShellArg_cons (c : ascii) (s : string) :
  EscapeShellArg (String c s) = escape_byte c +:+ EscapeShellArg s.
Proof.
  unfold EscapeShellArg, escape_byte. cbn [ReplaceAll].
  destruct (Ascii.eqb c backslash) eqn:Hb.
  - apply Ascii.eqb_eq in Hb as ->. rewrite ReplaceAll_app. reflexivity.
  - cbn [ReplaceAll]. destruct (Ascii.eqb c dquote); reflexivity.
Qed.

Lemma unquote_escape_byte (c : ascii) (rest : string) :
  unquote (escape_byte c +:+ rest) = String c <$> unquote rest.
Proof.
  unfold escape_byte.
  destruct (Ascii.eqb c backslash) eqn:Hb.
  - apply Ascii.eqb_eq in Hb as ->. reflexivity.
  - destruct (Ascii.eqb c dquote) eqn:Hq.
    + apply Ascii.eqb_eq in Hq as ->. reflexivity.
    + rewrite app_String, app_empty. cbn [unquote]. by rewrite Hb, Hq.
Qed.

Lemma length_app_string (s1 s2 : string) :
  String.length (s1 +:+ s2) = (String.length s1 + String.length s2)%nat.
Proof.
  induction s1 as [|c s1 IH]; [done|].
  rewrite app_String. cbn [String.length]. by rewrite IH.
Qed.

Lemma EscapeShellArg_length (s : string) :
  String.length (EscapeShellArg s) = (String.length s + count_special s)%nat.
Proof.
  induction s as [|c s IH]; [done|].
  rewrite EscapeShellArg_cons, length_app_string, IH. unfold escape_byte.
  cbn [String.length count_special].
  destruct (Ascii.eqb c backslash); [cbn; lia|].
  destruct (Ascii.eqb c dquote); cbn; lia.
Qed.

Lemma count_special_bound (s : string) : (count_special s <= String.length s)%nat.
Proof.
  induction s as [|c s IH]; cbn [count_special String.length]; [lia|].
  destruct (_ || _); lia.
Qed.

Lemma count_special_0 (s : string) :
  count_special s = 0%nat
  <-> has_byte backslash s = false /\ has_byte dquote s = false.
Proof.
  induction s as [|c s IH]; cbn [count_special has_byte]; [done|].
  destruct (Ascii.eqb c backslash), (Ascii.eqb c dquote); cbn [orb];
    rewrite ?Nat.add_0_l; try (split; [lia|intros []; discriminate]).
  exact IH.
Qed.

Lemma EscapeShellArg_plain (s : string) :
  count_special s = 0%nat -> EscapeShellArg s = s.
Proof.
  induction s as [|c s IH]; [done|]. cbn [count_special]. intros H.
  rewrite EscapeShellArg_cons. unfold escape_byte.
  destruct (Ascii.eqb c backslash); [cbn in H; lia|].
  destruct (Ascii.eqb c dquote); [cbn in H; lia|].
  cbn [orb] in H. rewrite app_String, app_empty, IH; [done|lia].
Qed.

(** X5. What [EscapeShellArg] returns reads back as the argument it
    was given when every backslash is taken with the byte after it: no
    double quote is left bare and no backslash is left dangling, so two
    arguments never escape to the same string.  The result is the
    argument itself exactly when the argument holds neither a
    backslash nor a double quote (every other byte, [$] and the
    backquote included, passes unchanged), and it is at most twice as
    long. *)
Theorem X5_EscapeShellArg (arg : string) :
  unquote (EscapeShellArg arg) = Some arg
  /\ (forall arg', EscapeShellArg arg' = EscapeShellArg arg -> arg' = arg)
  /\ (EscapeShellArg arg = arg
      <-> has_byte backslash arg = false /\ has_byte dquote arg = false)
  /\ (String.length arg <= String.length (EscapeShellArg arg)
      <= 2 * String.length arg)%nat.
Proof.
  assert (Hround : forall s, unquote (EscapeShellArg s) = Some s).
  { induction s as [|c s IH]; [done|].
    by rewrite EscapeShellArg_cons, unquote_escape_byte, IH. }
  split; [apply Hround|]. split; [|split].
  - intros arg' Heq. pose proof (Hround arg') as H. rewrite Heq, Hround in H.
    congruence.
  - rewrite <- count_special_0. split.
    + intros Heq. pose proof (EscapeShellArg_length arg) as Hl.
      rewrite Heq in Hl. lia.
    + apply EscapeShellArg_plain.
  - rewrite EscapeShellArg_length. pose proof (count_special_bound arg). lia.
Qed.

(** ** The sandbox manager *)

(** X6. The life of a sandbox manager.  [NewManager] never fails and
    gives an inactive manager.  [Initialize] returns an error exactly
    when the process is root, [unshare] is found and starting it
    fails; it activates the manager exactly when the three succeed
    (and never deactivates one); a failed start leaves the manager
    inactive but named.  [Initialize] only writes log entries into the
    scan, and at least one.  [Cleanup] never fails, leaves the manager
    inactive whatever it was, keeps its configuration, and has nothing
    left to do when called again. *)
Theorem X6_sandbox_lifecycle (host : Host) (config : ScanConfig) (m : Manager)
    (scan : Scan) :
  let fresh := (NewManager config).1 in
  let started := Initialize host fresh scan in
  let cleaned := Sandbox.Cleanup m scan in
  ((NewManager config).2 = None /\ IsActive fresh = false
   /\ m_config fresh = config)
  /\ (is_Some started.2
      <-> host_euid host = 0 /\ host_unshare host = true
          /\ is_Some (host_start host))
  /\ (forall cause, host_euid host = 0 -> host_unshare host = true ->
      host_start host = Some cause ->
      started.2 = Some (ErrWrap "failed to create network namespace" cause))
  /\ (IsActive started.1.1 = true
      <-> host_euid host = 0 /\ host_unshare host = true
          /\ host_start host = None)
  /\ (IsActive m = true -> IsActive (Initialize host m scan).1.1 = true)
  /\ (exists entries,
        entries <> []
        /\ (Initialize host m scan).1.2
           = set_Logger (Logger scan ++ entries) scan)
  /\ cleaned.2 = None
  /\ IsActive cleaned.1.1 = false
  /\ m_config cleaned.1.1 = m_config m
  /\ Sandbox.Cleanup cleaned.1.1 cleaned.1.2 = (cleaned.1.1, cleaned.1.2, None)
  /\ (IsActive m = false -> cleaned = (m, scan, None)).
Proof.
  cbn zeta. unfold NewManager, Initialize, Sandbox.Cleanup, IsActive, logf.
  cbn [fst snd m_active m_config m_namespace].
  split_and!; try done.
  - destruct (Z.eqb_spec (host_euid host) 0), (host_unshare host),
      (host_start host); cbn; split; try done; try (by intros (?&?&[? ?]));
      by intros [? ?].
  - intros cause -> -> ->. done.
  - destruct (Z.eqb_spec (host_euid host) 0), (host_unshare host),
      (host_start host); cbn; split; try done; by intros (?&?&?).
  - intros Hm. destruct (Z.eqb_spec (host_euid host) 0), (host_unshare host),
      (host_start host); cbn; done.
  - destruct (Z.eqb_spec (host_euid host) 0), (host_unshare host),
      (host_start host); cbn [negb fst snd];
      try (by eexists [_]); eexists [_; _]; split; [done|].
    unfold set_Logger. cbn. by rewrite <- app_assoc.
  - by destruct (m_active m).
  - by destruct (m_active m) eqn:Hm.
  - by destruct (m_active m).
  - destruct (m_active m) eqn:Hm; cbn; [done|]. by rewrite Hm.
  - by intros ->.
Qed.

(** ** Execute *)

Lemma prepared_ctx (host : Host) (w : World) : ctx (prepared host w) = ctx w.
Proof.
  unfold prepared. proj_simpl. destruct (Initialize _ _ _) as [[m scan] ierr].
  by destruct ierr.
Qed.

Lemma concluded_ctx (elapsed : string) (r : World * option error) :
  ctx (concluded elapsed r).1 = ctx r.1.
Proof.
  unfold concluded, deferred_duration, deferred_cleanup. cbn [fst].
  destruct (Sandbox.Cleanup _ _) as [[m scan] e]. by destruct r.2.
Qed.

(** X7. A scan without targets is refused before anything runs:
    [Execute] returns [target validation failed: no targets specified],
    and this is the only way the validation fails.  On that path no
    phase starts and the sandbox is not touched: the log gains the
    start entry and the completion entry and nothing else, the
    duration is recorded, and hosts, vulnerabilities, patches and the
    trail of executed modules are as before.  An orchestrator made by
    [NewOrchestrator] from a configuration without targets is in this
    case. *)
Theorem X7_no_targets (reg : Registry) (host : Host) (s : Schedules)
    (elapsed : string) (w : World) :
  let r := Execute reg host s elapsed w in
  ((exists cause, r.2 = Some (ErrWrap "target validation failed" cause))
   <-> Targets (o_scan (orch w)) = [])
  /\ (Targets (o_scan (orch w)) = [] ->
      r.2 = Some (ErrWrap "target validation failed" (ErrNew "no targets specified"))
      /\ Error <$> r.2 = Some "target validation failed: no targets specified"
      /\ Logger (o_scan (orch r.1))
         = Logger (o_scan (orch w))
           ++ [mkLogEntry LvlInfo [] "🦅 Starting TraceHawk X scan";
               mkLogEntry LvlInfo [] "Scan completed"]
      /\ o_sandbox (orch r.1) = o_sandbox (orch w)
      /\ ScanDuration (summary_of (orch r.1)) = elapsed
      /\ Hosts (Results (o_scan (orch r.1))) = Hosts (Results (o_scan (orch w)))
      /\ Vulnerabilities (Results (o_scan (orch r.1)))
         = Vulnerabilities (Results (o_scan (orch w)))
      /\ Patches (Results (o_scan (orch r.1))) = Patches (Results (o_scan (orch w)))
      /\ ModulesExecuted (summary_of (orch r.1))
         = ModulesExecuted (summary_of (orch w))
      /\ ctx r.1 = ctx w)
  /\ (forall scanID generate config gctx,
        cfg_Targets config = [] ->
        exists o,
          NewOrchestrator scanID (inl generate) config = inl o
          /\ Targets (o_scan (orch (mkWorld o gctx))) = []).
Proof.
  cbn zeta.
  assert (Hempty : Targets (o_scan (orch w)) = [] ->
            Execute reg host s elapsed w
            = (deferred_duration elapsed
                 (on_orch (olog LvlInfo [] "🦅 Starting TraceHawk X scan") w),
               Some (ErrWrap "target validation failed"
                       (ErrNew "no targets specified")))).
  { intros H. unfold Execute, validateTargets. proj_simpl. rewrite H.
    by rewrite decide_True. }
  split_and!.
  - split.
    + intros [cause Hr].
      destruct (decide (Targets (o_scan (orch w)) = [])) as [|Hne]; [done|].
      exfalso. rewrite Execute_validated in Hr by done.
      unfold concluded in Hr. cbn [snd] in Hr.
      revert Hr. generalize (prepared host w). unfold phases_of.
      intros w0 Hr. cbn [run_phases] in Hr.
      repeat match type of Hr with
             | context [let '(_, _) := ?x in _] => destruct x as [? [?|]]
             | context [match ctx ?x with _ => _ end] => destruct (ctx x) as [[]|]
             end; cbn in Hr; discriminate.
    + intros H. rewrite Hempty by done. eauto.
  - intros H. rewrite Hempty by done. cbn [fst snd].
    unfold deferred_duration. proj_simpl.
    split_and!; try done. by rewrite <- app_assoc.
  - intros scanID generate config gctx H. eexists. split; [reflexivity|done].
Qed.

Lemma X7_no_targets_witness :
  Error <$> (Execute Examples.scanners (mkHost 1000 false None)
               (mkSchedules [] [] [] [] [] []) "12ms"
               (mkWorld
                  (mkOrchestrator
                     (mkScanConfig [] "" "" 10 100 false false false false false []
                        "" 0 false "" false false false)
                     (mkScan "scan-1" []
                        (mkScanConfig [] "" "" 10 100 false false false false false []
                           "" 0 false "" false false false)
                        (mkScanResults [] [] [] ∅ zeroSummary) ∅ [])
                     (NewManager
                        (mkScanConfig [] "" "" 10 100 false false false false false []
                           "" 0 false "" false false false)).1
                     (fun _ scan => (scan, None)) NewEngine)
                  None)).2
  = Some "target validation failed: no targets specified".
Proof.
  refine (proj1 (proj2 (proj1 (proj2 (X7_no_targets _ _ _ _ _)) _))).
  reflexivity.
Defined.

(** *** The context through a phase *)

Lemma group_done_world (i : nat) (r : option error) (g : Group) :
  g_world (group_done i r g) = g_world g.
Proof. unfold group_done, set_routine. by destruct r, (g_err g). Qed.

(** Once [ctx] is done it stays done, for the same reason. *)
Lemma step_ctx_done (activeModules : list Module) (ev : Event) (g : Group)
    (c : CtxErr) :
  ctx (g_world g) = Some c -> ctx (g_world (step activeModules ev g)) = Some c.
Proof.
  intros Hc. destruct ev; cbn [step]; rewrite ?Hc; try done;
    repeat case_match; rewrite ?group_done_world; by group_simpl.
Qed.

(** Only a cancellation changes [ctx]. *)
Lemma step_ctx_keep (activeModules : list Module) (ev : Event) (g : Group) :
  (forall c, ev <> EvCancel c) ->
  ctx (g_world (step activeModules ev g)) = ctx (g_world g).
Proof.
  intros Hev. destruct ev; cbn [step]; try (by destruct (Hev c));
    repeat case_match; rewrite ?group_done_world; by group_simpl.
Qed.

Lemma run_schedule_ctx_done (activeModules : list Module) (sched : list Event)
    (g : Group) (c : CtxErr) :
  ctx (g_world g) = Some c ->
  ctx (g_world (run_schedule activeModules sched g)) = Some c.
Proof.
  revert g. induction sched as [|ev sched IH]; intros g Hc; [done|].
  apply IH. by apply step_ctx_done.
Qed.

Lemma run_schedule_ctx_keep (activeModules : list Module) (sched : list Event)
    (g : Group) :
  no_cancel sched ->
  ctx (g_world (run_schedule activeModules sched g)) = ctx (g_world g).
Proof.
  revert g. induction sched as [|ev sched IH]; intros g Hq; [done|].
  change (run_schedule activeModules (ev :: sched) g)
    with (run_schedule activeModules sched (step activeModules ev g)).
  rewrite IH.
  - apply step_ctx_keep. intros c ->. apply (Hq c). left.
  - intros c Hin. apply (Hq c). by right.
Qed.

Lemma no_cancel_completion (n : nat) : no_cancel (completion n).
Proof.
  intros c. unfold completion.
  assert (H : forall idxs, EvCancel c ∉ concat (finish <$> idxs)).
  { induction idxs as [|i idxs IH]; cbn [fmap list_fmap concat];
      [apply not_elem_of_nil|].
    rewrite elem_of_app. intros [Hin|Hin]; [|done].
    unfold finish in Hin.
    repeat (apply elem_of_cons in Hin as [Hin|Hin]; [discriminate|]).
    by apply elem_of_nil in Hin. }
  rewrite elem_of_app. intros [Hin|Hin]; by apply (H (seq 0 n)).
Qed.

Lemma no_cancel_app (s1 s2 : list Event) :
  no_cancel s1 -> no_cancel s2 -> no_cancel (s1 ++ s2).
Proof. intros H1 H2 c. rewrite elem_of_app. specialize (H1 c). specialize (H2 c). tauto. Qed.

Lemma executeModules_ctx_done (reg : Registry) (sched : list Event)
    (moduleNames : list string) (category : string) (w : World) (c : CtxErr) :
  ctx w = Some c ->
  ctx (executeModules reg sched moduleNames category w).1 = Some c.
Proof.
  intros Hc. unfold executeModules.
  destruct (select_active _ _ _) as [activeModules o].
  case_decide; [done|]. cbn [fst]. by apply run_schedule_ctx_done.
Qed.

Lemma executeModules_ctx_keep (reg : Registry) (sched : list Event)
    (moduleNames : list string) (category : string) (w : World) :
  no_cancel sched ->
  ctx (executeModules reg sched moduleNames category w).1 = ctx w.
Proof.
  intros Hq. unfold executeModules.
  destruct (select_active _ _ _) as [activeModules o].
  case_decide; [done|]. cbn [fst].
  rewrite run_schedule_ctx_keep; [done|].
  apply no_cancel_app; [done|apply no_cancel_completion].
Qed.

Lemma deliver_ctx_done (sched : list Event) (w : World) (c : CtxErr) :
  ctx w = Some c -> ctx (deliver sched w) = Some c.
Proof.
  revert w. induction sched as [|ev sched IH]; intros w Hc; [done|].
  unfold deliver. cbn [foldl]. apply IH.
  destruct ev; try done. by rewrite Hc.
Qed.

Lemma deliver_quiet (sched : list Event) (w : World) :
  no_cancel sched -> deliver sched w = w.
Proof.
  revert w. induction sched as [|ev sched IH]; intros w Hq; [done|].
  assert (Hev : forall c, ev <> EvCancel c).
  { intros c ->. apply (Hq c). left. }
  rewrite <- (IH w) at 2; [|intros c Hin; apply (Hq c); by right].
  unfold deliver. cbn [foldl].
  f_equal. destruct ev; try done. by destruct (Hev c).
Qed.

Lemma deliver_orch (sched : list Event) (w : World) :
  orch (deliver sched w) = orch w.
Proof.
  revert w. induction sched as [|ev sched IH]; intros w; [done|].
  unfold deliver in *. cbn [foldl]. rewrite IH.
  destruct ev; try done. by destruct (ctx w).
Qed.

(** *** The fixtures through a phase *)

Lemma call_module_fixtures (gctx : Ctx) (module : Module) (o : Orchestrator) :
  fixtures (call_module gctx module o).1 = fixtures o.
Proof.
  unfold call_module. proj_simpl.
  destruct (if IsActive (o_sandbox o) then _ else _) as [scan [e|]]; done.
Qed.

Lemma step_fixtures (activeModules : list Module) (ev : Event) (g : Group) :
  fixtures (orch (g_world (step activeModules ev g))) = fixtures (orch (g_world g)).
Proof.
  destruct ev; cbn [step]; repeat case_match; rewrite ?group_done_world;
    group_simpl; try done.
  all: try match goal with
       | H : call_module ?c ?m ?o = _ |- _ =>
           pose proof (call_module_fixtures c m o) as Hf; by rewrite H in Hf
       end.
  all: by destruct (g_world g).
Qed.

Lemma run_schedule_fixtures (activeModules : list Module) (sched : list Event)
    (g : Group) :
  fixtures (orch (g_world (run_schedule activeModules sched g)))
  = fixtures (orch (g_world g)).
Proof.
  revert g. induction sched as [|ev sched IH]; intros g; [done|].
  change (run_schedule activeModules (ev :: sched) g)
    with (run_schedule activeModules sched (step activeModules ev g)).
  by rewrite IH, step_fixtures.
Qed.

Lemma select_active_fixtures (moduleMap : gmap string Module)
    (moduleNames : list string) (o : Orchestrator) :
  fixtures (select_active moduleMap moduleNames o).2 = fixtures o.
Proof.
  unfold select_active.
  enough (H : forall acc,
            fixtures (foldl (fun '(activeModules, o) name =>
                               match moduleMap !! name with
                               | Some module =>
                                   match Prerequisites module with
                                   | Some err =>
                                       (activeModules,
                                        olog LvlWarn []
                                          ("Module " +:+ name
                                           +:+ " prerequisites not met, skipping: "
                                           +:+ Error err) o)
                                   | None => (activeModules ++ [module], o)
                                   end
                               | None => (activeModules, o)
                               end) acc moduleNames).2
            = fixtures acc.2) by apply (H ([], o)).
  induction moduleNames as [|name names IH]; intros [l o']; [done|].
  cbn [foldl]. rewrite IH. by repeat case_match.
Qed.

Lemma executeModules_fixtures (reg : Registry) (sched : list Event)
    (moduleNames : list string) (category : string) :
  keeps_fixtures (executeModules reg sched moduleNames category).
Proof.
  intros w. unfold executeModules.
  pose proof (select_active_fixtures
                (moduleMap_of (GetModulesByCategory reg category))
                moduleNames (orch w)) as Hsel.
  destruct (select_active _ _ _) as [activeModules o]. cbn [snd] in Hsel.
  case_decide; [done|]. cbn [fst]. by rewrite run_schedule_fixtures.
Qed.

Lemma executeModules_fails_with_ctx (reg : Registry) (sched : list Event)
    (moduleNames : list string) (category : string) :
  fails_with_ctx (executeModules reg sched moduleNames category).
Proof. intros w e. apply executeModules_error. Qed.

Lemma executeModules_keeps_done (reg : Registry) (sched : list Event)
    (moduleNames : list string) (category : string) :
  keeps_done (executeModules reg sched moduleNames category).
Proof. intros w c. apply executeModules_ctx_done. Qed.

Lemma score_range_fixtures (n i : nat) (o : Orchestrator) :
  fixtures (score_range n i o) = fixtures o.
Proof.
  revert i o. induction n as [|n IH]; intros i o; [done|].
  cbn [score_range]. rewrite IH. unfold score_vuln.
  destruct (_ !! i); [|done]. by destruct (_ <=? _)%float.
Qed.

Lemma updateScanSummary_fixtures (o : Orchestrator) :
  fixtures (updateScanSummary o) = fixtures o.
Proof.
  unfold updateScanSummary.
  destruct (count_ports _) as [? ?]. by destruct (count_vulns _) as [[[[? ?] ?] ?] ?].
Qed.

Lemma fixtures_set_scan (scan : Scan) (o : Orchestrator) :
  fixtures (set_scan scan o) = fixtures o.
Proof. reflexivity. Qed.

Lemma runScoringPhase_fixtures : keeps_fixtures runScoringPhase.
Proof.
  intros w. unfold runScoringPhase. cbn [fst orch].
  rewrite updateScanSummary_fixtures. unfold set_summary.
  by rewrite fixtures_set_scan, (score_range_fixtures _ 0).
Qed.

Lemma runReportingPhase_fixtures : keeps_fixtures runReportingPhase.
Proof.
  intros w. unfold runReportingPhase. by destruct (o_reporter _ _ _).
Qed.

Lemma runReportingPhase_ctx (w : World) : ctx (runReportingPhase w).1 = ctx w.
Proof. unfold runReportingPhase. by destruct (o_reporter _ _ _). Qed.

Lemma then_deliver_fixtures (sched : list Event) (fn : World -> World * option error) :
  keeps_fixtures fn -> keeps_fixtures (then_deliver sched fn).
Proof.
  intros Hfn w. unfold then_deliver. specialize (Hfn w).
  destruct (fn w) as [w1 r]. cbn [fst] in *. by rewrite deliver_orch.
Qed.

Lemma then_deliver_keeps_done (sched : list Event) (fn : World -> World * option error) :
  (forall w, ctx (fn w).1 = ctx w) -> keeps_done (then_deliver sched fn).
Proof.
  intros Hfn w c Hc. unfold then_deliver. specialize (Hfn w).
  destruct (fn w) as [w1 r]. cbn [fst] in *. apply deliver_ctx_done. congruence.
Qed.

Lemma then_deliver_quiet (sched : list Event) (fn : World -> World * option error)
    (w : World) :
  no_cancel sched -> then_deliver sched fn w = fn w.
Proof.
  intros Hq. unfold then_deliver. destruct (fn w) as [w1 r].
  by rewrite deliver_quiet.
Qed.

Lemma then_deliver_result (sched : list Event) (fn : World -> World * option error)
    (w : World) :
  (then_deliver sched fn w).2 = (fn w).2.
Proof. unfold then_deliver. by destruct (fn w). Qed.

(** Every phase of [Execute] keeps a done context done and leaves the
    fixtures alone. *)
Lemma phases_of_guarantees (reg : Registry) (s : Schedules) :
  Forall (fun p => keeps_done p.2 /\ keeps_fixtures p.2) (phases_of reg s).
Proof.
  unfold phases_of.
  repeat apply List.Forall_cons; try apply List.Forall_nil; cbn [snd]; split.
  all: try (apply then_deliver_keeps_done; first [done|apply runReportingPhase_ctx]).
  all: try (apply then_deliver_fixtures;
            first [apply runScoringPhase_fixtures|apply runReportingPhase_fixtures]).
  all: intros w.
  all: unfold runDiscoveryPhase, runScanningPhase, runVulnPhase, runBleedingEdgePhase;
    cbv zeta.
  all: try (destruct (cfg_BleedingEdge (o_config (orch w))); cbn [negb]).
  all: try (intros c; apply executeModules_ctx_done).
  all: try apply executeModules_fixtures.
  all: by cbn.
Qed.

(** The phases before Reporting fail only with the error of the done
    context, and Scoring not at all. *)
Lemma phases_of_split (reg : Registry) (s : Schedules) :
  exists phases,
    phases_of reg s
    = phases ++ [("Reporting", then_deliver (during_reporting s) runReportingPhase)]
    /\ phases.*1 = module_phases ++ ["Scoring"]
    /\ Forall (fun p => fails_with_ctx p.2) phases
    /\ (forall fn, ("Scoring", fn) ∈ phases -> forall w, (fn w).2 = None).
Proof.
  eexists [_; _; _; _; _]. split; [reflexivity|]. split; [reflexivity|]. split.
  - repeat apply List.Forall_cons; try apply List.Forall_nil; cbn [snd]; intros w.
    all: unfold runDiscoveryPhase, runScanningPhase, runVulnPhase,
           runBleedingEdgePhase; cbv zeta.
    all: try (destruct (cfg_BleedingEdge (o_config (orch w))); cbn [negb]).
    all: try (intros e; apply executeModules_error).
    all: try by cbn.
    all: try (intros e; by rewrite then_deliver_result).
  - intros fn Hin w.
    repeat (apply elem_of_cons in Hin as [Hin|Hin]; [try discriminate|]).
    + injection Hin as ->. by rewrite then_deliver_result.
    + by apply elem_of_nil in Hin.
Qed.

(** Under schedules without cancellation no phase changes [ctx]. *)
Lemma phases_of_quiet (reg : Registry) (s : Schedules) :
  quiet s -> Forall (fun p => forall w, ctx (p.2 w).1 = ctx w) (phases_of reg s).
Proof.
  intros (H1 & H2 & H3 & H4 & H5 & H6). unfold phases_of.
  repeat apply List.Forall_cons; try apply List.Forall_nil; cbn [snd]; intros w.
  all: rewrite ?then_deliver_quiet by done.
  all: unfold runDiscoveryPhase, runScanningPhase, runVulnPhase, runBleedingEdgePhase;
    cbv zeta.
  all: try (destruct (cfg_BleedingEdge (o_config (orch w))); cbn [negb]).
  all: try by apply executeModules_ctx_keep.
  all: try done.
  all: apply runReportingPhase_ctx.
Qed.

Lemma run_phases_fails_with_ctx (phases : list Phase) (w : World) :
  Forall (fun p => fails_with_ctx p.2) phases ->
  let r := run_phases phases w in
  match r.2 with
  | Some err =>
      exists c, ctx r.1 = Some c
        /\ (err = ctx_error c
            \/ exists name fn w',
                 (name, fn) ∈ phases /\ (fn w').2 = Some (ctx_error c)
                 /\ err = ErrWrap ("phase " +:+ name +:+ " failed") (ctx_error c))
  | None => phases = [] \/ ctx r.1 = None
  end.
Proof.
  cbn zeta. intros Hall. revert w.
  induction Hall as [|[name fn] phases Hfn _ IH]; intros w; [by left|].
  cbn [run_phases snd] in *.
  pose proof (Hfn (on_orch (olog LvlInfo [] ("📍 Phase: " +:+ name)) w)) as He.
  destruct (fn _) as [w1 [e|]] eqn:Hfnw; cbn [fst snd] in *.
  - specialize (He e eq_refl). destruct (ctx w1) as [c|] eqn:Hc; [|done].
    injection He as <-. exists c. split; [done|]. right.
    exists name, fn, (on_orch (olog LvlInfo [] ("📍 Phase: " +:+ name)) w).
    split; [left|]. by rewrite Hfnw.
  - destruct (ctx (on_orch _ w1)) as [c|] eqn:Hc; cbn [fst snd].
    + exists c. split; [done|by left].
    + specialize (IH (on_orch (olog LvlInfo [] ("✅ Phase " +:+ name +:+ " completed")) w1)).
      destruct (run_phases phases _) as [w2 [e|]] eqn:Hrun; cbn [fst snd] in *.
      * destruct IH as (c & ? & [?|(n & f & w' & ? & ? & ?)]); exists c;
          split; try done; [by left|]. right. exists n, f, w'.
        split; [by right|done].
      * destruct IH as [->|?]; [|by right]. right.
        cbn in Hrun. by injection Hrun as <-.
Qed.

Lemma fixtures_olog (lvl : Level) (fields : list (string * string)) (msg : string)
    (w : World) :
  fixtures (orch (on_orch (olog lvl fields msg) w)) = fixtures (orch w).
Proof. reflexivity. Qed.

Lemma run_phases_fixtures (phases : list Phase) (w : World) :
  Forall (fun p => keeps_fixtures p.2) phases ->
  fixtures (orch (run_phases phases w).1) = fixtures (orch w).
Proof.
  intros Hall. revert w.
  induction Hall as [|[name fn] phases Hfn _ IH]; intros w; [done|].
  cbn [run_phases snd] in *.
  pose proof (Hfn (on_orch (olog LvlInfo [] ("📍 Phase: " +:+ name)) w)) as He.
  rewrite fixtures_olog in He.
  destruct (fn _) as [w1 [e|]]; cbn [fst snd] in *; [done|].
  destruct (ctx (on_orch _ w1)) as [c|] eqn:Hc; cbn [fst snd];
    [by rewrite fixtures_olog|].
  by rewrite IH, fixtures_olog.
Qed.

Lemma run_phases_keeps_done (phases : list Phase) (w : World) (c : CtxErr) :
  Forall (fun p => keeps_done p.2) phases ->
  ctx w = Some c -> ctx (run_phases phases w).1 = Some c.
Proof.
  intros Hall. revert w.
  induction Hall as [|[name fn] phases Hfn _ IH]; intros w Hw; [done|].
  cbn [run_phases snd] in *.
  pose proof (Hfn (on_orch (olog LvlInfo [] ("📍 Phase: " +:+ name)) w) c Hw) as He.
  destruct (fn _) as [w1 [e|]]; cbn [fst snd] in *; [done|].
  destruct (ctx (on_orch _ w1)) as [c'|] eqn:Hc; cbn [fst snd]; [done|].
  cbn in Hc. congruence.
Qed.

Lemma run_phases_ctx_keep (phases : list Phase) (w : World) :
  Forall (fun p => forall w, ctx (p.2 w).1 = ctx w) phases ->
  ctx (run_phases phases w).1 = ctx w.
Proof.
  intros Hall. revert w.
  induction Hall as [|[name fn] phases Hfn _ IH]; intros w; [done|].
  cbn [run_phases snd] in *.
  pose proof (Hfn (on_orch (olog LvlInfo [] ("📍 Phase: " +:+ name)) w)) as He.
  destruct (fn _) as [w1 [e|]]; cbn [fst snd] in *; [done|].
  destruct (ctx (on_orch _ w1)) as [c|] eqn:Hc; cbn [fst snd]; [by cbn in Hc|].
  by rewrite IH.
Qed.

Lemma concluded_result (elapsed : string) (r : World * option error) :
  (concluded elapsed r).2 = r.2.
Proof. reflexivity. Qed.

Lemma prepared_reporter (host : Host) (w : World) :
  o_reporter (orch (prepared host w)) = o_reporter (orch w).
Proof.
  unfold prepared. proj_simpl. destruct (Initialize _ _ _) as [[m scan] ierr].
  by destruct ierr.
Qed.

(** X8. How a scan with targets can end.  [Execute] returns nil only
    with [ctx] still live after the last phase.  An error is either the
    error of the done context, bare or wrapped under the name of one of
    the four phases that run modules, or the error of the report
    generator wrapped under the Reporting phase; the Scoring phase
    never fails, and no failure of a module ever reaches the caller.
    When nothing cancels [ctx], it stays live and the scan returns nil
    or the wrapped error of the report generator. *)
Theorem X8_execute_outcome (reg : Registry) (host : Host) (s : Schedules)
    (elapsed : string) (w : World) :
  Targets (o_scan (orch w)) <> [] ->
  let r := Execute reg host s elapsed w in
  match r.2 with
  | None => ctx r.1 = None
  | Some err =>
      (exists c,
         ctx r.1 = Some c
         /\ (err = ctx_error c
             \/ exists name,
                  name ∈ module_phases
                  /\ err = ErrWrap ("phase " +:+ name +:+ " failed") (ctx_error c)))
      \/ (exists cause gctx scan,
            err = ErrWrap "phase Reporting failed" cause
            /\ (o_reporter (orch w) gctx scan).2 = Some cause)
  end
  /\ (quiet s -> ctx w = None ->
      ctx r.1 = None
      /\ (r.2 = None
          \/ exists cause, r.2 = Some (ErrWrap "phase Reporting failed" cause))).
Proof.
  intros Htargets. cbn zeta. rewrite Execute_validated by done.
  rewrite concluded_ctx, concluded_result.
  assert (Hmain :
    match (run_phases (phases_of reg s) (prepared host w)).2 with
    | None => ctx (run_phases (phases_of reg s) (prepared host w)).1 = None
    | Some err =>
        (exists c,
           ctx (run_phases (phases_of reg s) (prepared host w)).1 = Some c
           /\ (err = ctx_error c
               \/ exists name,
                    name ∈ module_phases
                    /\ err = ErrWrap ("phase " +:+ name +:+ " failed") (ctx_error c)))
        \/ (exists cause gctx scan,
              err = ErrWrap "phase Reporting failed" cause
              /\ (o_reporter (orch w) gctx scan).2 = Some cause)
    end).
  { destruct (phases_of_split reg s) as (phases & Hsplit & Hnames & Hfail & Hscoring).
    pose proof (phases_of_guarantees reg s) as Hg. rewrite Hsplit in Hg.
    apply Forall_app in Hg as [Hg _].
    rewrite Hsplit, run_phases_app.
    pose proof (run_phases_fails_with_ctx phases (prepared host w) Hfail) as Hout.
    pose proof (run_phases_fixtures phases (prepared host w)) as Hfix.
    cbn zeta in Hout.
    destruct (run_phases phases (prepared host w)) as [w1 [e|]]; cbn [fst snd] in *.
    - left. destruct Hout as (c & Hc & [->|(name & fn & w' & Hin & Hfn & ->)]);
        exists c; split; try done; [by left|].
      right. exists name. split; [|done].
      assert (Hname : name ∈ phases.*1).
      { apply list_elem_of_fmap. by exists (name, fn). }
      rewrite Hnames in Hname. apply elem_of_app in Hname as [?|Hname]; [done|].
      apply list_elem_of_singleton in Hname as ->.
      by rewrite (Hscoring fn Hin w') in Hfn.
    - destruct Hout as [->|Hlive]; [discriminate|].
      cbn [run_phases]. unfold then_deliver, runReportingPhase.
      match goal with
      | |- context [o_reporter ?o ?c ?sc] =>
          assert (Hrep : o_reporter o = o_reporter (orch w));
          [|destruct (o_reporter o c sc) as [scan' [cause|]] eqn:Hcall]
      end.
      { change (o_reporter (orch w1) = o_reporter (orch w)).
        rewrite <- (prepared_reporter host w).
        assert (Hf : fixtures (orch w1) = fixtures (orch (prepared host w))).
        { apply Hfix. eapply Forall_impl; [exact Hg|]. by intros p [_ ?]. }
        unfold fixtures in Hf. congruence. }
      + cbn [fst snd]. right. eexists cause, _, _. split; [done|].
        rewrite <- Hrep, Hcall. done.
      + cbn [fst snd].
        match goal with
        | |- context [match ctx ?x with _ => _ end] =>
            destruct (ctx x) as [c|] eqn:Hc; cbn [fst snd]
        end; [|done].
        left. exists c. split; [done|by left]. }
  split; [exact Hmain|].
  intros Hquiet Hw.
  assert (Hlive : ctx (run_phases (phases_of reg s) (prepared host w)).1 = None).
  { rewrite run_phases_ctx_keep by by apply phases_of_quiet.
    by rewrite prepared_ctx. }
  split; [done|].
  destruct (run_phases (phases_of reg s) (prepared host w)).2 as [err|]; [|by left].
  right. destruct Hmain as [(c & Hc & _)|(cause & _ & _ & -> & _)]; [|by eexists].
  rewrite Hlive in Hc. discriminate.
Qed.

Lemma X8_execute_outcome_witness :
  let r := Execute Examples.scanners (mkHost 1000 false None)
             (mkSchedules [] [] [] [] [] []) "12ms" (Examples.world0 false) in
  ctx r.1 = None
  /\ (r.2 = None
      \/ exists cause, r.2 = Some (ErrWrap "phase Reporting failed" cause)).
Proof.
  apply (X8_execute_outcome Examples.scanners (mkHost 1000 false None)
           (mkSchedules [] [] [] [] [] []) "12ms" (Examples.world0 false)).
  - done.
  - repeat split; intros c; apply not_elem_of_nil.
  - reflexivity.
Defined.

Lemma run_phases_done_first (name : string) (fn : World -> World * option error)
    (rest : list Phase) (w : World) (c : CtxErr) :
  keeps_done fn -> fails_with_ctx fn -> ctx w = Some c ->
  run_phases ((name, fn) :: rest) w = run_phases [(name, fn)] w
  /\ ctx (run_phases [(name, fn)] w).1 = Some c
  /\ ((run_phases [(name, fn)] w).2 = Some (ctx_error c)
      \/ (run_phases [(name, fn)] w).2
         = Some (ErrWrap ("phase " +:+ name +:+ " failed") (ctx_error c))).
Proof.
  intros Hdone Hfail Hc. cbn [run_phases].
  pose proof (Hdone (on_orch (olog LvlInfo [] ("📍 Phase: " +:+ name)) w) c Hc) as H1.
  pose proof (Hfail (on_orch (olog LvlInfo [] ("📍 Phase: " +:+ name)) w)) as H2.
  destruct (fn _) as [w1 [e|]]; cbn [fst snd] in *.
  - specialize (H2 e eq_refl). rewrite H1 in H2. injection H2 as <-.
    split_and!; try done. by right.
  - assert (Hc1 : ctx (on_orch (olog LvlInfo [] ("✅ Phase " +:+ name +:+ " completed"))
                     w1) = Some c) by done.
    rewrite Hc1. cbn [fst snd]. split_and!; try done. by left.
Qed.

(** X9. A scan whose context is already done when [Execute] is called
    ends with the Discovery phase: the error returned is that of the
    context, bare or wrapped under [phase Discovery failed], the
    context stays done for the same reason, and nothing that concerns a
    later phase (what happens during Scanning, Vulnerability
    Assessment, Bleeding Edge, Scoring or Reporting) has any influence
    on the outcome. *)
Theorem X9_cancelled_before_start (reg : Registry) (host : Host) (s s' : Schedules)
    (elapsed : string) (w : World) (c : CtxErr) :
  Targets (o_scan (orch w)) <> [] ->
  ctx w = Some c ->
  during_discovery s' = during_discovery s ->
  let r := Execute reg host s elapsed w in
  (r.2 = Some (ctx_error c)
   \/ r.2 = Some (ErrWrap "phase Discovery failed" (ctx_error c)))
  /\ ctx r.1 = Some c
  /\ Execute reg host s' elapsed w = r.
Proof.
  intros Htargets Hc Hs. cbn zeta. rewrite !Execute_validated by done.
  rewrite concluded_ctx, concluded_result.
  assert (Hw0 : ctx (prepared host w) = Some c) by by rewrite prepared_ctx.
  assert (Hd : forall sched,
            keeps_done (runDiscoveryPhase reg sched)
            /\ fails_with_ctx (runDiscoveryPhase reg sched)).
  { intros sched. split; intros w1; unfold runDiscoveryPhase; cbv zeta.
    - intros c1. apply executeModules_ctx_done.
    - intros e. apply executeModules_error. }
  unfold phases_of. rewrite Hs.
  destruct (Hd (during_discovery s)) as [Hdone Hfail].
  match goal with
  | |- context [run_phases (_ :: ?rest) _] =>
      destruct (run_phases_done_first "Discovery"
                  (runDiscoveryPhase reg (during_discovery s)) rest
                  (prepared host w) c Hdone Hfail Hw0) as (-> & Hctx & Hres)
  end.
  match goal with
  | |- context [concluded _ (run_phases (_ :: ?rest) _) = _] =>
      destruct (run_phases_done_first "Discovery"
                  (runDiscoveryPhase reg (during_discovery s)) rest
                  (prepared host w) c Hdone Hfail Hw0) as (-> & _ & _)
  end.
  split_and!; [|done|done].
  destruct Hres as [->| ->]; [by left|by right].
Qed.

Lemma X9_cancelled_before_start_witness :
  (Execute Examples.scanners (mkHost 1000 false None)
     (mkSchedules [] [] [] [] [] []) "12ms"
     (mkWorld (Examples.orchestrator0 false) (Some Canceled))).2
  = Some ErrCanceled
  \/ (Execute Examples.scanners (mkHost 1000 false None)
        (mkSchedules [] [] [] [] [] []) "12ms"
        (mkWorld (Examples.orchestrator0 false) (Some Canceled))).2
     = Some (ErrWrap "phase Discovery failed" ErrCanceled).
Proof.
  refine (proj1 (X9_cancelled_before_start Examples.scanners (mkHost 1000 false None)
                   (mkSchedules [] [] [] [] [] [])
                   (mkSchedules [] [EvCancel Canceled] [] [] [] []) "12ms"
                   (mkWorld (Examples.orchestrator0 false) (Some Canceled)) Canceled
                   _ _ _)); done.
Defined.

Lemma prepared_fixtures (host : Host) (w : World) :
  o_config (orch (prepared host w)) = o_config (orch w)
  /\ o_reporter (orch (prepared host w)) = o_reporter (orch w)
  /\ o_scorer (orch (prepared host w)) = o_scorer (orch w)
  /\ m_config (o_sandbox (orch (prepared host w))) = m_config (o_sandbox (orch w)).
Proof.
  unfold prepared, Initialize. proj_simpl.
  destruct (negb _); [done|]. destruct (negb _); [done|].
  by destruct (host_start host).
Qed.

Lemma concluded_epilogue (elapsed : string) (r : World * option error) :
  let o' := orch (concluded elapsed r).1 in
  ScanDuration (summary_of o') = elapsed
  /\ last (Logger (o_scan o')) = Some (mkLogEntry LvlInfo [] "Scan completed")
  /\ IsActive (o_sandbox o') = false
  /\ o_config o' = o_config (orch r.1)
  /\ o_reporter o' = o_reporter (orch r.1)
  /\ o_scorer o' = o_scorer (orch r.1)
  /\ m_config (o_sandbox o') = m_config (o_sandbox (orch r.1))
  /\ (r.2 = None ->
      mkLogEntry LvlInfo [] "🎯 Scan execution completed successfully"
      ∈ Logger (o_scan o')).
Proof.
  destruct r as [w1 r]. cbn zeta.
  unfold concluded, deferred_duration, deferred_cleanup, Sandbox.Cleanup, IsActive.
  cbn [fst snd].
  destruct r as [e|]; proj_simpl;
    destruct (m_active (o_sandbox (orch w1))) eqn:Hm; cbn [negb]; proj_simpl;
    rewrite ?last_snoc; split_and!; try done; intros _;
    rewrite !elem_of_app, !list_elem_of_singleton; tauto.
Qed.

(** X10. What [Execute] leaves behind on every path, whether the
    targets are refused, a phase fails, the context is cancelled or the
    scan succeeds: the duration is recorded in the summary, the last
    log entry is [Scan completed], and the configuration, the report
    generator, the scoring engine and the sandbox manager's
    configuration are the ones it started with.  The sandbox is
    inactive afterwards, except that a scan refused for want of targets
    returns before the sandbox is touched and so leaves it as it was.
    A nil result has the success entry in the log. *)
Theorem X10_execute_epilogue (reg : Registry) (host : Host) (s : Schedules)
    (elapsed : string) (w : World) :
  let r := Execute reg host s elapsed w in
  let o := orch w in
  let o' := orch r.1 in
  ScanDuration (summary_of o') = elapsed
  /\ last (Logger (o_scan o')) = Some (mkLogEntry LvlInfo [] "Scan completed")
  /\ IsActive (o_sandbox o')
     = IsActive (o_sandbox o) && bool_decide (Targets (o_scan o) = [])
  /\ o_config o' = o_config o
  /\ o_reporter o' = o_reporter o
  /\ o_scorer o' = o_scorer o
  /\ m_config (o_sandbox o') = m_config (o_sandbox o)
  /\ (r.2 = None ->
      mkLogEntry LvlInfo [] "🎯 Scan execution completed successfully"
      ∈ Logger (o_scan o')).
Proof.
  cbn zeta. destruct (decide (Targets (o_scan (orch w)) = [])) as [Hempty|Hne].
  - rewrite bool_decide_eq_true_2, andb_true_r by done.
    unfold Execute, validateTargets. proj_simpl. rewrite Hempty.
    rewrite decide_True by done. cbn [fst snd]. unfold deferred_duration. proj_simpl.
    rewrite last_snoc. split_and!; done.
  - rewrite bool_decide_eq_false_2, andb_false_r by done.
    rewrite Execute_validated by done.
    assert (Hf : fixtures (orch (run_phases (phases_of reg s) (prepared host w)).1)
                 = fixtures (orch (prepared host w))).
    { apply run_phases_fixtures. eapply Forall_impl; [apply phases_of_guarantees|].
      by intros p [_ ?]. }
    destruct (prepared_fixtures host w) as (P1 & P2 & P3 & P4).
    revert Hf P1 P2 P3 P4.
    generalize (run_phases (phases_of reg s) (prepared host w)).
    generalize (prepared host w). intros w0 r0 Hf P1 P2 P3 P4.
    pose proof (concluded_epilogue elapsed r0) as H.
    cbn zeta in H. destruct H as (H1 & H2 & H3 & H4 & H5 & H6 & H7 & H8).
    unfold fixtures in Hf. injection Hf as Hc Hsb Hr Hsc.
    rewrite H4, H5, H6, H7. rewrite Hc, Hsb, Hr, Hsc.
    split_and!; done.
Qed.

(** ** The audit trail of goroutines run in turn *)





Lemma elem_of_resolve (reg : Registry) (category : string) (moduleNames : list string)
    (module : Module) :
  module ∈ Spec.resolve reg category moduleNames
  <-> exists name, name ∈ moduleNames /\ reg !! name = Some module
                   /\ Category module = category /\ Prerequisites module = None.
Proof.
  unfold Spec.resolve. rewrite list_elem_of_omap. split.
  - intros (name & Hin & Hres). exists name. split; [done|].
    destruct (reg !! name) as [m|]; [|done]. case_decide; [|done].
    destruct (Prerequisites m) eqn:Hp; [done|]. by injection Hres as <-.
  - intros (name & Hin & Hreg & Hcat & Hp). exists name. split; [done|].
    rewrite Hreg, decide_True, Hp; done.
Qed.




(** ** Scores without drift or LLM data *)

Lemma plain_score (vuln : Vulnerability) (scan : Scan) :
  (forall drift, Context scan !! "supply_chain_drift" <> Some (VFloat64 drift)) ->
  (forall conf, vuln_Metadata vuln !! "llm_confidence" <> Some (VFloat64 conf)) ->
  CalculateRiskScore NewEngine vuln scan
  = (Spec.severityWeight (vuln_Severity vuln)
     * Spec.exploitCoeff (vuln_Exploitable vuln))%float
  /\ (CalculateRiskScore NewEngine vuln scan <=? 15)%float = true.
Proof.
  intros Hdrift Hconf. rewrite CalculateRiskScore_refines.
  unfold Spec.risk_score, Spec.raw_score, Spec.driftFactor, Spec.supplyChainDrift,
    Spec.llmConfidence.
  assert (Hd : match Context scan !! "supply_chain_drift" with
               | Some (VFloat64 drift) => drift
               | _ => 0.0%float
               end = 0.0%float).
  { destruct (Context scan !! "supply_chain_drift") as [[]|] eqn:H; try done.
    by destruct (Hdrift f). }
  assert (Hc : match vuln_Metadata vuln !! "llm_confidence" with
               | Some (VFloat64 confidence) => (0.8 + confidence * 0.2)%float
               | _ => 1.0%float
               end = 1.0%float).
  { destruct (vuln_Metadata vuln !! "llm_confidence") as [[]|] eqn:H; try done.
    by destruct (Hconf f). }
  rewrite Hd, Hc. unfold Spec.severityWeight, Spec.exploitCoeff.
  repeat case_decide; destruct (vuln_Exploitable vuln); split; by vm_compute.
Qed.

(** X12. Without supply-chain drift in the scan's context and without
    an LLM confidence in the vulnerability's metadata (a value that is
    not a float64 counts as absent), the risk score is the severity
    weight times the exploit coefficient, exactly, and so never above
    15.0: short of the high-risk threshold of 70.  A scoring phase over
    such vulnerabilities leaves the high-risk counter where it was. *)
Theorem X12_plain_scores (w : World) :
  o_scorer (orch w) = NewEngine ->
  (forall drift,
     Context (o_scan (orch w)) !! "supply_chain_drift" <> Some (VFloat64 drift)) ->
  (forall vuln conf,
     vuln ∈ Vulnerabilities (Results (o_scan (orch w))) ->
     vuln_Metadata vuln !! "llm_confidence" <> Some (VFloat64 conf)) ->
  (forall vuln,
     vuln ∈ Vulnerabilities (Results (o_scan (orch w))) ->
     CalculateRiskScore NewEngine vuln (o_scan (orch w))
     = (Spec.severityWeight (vuln_Severity vuln)
        * Spec.exploitCoeff (vuln_Exploitable vuln))%float
     /\ (CalculateRiskScore NewEngine vuln (o_scan (orch w)) <=? 15)%float = true
     /\ Spec.high_risk (CalculateRiskScore NewEngine vuln (o_scan (orch w))) = false)
  /\ HighRiskVulns (summary_of (orch (runScoringPhase w).1))
     = HighRiskVulns (summary_of (orch w))
  /\ (forall vuln,
        vuln ∈ Vulnerabilities (Results (o_scan (orch (runScoringPhase w).1))) ->
        (vuln_RiskScore vuln <=? 15)%float = true).
Proof.
  intros Hengine Hdrift Hconf.
  assert (Hplain : forall vuln,
            vuln ∈ Vulnerabilities (Results (o_scan (orch w))) ->
            CalculateRiskScore NewEngine vuln (o_scan (orch w))
            = (Spec.severityWeight (vuln_Severity vuln)
               * Spec.exploitCoeff (vuln_Exploitable vuln))%float
            /\ (CalculateRiskScore NewEngine vuln (o_scan (orch w)) <=? 15)%float = true
            /\ Spec.high_risk (CalculateRiskScore NewEngine vuln (o_scan (orch w)))
               = false).
  { intros vuln Hin.
    destruct (plain_score vuln (o_scan (orch w)) Hdrift (fun conf => Hconf vuln conf Hin))
      as [Heq Hle].
    split_and!; try done. rewrite Heq.
    unfold Spec.severityWeight, Spec.exploitCoeff, Spec.high_risk.
    repeat case_decide; destruct (vuln_Exploitable vuln); by vm_compute. }
  destruct (runScoringPhase_scores w) as [Hvulns Hcount]. cbn zeta in Hvulns, Hcount.
  rewrite Hengine in Hvulns, Hcount.
  split_and!; [exact Hplain| |].
  - rewrite Hcount. clear Hcount Hvulns.
    generalize (HighRiskVulns (summary_of (orch w))).
    induction (Vulnerabilities (Results (o_scan (orch w)))) as [|vuln vulns IH];
      intros hr; [done|].
    cbn [foldl]. destruct (Hplain vuln) as (_ & _ & ->); [left|].
    apply IH; intros; [apply Hconf|apply Hplain]; by right.
  - intros vuln. rewrite Hvulns. intros (v & -> & Hin)%list_elem_of_fmap.
    by destruct (Hplain v Hin) as (_ & ? & _).
Qed.

Lemma X12_plain_scores_witness :
  HighRiskVulns
    (summary_of
       (orch (runScoringPhase
                (on_orch
                   (store_executed [])
                   (mkWorld
                      (set_scan
                         (AddVulnerability
                            (mkVulnerability "V-1" "rce" "" "critical" 0 "" "10.0.0.1" 22
                               "ssh" "" "" "" [] 0 true
                               (<["llm_confidence" := VString "high"]> ∅))
                            (Examples.scan0 false))
                         (Examples.orchestrator0 false))
                      None))).1))
  = 0.
Proof.
  refine (proj1 (proj2 (X12_plain_scores _ _ _ _))).
  - reflexivity.
  - intros drift. by vm_compute.
  - intros vuln conf Hin. apply list_elem_of_singleton in Hin as ->. by vm_compute.
Defined.

(** ** What the scoring phase leaves behind *)

Lemma updateScanSummary_frame (o : Orchestrator) :
  let o' := updateScanSummary o in
  Hosts (Results (o_scan o')) = Hosts (Results (o_scan o))
  /\ Vulnerabilities (Results (o_scan o')) = Vulnerabilities (Results (o_scan o))
  /\ Patches (Results (o_scan o')) = Patches (Results (o_scan o))
  /\ BleedingEdge (Results (o_scan o')) = BleedingEdge (Results (o_scan o))
  /\ Context (o_scan o') = Context (o_scan o)
  /\ Logger (o_scan o') = Logger (o_scan o)
  /\ HighRiskVulns (summary_of o') = HighRiskVulns (summary_of o)
  /\ ScanDuration (summary_of o') = ScanDuration (summary_of o)
  /\ RiskScore (summary_of o') = RiskScore (summary_of o)
  /\ ModulesExecuted (summary_of o') = ModulesExecuted (summary_of o).
Proof.
  cbn zeta. unfold updateScanSummary.
  destruct (count_ports _) as [tp op].
  destruct (count_vulns _) as [[[[c h] m] l] e].
  by proj_simpl.
Qed.

Lemma runScoringPhase_post (w : World) :
  let o := orch w in
  let o' := orch (runScoringPhase w).1 in
  RiskScore (summary_of o')
  = CalculateOverallRiskScore (o_scorer o) (Vulnerabilities (Results (o_scan o')))
  /\ Hosts (Results (o_scan o')) = Hosts (Results (o_scan o))
  /\ Patches (Results (o_scan o')) = Patches (Results (o_scan o))
  /\ BleedingEdge (Results (o_scan o')) = BleedingEdge (Results (o_scan o))
  /\ Context (o_scan o') = Context (o_scan o)
  /\ ScanDuration (summary_of o') = ScanDuration (summary_of o)
  /\ ModulesExecuted (summary_of o') = ModulesExecuted (summary_of o)
  /\ Logger (o_scan o')
     = Logger (o_scan o) ++ [mkLogEntry LvlInfo [] "📊 Calculating risk scores"].
Proof.
  cbn zeta. unfold runScoringPhase. cbn [fst orch].
  set (o1 := olog LvlInfo [] _ (orch w)).
  pose proof (score_range_spec o1 (Vulnerabilities (Results (o_scan o1))) []
                (HighRiskVulns (summary_of o1))) as Hloop.
  cbn [app length] in Hloop. rewrite with_scores_id in Hloop.
  rewrite Hloop. clear Hloop.
  match goal with
  | |- context [updateScanSummary ?x] =>
      destruct (updateScanSummary_frame x)
        as (Hh & Hv & Hp & Hb & Hc & Hl & _ & Hd & Hr & Hm)
  end.
  cbn zeta in *.
  rewrite Hh, Hv, Hp, Hb, Hc, Hl, Hd, Hr, Hm.
  unfold Spec.with_scores, set_SummaryRiskScore; subst o1; proj_simpl.
  split_and!; done.
Qed.

(** X13. What the scoring phase leaves behind.  It never fails and does
    not touch [ctx].  Every vulnerability carries its freshly computed
    score, and the summary's risk score is the overall score of the
    rescored list.  Hosts, patches, bleeding-edge results, the scan
    context, the recorded duration and the audit trail are untouched,
    and the log gains one entry.  Scoring again changes neither the
    vulnerabilities nor the summary's risk score: only the high-risk
    counter moves. *)
Theorem X13_scoring_phase (w : World) :
  let o := orch w in
  let r := runScoringPhase w in
  let o' := orch r.1 in
  let o'' := orch (runScoringPhase r.1).1 in
  let score := fun vuln => CalculateRiskScore (o_scorer o) vuln (o_scan o) in
  r.2 = None
  /\ ctx r.1 = ctx w
  /\ Vulnerabilities (Results (o_scan o'))
     = (fun vuln => set_RiskScore (score vuln) vuln)
       <$> Vulnerabilities (Results (o_scan o))
  /\ RiskScore (summary_of o')
     = CalculateOverallRiskScore (o_scorer o) (Vulnerabilities (Results (o_scan o')))
  /\ Hosts (Results (o_scan o')) = Hosts (Results (o_scan o))
  /\ Patches (Results (o_scan o')) = Patches (Results (o_scan o))
  /\ BleedingEdge (Results (o_scan o')) = BleedingEdge (Results (o_scan o))
  /\ Context (o_scan o') = Context (o_scan o)
  /\ ScanDuration (summary_of o') = ScanDuration (summary_of o)
  /\ ModulesExecuted (summary_of o') = ModulesExecuted (summary_of o)
  /\ Logger (o_scan o')
     = Logger (o_scan o) ++ [mkLogEntry LvlInfo [] "📊 Calculating risk scores"]
  /\ Vulnerabilities (Results (o_scan o'')) = Vulnerabilities (Results (o_scan o'))
  /\ RiskScore (summary_of o'') = RiskScore (summary_of o').
Proof.
  cbn zeta.
  destruct (runScoringPhase_post w) as (Hr & Hh & Hp & Hb & Hc & Hd & Hm & Hl).
  destruct (runScoringPhase_post (runScoringPhase w).1) as (Hr2 & _).
  destruct (runScoringPhase_scores w) as [Hv _].
  destruct (runScoringPhase_scores (runScoringPhase w).1) as [Hv2 _].
  cbn zeta in *.
  assert (Hsc : o_scorer (orch (runScoringPhase w).1) = o_scorer (orch w)).
  { pose proof (runScoringPhase_fixtures w) as Hf. unfold fixtures in Hf. congruence. }
  assert (Hsame : Vulnerabilities (Results (o_scan (orch (runScoringPhase (runScoringPhase w).1).1)))
                  = Vulnerabilities (Results (o_scan (orch (runScoringPhase w).1)))).
  { rewrite Hv2, Hv, <- list_fmap_compose. apply list_fmap_ext.
    intros _ vuln _. cbn [compose]. rewrite Hsc.
    rewrite (CalculateRiskScore_context _ _ _ (o_scan (orch w))) by done.
    reflexivity. }
  split_and!; try done.
  rewrite Hr2, Hr, Hsame, Hsc. done.
Qed.

(** ** The summary counts *)

Lemma severity_bucket (severity : string) :
  (if bool_decide (severity = "critical") then 1 else 0)
  + (if bool_decide (severity = "high") then 1 else 0)
  + (if bool_decide (severity = "medium") then 1 else 0)
  + (if bool_decide (severity = "low") then 1 else 0)
  = if bool_decide (severity ∈ ["critical"; "high"; "medium"; "low"]) then 1 else 0.
Proof.
  destruct (decide (severity = "critical")) as [->|H1]; [by vm_compute|].
  destruct (decide (severity = "high")) as [->|H2]; [by vm_compute|].
  destruct (decide (severity = "medium")) as [->|H3]; [by vm_compute|].
  destruct (decide (severity = "low")) as [->|H4]; [by vm_compute|].
  rewrite !bool_decide_eq_false_2; try done.
  intros Hin. repeat (apply elem_of_cons in Hin as [?|Hin]; [done|]).
  by apply elem_of_nil in Hin.
Qed.

Lemma severity_buckets (vulns : list Vulnerability) :
  Spec.count (Spec.has_severity "critical") vulns
  + Spec.count (Spec.has_severity "high") vulns
  + Spec.count (Spec.has_severity "medium") vulns
  + Spec.count (Spec.has_severity "low") vulns
  = Spec.count (fun vuln =>
                  bool_decide (vuln_Severity vuln
                               ∈ ["critical"; "high"; "medium"; "low"])) vulns.
Proof.
  induction vulns as [|vuln vulns IH]; [done|].
  rewrite !count_cons. pose proof (severity_bucket (vuln_Severity vuln)) as Hb.
  unfold Spec.has_severity in *. lia.
Qed.

(** X14. The summary after [updateScanSummary], for results whose
    lengths fit an int: every counter is the exact count, alive hosts
    are among the hosts, open ports among the ports, exploitable
    vulnerabilities among the vulnerabilities, and the four severity
    buckets are disjoint: together they count the vulnerabilities
    labelled critical, high, medium or low, so their sum falls short of
    the total by the number of vulnerabilities with any other label. *)
Theorem X14_summary_counts (o : Orchestrator) :
  let hosts := Hosts (Results (o_scan o)) in
  let vulns := Vulnerabilities (Results (o_scan o)) in
  let summary := summary_of (updateScanSummary o) in
  len hosts <= MaxInt ->
  len (Spec.all_ports hosts) <= MaxInt ->
  len vulns <= MaxInt ->
  (AliveHosts summary = Spec.count Spec.alive hosts
   /\ 0 <= AliveHosts summary <= TotalHosts summary)
  /\ (TotalPorts summary = len (Spec.all_ports hosts)
      /\ OpenPorts summary = Spec.count Spec.is_open (Spec.all_ports hosts)
      /\ 0 <= OpenPorts summary <= TotalPorts summary)
  /\ (ExploitableVulns summary = Spec.count vuln_Exploitable vulns
      /\ 0 <= ExploitableVulns summary <= TotalVulns summary)
  /\ CriticalVulns summary + HighVulns summary + MediumVulns summary
     + LowVulns summary
     = TotalVulns summary
       - Spec.count (fun vuln =>
                       negb (bool_decide (vuln_Severity vuln
                                          ∈ ["critical"; "high"; "medium"; "low"])))
           vulns
  /\ 0 <= CriticalVulns summary /\ 0 <= HighVulns summary
  /\ 0 <= MediumVulns summary /\ 0 <= LowVulns summary.
Proof.
  cbn zeta. intros Hhosts Hports Hvulns.
  unfold updateScanSummary, count_ports, count_vulns.
  rewrite count_ports_from, count_vulns_from by apply int_range_0.
  rewrite count_alive_spec. proj_simpl. rewrite !Z.add_0_l.
  pose proof (count_bounds Spec.alive (Hosts (Results (o_scan o)))).
  pose proof (count_bounds Spec.is_open (Spec.all_ports (Hosts (Results (o_scan o))))).
  pose proof (len_nonneg (Spec.all_ports (Hosts (Results (o_scan o))))).
  pose proof (count_bounds vuln_Exploitable (Vulnerabilities (Results (o_scan o)))).
  pose proof (count_bounds (Spec.has_severity "critical")
                (Vulnerabilities (Results (o_scan o)))).
  pose proof (count_bounds (Spec.has_severity "high")
                (Vulnerabilities (Results (o_scan o)))).
  pose proof (count_bounds (Spec.has_severity "medium")
                (Vulnerabilities (Results (o_scan o)))).
  pose proof (count_bounds (Spec.has_severity "low")
                (Vulnerabilities (Results (o_scan o)))).
  assert (Hmin : MinInt <= 0) by done.
  rewrite !int_wrap_small by (unfold int_range; lia).
  pose proof (severity_buckets (Vulnerabilities (Results (o_scan o)))) as Hb.
  assert (Hsplit : forall (p : Vulnerability -> bool) l,
            Spec.count p l + Spec.count (fun x => negb (p x)) l = len l).
  { intros p l. induction l as [|x l IH]; [done|].
    rewrite !count_cons. unfold len in *. cbn [length].
    destruct (p x); cbn [negb]; lia. }
  specialize (Hsplit (fun vuln => bool_decide (vuln_Severity vuln
                                    ∈ ["critical"; "high"; "medium"; "low"]))
                (Vulnerabilities (Results (o_scan o)))).
  cbn beta in Hsplit.
  split_and!; lia.
Qed.

Lemma X14_summary_counts_witness :
  let summary := summary_of (updateScanSummary (orch Examples.drifting_world)) in
  CriticalVulns summary + HighVulns summary + MediumVulns summary + LowVulns summary
  = TotalVulns summary
    - Spec.count (fun vuln =>
                    negb (bool_decide (vuln_Severity vuln
                                       ∈ ["critical"; "high"; "medium"; "low"])))
        (Vulnerabilities (Results (o_scan (orch Examples.drifting_world)))).
Proof.
  refine (proj1 (proj2 (proj2 (proj2
            (X14_summary_counts (orch Examples.drifting_world) _ _ _))))); by vm_compute.
Defined.

(** ** The terminal interface *)

Lemma last_index_exact (m : TUI.model) :
  TUI.well_formed m -> TUI.last_index m = len (TUI.choices m) - 1.
Proof.
  intros (Hlen & _). unfold TUI.last_index. apply int_wrap_small.
  unfold int_range, MinInt, MaxInt in *. lia.
Qed.

Lemma Update_well_formed (msg : TUI.Msg) (m : TUI.model) :
  TUI.well_formed m -> TUI.well_formed (TUI.Update msg m).1.
Proof.
  intros Hwf. pose proof (last_index_exact m Hwf) as Hlast.
  destruct Hwf as (Hlen & Hcur & Hsel).
  destruct msg as [key|]; [|done]. unfold TUI.Update. rewrite Hlast.
  repeat case_decide; cbn [fst]; try done; unfold TUI.well_formed;
    cbn [TUI.choices TUI.cursor TUI.selected]; split_and!; try done; try lia.
  - rewrite int_wrap_small; [lia|]. unfold int_range, MinInt, MaxInt in *. lia.
  - rewrite int_wrap_small; [lia|]. unfold int_range, MinInt, MaxInt in *. lia.
  - unfold int_incr. rewrite int_wrap_small; [lia|].
    unfold int_range, MinInt, MaxInt in *. lia.
  - unfold int_incr. rewrite int_wrap_small; [lia|].
    unfold int_range, MinInt, MaxInt in *. lia.
  - intros i [Hi _]%elem_of_difference. by apply Hsel.
  - intros i [->%elem_of_singleton|Hi]%elem_of_union; [lia|by apply Hsel].
Qed.

Lemma Updates_well_formed (msgs : list TUI.Msg) (m : TUI.model) :
  TUI.well_formed m -> TUI.well_formed (TUI.Updates msgs m).
Proof.
  revert m. induction msgs as [|msg msgs IH]; intros m Hwf; [done|].
  apply IH. by apply Update_well_formed.
Qed.

Lemma initialModel_well_formed : TUI.well_formed TUI.initialModel.
Proof.
  split_and!; done.
Qed.

Lemma Update_choices (msg : TUI.Msg) (m : TUI.model) :
  TUI.choices (TUI.Update msg m).1 = TUI.choices m.
Proof.
  destruct msg as [key|]; [|done]. unfold TUI.Update.
  by repeat case_decide.
Qed.

Lemma Updates_choices (msgs : list TUI.Msg) (m : TUI.model) :
  TUI.choices (TUI.Updates msgs m) = TUI.choices m.
Proof.
  revert m. induction msgs as [|msg msgs IH]; intros m; [done|].
  unfold TUI.Updates in *. cbn [foldl]. by rewrite IH, Update_choices.
Qed.

Lemma menu_line_cursor (m : TUI.model) (i : Z) (choice : string) :
  String.prefix ">" (TUI.menu_line m i choice) = true <-> TUI.cursor m = i.
Proof.
  unfold TUI.menu_line. by destruct (decide (TUI.cursor m = i)).
Qed.

Lemma cursor_lines_count (m : TUI.model) (i : Z) (l : list string) :
  len (TUI.cursor_lines (TUI.menu_lines m i l))
  = if decide (i <= TUI.cursor m < i + len l) then 1 else 0.
Proof.
  revert i. induction l as [|choice l IH]; intros i.
  - unfold len. cbn. case_decide; [lia|done].
  - cbn [TUI.menu_lines]. unfold TUI.cursor_lines in *.
    rewrite filter_cons. specialize (IH (i + 1)).
    pose proof (menu_line_cursor m i choice) as Hline.
    destruct (decide (String.prefix ">" (TUI.menu_line m i choice) = true)) as [Hp|Hp].
    + apply Hline in Hp. unfold len in *. cbn [length].
      rewrite Nat2Z.inj_succ, IH. repeat case_decide; lia.
    + assert (TUI.cursor m <> i) by tauto. unfold len in *. cbn [length].
      rewrite IH. repeat case_decide; lia.
Qed.

(** X15. The menu of the terminal interface.  Whatever messages
    arrive, the choices stay the five of [initialModel], the cursor
    stays on one of them, and the last one, Exit, is never among the
    selected.  [Update] asks to quit exactly on [ctrl+c], on [q], and on
    [enter] or space with the cursor on the last entry, and then
    returns the model as it is; any message that is not one of the
    eight keys changes nothing.  [enter] on another entry toggles it, so
    twice restores the model; [down] and [up] undo each other away from
    the ends.  [View] marks exactly one line with the cursor. *)
Theorem X15_menu (msgs : list TUI.Msg) (msg : TUI.Msg) :
  let m := TUI.Updates msgs TUI.initialModel in
  (TUI.choices m = TUI.choices TUI.initialModel
   /\ 0 <= TUI.cursor m <= 4
   /\ (4 ∉ TUI.selected m)
   /\ (forall i, i ∈ TUI.selected m -> 0 <= i <= 3))
  /\ ((TUI.Update msg m).2 = Some TUI.Quit <-> TUI.quits msg m)
  /\ (TUI.quits msg m -> (TUI.Update msg m).1 = m)
  /\ ((forall key, key ∈ ["ctrl+c"; "q"; "up"; "k"; "down"; "j"; "enter"; " "] ->
       msg <> TUI.KeyMsg key) ->
      TUI.Update msg m = (m, None))
  /\ (forall key, key = "enter" \/ key = " " -> TUI.cursor m <> 4 ->
      TUI.Update (TUI.KeyMsg key) (TUI.Update (TUI.KeyMsg key) m).1 = (m, None)
      /\ (TUI.cursor m ∈ TUI.selected (TUI.Update (TUI.KeyMsg key) m).1
          <-> TUI.cursor m ∉ TUI.selected m))
  /\ (forall down up, down = "down" \/ down = "j" -> up = "up" \/ up = "k" ->
      (TUI.cursor m < 4 ->
       TUI.Update (TUI.KeyMsg up) (TUI.Update (TUI.KeyMsg down) m).1 = (m, None))
      /\ (0 < TUI.cursor m ->
          TUI.Update (TUI.KeyMsg down) (TUI.Update (TUI.KeyMsg up) m).1 = (m, None)))
  /\ len (TUI.cursor_lines (TUI.menu_lines m 0 (TUI.choices m))) = 1.
Proof.
  cbn zeta.
  pose proof (Updates_well_formed msgs _ initialModel_well_formed) as Hwf.
  pose proof (Updates_choices msgs TUI.initialModel) as Hch.
  pose proof (last_index_exact _ Hwf) as Hlast.
  revert Hwf Hch Hlast. generalize (TUI.Updates msgs TUI.initialModel).
  intros [ch cur sel] (Hlen & Hcur & Hsel) Hch Hlast.
  cbn [TUI.choices TUI.cursor TUI.selected] in *. subst ch.
  change (len (TUI.choices TUI.initialModel)) with 5 in *.
  split; [|split; [|split; [|split; [|split; [|split]]]]].
  - split_and!; try done; try lia.
    + intros H4. apply Hsel in H4. lia.
    + intros i Hi. apply Hsel in Hi. lia.
  - destruct msg as [key|]; [|done]. unfold TUI.Update, TUI.quits. rewrite Hlast.
    cbn [TUI.choices TUI.cursor TUI.selected].
    change (len (TUI.choices TUI.initialModel)) with 5.
    repeat case_decide; cbn [snd]; split; try done;
      intuition (try congruence; try lia).
  - destruct msg as [key|]; [|done]. unfold TUI.Update, TUI.quits. rewrite Hlast.
    cbn [TUI.choices TUI.cursor TUI.selected].
    change (len (TUI.choices TUI.initialModel)) with 5.
    repeat case_decide; cbn [fst]; try done; intros Hq; exfalso;
      intuition (try congruence; try lia).
  - intros Hkeys. destruct msg as [key|]; [|done]. unfold TUI.Update.
    assert (Hk : forall k,
              k ∈ ["ctrl+c"; "q"; "up"; "k"; "down"; "j"; "enter"; " "] -> key <> k).
    { intros k Hin ->. by apply (Hkeys k). }
    rewrite !decide_False; [done|..]; intros [?|?]; subst key;
      eapply Hk; try reflexivity;
      repeat first [apply list_elem_of_here|apply list_elem_of_further].
  - intros key Hkey Hne.
    assert (Hup : TUI.Update (TUI.KeyMsg key)
                  = fun m =>
                      if decide (TUI.cursor m = TUI.last_index m) then (m, Some TUI.Quit)
                      else if decide (TUI.cursor m ∈ TUI.selected m)
                      then (TUI.mkModel (TUI.choices m) (TUI.cursor m)
                              (TUI.selected m ∖ {[TUI.cursor m]}), None)
                      else (TUI.mkModel (TUI.choices m) (TUI.cursor m)
                              ({[TUI.cursor m]} ∪ TUI.selected m), None)).
    { unfold TUI.Update. destruct Hkey as [-> | ->]; reflexivity. }
    rewrite Hup. unfold TUI.last_index.
    cbn [TUI.choices TUI.cursor TUI.selected fst].
    change (int_wrap (len (TUI.choices TUI.initialModel) - 1)) with 4.
    rewrite (decide_False (P := cur = 4)) by done.
    destruct (decide (cur ∈ sel)) as [Hin|Hnin];
      cbn [TUI.choices TUI.cursor TUI.selected fst];
      change (int_wrap (len (TUI.choices TUI.initialModel) - 1)) with 4;
      rewrite (decide_False (P := cur = 4)) by done.
    + rewrite decide_False by (rewrite elem_of_difference, elem_of_singleton; tauto).
      split.
      * do 2 f_equal. apply set_eq. intros x.
        rewrite elem_of_union, elem_of_difference, elem_of_singleton.
        destruct (decide (x = cur)) as [->|]; tauto.
      * rewrite elem_of_difference, elem_of_singleton. tauto.
    + rewrite decide_True by (rewrite elem_of_union, elem_of_singleton; tauto).
      split.
      * do 2 f_equal. apply set_eq. intros x.
        rewrite elem_of_difference, elem_of_union, elem_of_singleton.
        destruct (decide (x = cur)) as [->|]; tauto.
      * rewrite elem_of_union, elem_of_singleton. tauto.
  - intros down up Hdown Hup.
    assert (Hd : TUI.Update (TUI.KeyMsg down)
                 = fun m =>
                     (if decide (TUI.cursor m < TUI.last_index m)
                      then TUI.mkModel (TUI.choices m) (int_incr (TUI.cursor m))
                             (TUI.selected m)
                      else m, None)).
    { unfold TUI.Update. destruct Hdown as [-> | ->]; reflexivity. }
    assert (Hu : TUI.Update (TUI.KeyMsg up)
                 = fun m =>
                     (if decide (0 < TUI.cursor m)
                      then TUI.mkModel (TUI.choices m) (int_wrap (TUI.cursor m - 1))
                             (TUI.selected m)
                      else m, None)).
    { unfold TUI.Update. destruct Hup as [-> | ->]; reflexivity. }
    rewrite Hd, Hu. unfold TUI.last_index, int_incr.
    cbn [TUI.choices TUI.cursor TUI.selected fst].
    change (int_wrap (len (TUI.choices TUI.initialModel) - 1)) with 4.
    assert (Hw : forall z, -1 <= z <= 5 -> int_wrap z = z).
    { intros z Hz. apply int_wrap_small. unfold int_range, MinInt, MaxInt. lia. }
    split; intros Hc.
    + destruct (decide (cur < 4)) as [_|?]; [|lia].
      cbn [TUI.cursor TUI.choices TUI.selected].
      rewrite (Hw (cur + 1)) by lia.
      destruct (decide (0 < cur + 1)) as [_|?]; [|lia].
      rewrite Hw by lia. do 2 f_equal. lia.
    + destruct (decide (0 < cur)) as [_|?]; [|lia].
      cbn [TUI.cursor TUI.choices TUI.selected].
      change (int_wrap (len (TUI.choices TUI.initialModel) - 1)) with 4.
      rewrite (Hw (cur - 1)) by lia.
      destruct (decide (cur - 1 < 4)) as [_|?]; [|lia].
      rewrite Hw by lia. do 2 f_equal. lia.
  - rewrite cursor_lines_count. cbn [TUI.choices TUI.cursor].
    change (len (TUI.choices TUI.initialModel)) with 5.
    rewrite decide_True; [done|lia].
Qed.

(** ** The module table *)

Lemma truncate_length (desc : string) :
  Z.of_nat (String.length (Listing.truncate desc))
  = Z.min (Z.of_nat (String.length desc)) 60.
Proof.
  unfold Listing.truncate. case_decide as Hlen; [|lia].
  rewrite length_app_string.
  assert (Hsub : forall n s, (n <= String.length s)%nat ->
                   String.length (String.substring 0 n s) = n).
  { induction n as [|n IH]; intros [|c s] Hn; cbn in *; try done; try lia.
    rewrite IH; [done|lia]. }
  rewrite Hsub by lia. cbn. lia.
Qed.

Lemma group_snoc (reg : Registry) (names : list string) (name : string) :
  Listing.group reg (names ++ [name])
  = categories ← Listing.group reg names;
    module ← reg !! name;
    Some (<[Category module :=
              default [] (categories !! Category module) ++ [name]]> categories).
Proof. unfold Listing.group. by rewrite foldl_app. Qed.

Lemma group_spec (reg : Registry) (names : list string) :
  (forall name, name ∈ names -> is_Some (reg !! name)) ->
  exists categories,
    Listing.group reg names = Some categories
    /\ forall category,
         categories !! category
         = match filter (fun name => Category <$> reg !! name = Some category) names with
           | [] => None
           | l => Some l
           end.
Proof.
  induction names as [|name names IH] using rev_ind; intros Hkeys.
  - exists ∅. split; [done|]. intros category. by rewrite lookup_empty.
  - destruct IH as (categories & Hg & Hcat).
    { intros n Hn. apply Hkeys. apply elem_of_app. by left. }
    destruct (Hkeys name) as [module Hm].
    { apply elem_of_app. right. apply list_elem_of_singleton. done. }
    eexists. split.
    { rewrite group_snoc, Hg. cbn. rewrite Hm. cbn. reflexivity. }
    intros category. rewrite filter_app, filter_cons, filter_nil, Hm. cbn [fmap option_fmap option_map].
    destruct (decide (Category module = category)) as [<-|Hne].
    + rewrite lookup_insert_eq, Hcat. rewrite decide_True by done.
      by destruct (filter _ names).
    + rewrite lookup_insert_ne by done. rewrite Hcat.
      rewrite decide_False by congruence. by rewrite app_nil_r.
Qed.

Lemma rows_spec (reg : Registry) (category : string) (moduleNames : list string) :
  (forall name, name ∈ moduleNames -> is_Some (reg !! name)) ->
  mapM (fun name => module ← reg !! name; Some (Listing.row category name module))
    moduleNames
  = Some (Listing.row_of reg category <$> moduleNames).
Proof.
  induction moduleNames as [|name l IH]; intros Hkeys; [done|].
  destruct (Hkeys name) as [module Hm]; [left|].
  cbn. rewrite Hm. cbn. rewrite IH by (intros n Hn; apply Hkeys; by right).
  cbn. unfold Listing.row_of at 2. by rewrite Hm.
Qed.

Lemma sorted_keys (reg : Registry) (keys : list string) :
  keys ≡ₚ (map_to_list reg).*1 ->
  merge_sort String.le keys = merge_sort String.le (map_to_list reg).*1.
Proof.
  intros Hperm. apply (Sorted_unique String.le).
  - apply Sorted_merge_sort; apply _.
  - apply Sorted_merge_sort; apply _.
  - by rewrite !merge_sort_Permutation.
Qed.

Lemma elem_of_sorted_keys (reg : Registry) (name : string) :
  name ∈ merge_sort String.le (map_to_list reg).*1 <-> is_Some (reg !! name).
Proof.
  rewrite merge_sort_Permutation, list_elem_of_fmap. split.
  - intros ([k m] & -> & Hin). apply elem_of_map_to_list in Hin. by exists m.
  - intros [m Hm]. exists (name, m). split; [done|]. by apply elem_of_map_to_list.
Qed.

Lemma ListModules_from_spec (keys : list string) (reg : Registry) :
  keys ≡ₚ (map_to_list reg).*1 ->
  Listing.ListModules_from keys reg
  = Some (if decide (reg = ∅) then Listing.NoModulesRegistered
          else
            Listing.Table
              ((Listing.row_of reg "stable" <$> Listing.names_of reg "stable")
               ++ match Listing.names_of reg "bleeding-edge" with
                  | [] => []
                  | l => Listing.separator :: (Listing.row_of reg "bleeding-edge" <$> l)
                  end)).
Proof.
  intros Hperm. unfold Listing.ListModules_from.
  destruct (decide (reg = ∅)) as [->|Hne].
  { by rewrite map_size_empty, decide_True. }
  rewrite decide_False; last first.
  { intros Hsize. apply Hne, map_size_empty_iff. lia. }
  cbv zeta. rewrite (sorted_keys reg keys Hperm).
  destruct (group_spec reg (merge_sort String.le (map_to_list reg).*1))
    as (categories & -> & Hcat).
  { intros name. apply elem_of_sorted_keys. }
  cbn [mbind option_bind foldl]. unfold Listing.category_rows.
  rewrite !Hcat. fold (Listing.names_of reg "stable").
  fold (Listing.names_of reg "bleeding-edge").
  assert (Hkeys : forall category name,
            name ∈ Listing.names_of reg category -> is_Some (reg !! name)).
  { intros category name [_ Hin]%list_elem_of_filter. by apply elem_of_sorted_keys. }
  pose proof (rows_spec reg "stable" _ (Hkeys "stable")) as Hs.
  pose proof (rows_spec reg "bleeding-edge" _ (Hkeys "bleeding-edge")) as Hb.
  destruct (Listing.names_of reg "stable") as [|s1 ls] eqn:Hstable;
    destruct (Listing.names_of reg "bleeding-edge") as [|b1 lb] eqn:Hbleeding;
    rewrite ?Hs, ?Hb; cbn [mbind option_bind]; reflexivity.
Qed.

(** X16. The module table.  [ListModules] never calls a method on a
    missing module, and what it prints does not depend on the order in
    which the range over the registry yields the names.  An empty
    registry gets the notice and no table.  Otherwise the table shows
    the stable modules and then, after one separator row, the
    bleeding-edge modules (the separator is there exactly when there is
    such a module, also when there is no stable one), each group sorted
    by name with every name once; a module of any other category is
    not shown at all.  A description of more than 60 bytes is cut to
    its first 57 followed by three dots, so no description cell is
    longer than 60 bytes. *)
Theorem X16_ListModules (reg : Registry) (keys : list string) :
  keys ≡ₚ (map_to_list reg).*1 ->
  let stable := Listing.names_of reg "stable" in
  let bleeding := Listing.names_of reg "bleeding-edge" in
  Listing.ListModules_from keys reg = Listing.ListModules reg
  /\ (reg = ∅ -> Listing.ListModules reg = Some Listing.NoModulesRegistered)
  /\ (reg <> ∅ ->
      Listing.ListModules reg
      = Some (Listing.Table
                ((Listing.row_of reg "stable" <$> stable)
                 ++ match bleeding with
                    | [] => []
                    | l => Listing.separator
                           :: (Listing.row_of reg "bleeding-edge" <$> l)
                    end)))
  /\ (forall category name,
        name ∈ Listing.names_of reg category
        <-> exists module, reg !! name = Some module /\ Category module = category)
  /\ (forall category,
        StronglySorted String.le (Listing.names_of reg category)
        /\ NoDup (Listing.names_of reg category))
  /\ (forall category name module,
        reg !! name = Some module ->
        Listing.row_of reg category name
        = [if decide (category = "stable") then Listing.GreenString name
           else Listing.MagentaString name;
           if decide (category = "stable") then Listing.GreenString category
           else Listing.MagentaString category;
           Listing.Plain (Version module); Listing.Plain (Author module);
           Listing.Plain (Listing.truncate (Description module))])
  /\ (forall desc,
        Z.of_nat (String.length (Listing.truncate desc))
        = Z.min (Z.of_nat (String.length desc)) 60
        /\ (Z.of_nat (String.length desc) <= 60 -> Listing.truncate desc = desc)
        /\ (60 < Z.of_nat (String.length desc) ->
            Listing.truncate desc = String.substring 0 57 desc +:+ "...")).
Proof.
  intros Hperm. cbn zeta.
  assert (Hsorted : StronglySorted String.le
                      (merge_sort String.le (map_to_list reg).*1)).
  { apply StronglySorted_merge_sort; apply _. }
  assert (Hnodup : NoDup (merge_sort String.le (map_to_list reg).*1)).
  { rewrite merge_sort_Permutation. apply NoDup_fst_map_to_list. }
  split_and!.
  - unfold Listing.ListModules. by rewrite !ListModules_from_spec.
  - intros ->. unfold Listing.ListModules. by rewrite ListModules_from_spec.
  - intros Hne. unfold Listing.ListModules.
    rewrite ListModules_from_spec by done.
    rewrite (decide_False (P := reg = ∅)) by done.
    by destruct (Listing.names_of reg "bleeding-edge").
  - intros category name. unfold Listing.names_of.
    rewrite list_elem_of_filter, elem_of_sorted_keys. split.
    + intros [Hc [module Hm]]. exists module. rewrite Hm in Hc.
      split; [done|]. by injection Hc.
    + intros (module & Hm & <-). rewrite Hm. split; [done|by exists module].
  - intros category. unfold Listing.names_of. split.
    + clear Hnodup. induction Hsorted as [|x l Hl IH Hx]; [constructor|].
      rewrite filter_cons. case_decide; [|done].
      constructor; [done|].
      apply Forall_forall. intros y [_ Hy]%list_elem_of_filter.
      by eapply Forall_forall in Hx.
    + by apply NoDup_filter.
  - intros category name module Hm. unfold Listing.row_of. by rewrite Hm.
  - intros desc. split; [apply truncate_length|].
    unfold Listing.truncate. split; intros Hlen; case_decide; first [done|lia].
Qed.

Lemma X16_ListModules_witness :
  Listing.ListModules_from ["nmap"; "httpx"] Examples.scanners
  = Listing.ListModules Examples.scanners.
Proof.
  refine (proj1 (X16_ListModules Examples.scanners ["nmap"; "httpx"] _)).
  apply (bool_decide_unpack _). by vm_compute.
Defined.

(** ** Go strings *)

Lemma bytes_of_bytes (l : list ascii) : Strings.bytes (Strings.of_bytes l) = l.
Proof. apply String.list_ascii_of_string_of_list_ascii. Qed.

Lemma of_bytes_bytes (s : string) : Strings.of_bytes (Strings.bytes s) = s.
Proof. apply String.string_of_list_ascii_of_string. Qed.

Lemma bytes_inj (s1 s2 : string) : Strings.bytes s1 = Strings.bytes s2 -> s1 = s2.
Proof. intros H. by rewrite <- (of_bytes_bytes s1), H, of_bytes_bytes. Qed.

Lemma starts_with_spec (p l : list ascii) :
  Strings.starts_with p l = true <-> exists rest, l = p ++ rest.
Proof.
  revert l. induction p as [|a p IH]; intros l; cbn.
  - split; [by exists l|done].
  - destruct l as [|b l]; [split; [done|by intros [? ?]]|].
    rewrite andb_true_iff, Ascii.eqb_eq, IH. split.
    + intros [-> [rest ->]]. by exists rest.
    + intros [rest [= -> ->]]. eauto.
Qed.

Lemma strip_Some (patterns : list (list ascii)) (l rest : list ascii) :
  Strings.strip patterns l = Some rest ->
  exists p, p ∈ patterns /\ l = p ++ rest.
Proof.
  induction patterns as [|p patterns IH]; [done|]. cbn.
  destruct (Strings.starts_with p l) eqn:Hp.
  - intros [= <-]. apply starts_with_spec in Hp as [rest ->].
    exists p. split; [left|]. by rewrite drop_app_length.
  - intros (q & Hq & ->)%IH. exists q. split; [by right|done].
Qed.

Lemma strip_None (patterns : list (list ascii)) (l : list ascii) :
  Strings.strip patterns l = None
  <-> forall p, p ∈ patterns -> Strings.starts_with p l = false.
Proof.
  induction patterns as [|p patterns IH]; cbn.
  - split; [|done]. intros _ p Hp. by apply elem_of_nil in Hp.
  - destruct (Strings.starts_with p l) eqn:Hp.
    + split; [done|]. intros H. specialize (H p). rewrite Hp in H.
      by discriminate H; left.
    + rewrite IH. split.
      * intros H q [->|Hq]%elem_of_cons; auto.
      * intros H q Hq. apply H. by right.
Qed.

Lemma solid_spaces : Strings.solid Strings.spaces.
Proof.
  intros p Hp ->. revert Hp. apply (bool_decide_unpack _). by vm_compute.
Qed.

Lemma solid_reverse (patterns : list (list ascii)) :
  Strings.solid patterns -> Strings.solid (reverse <$> patterns).
Proof.
  intros Hs p (q & -> & Hq)%list_elem_of_fmap Hnil.
  apply (Hs q Hq). by rewrite <- (reverse_involutive q), Hnil.
Qed.

Lemma trim_fuel_spec (patterns : list (list ascii)) (fuel : nat) (l : list ascii) :
  Strings.solid patterns -> (length l <= fuel)%nat ->
  Strings.strip patterns (Strings.trim_fuel patterns fuel l) = None
  /\ exists front, l = front ++ Strings.trim_fuel patterns fuel l.
Proof.
  intros Hsolid. revert l. induction fuel as [|fuel IH]; intros l Hlen.
  - destruct l; [|cbn in Hlen; lia]. cbn. split; [|by exists []].
    apply strip_None. intros p Hp. destruct p; [by destruct (Hsolid [] Hp)|done].
  - cbn. destruct (Strings.strip patterns l) as [rest|] eqn:Hs.
    + apply strip_Some in Hs as (p & Hp & ->).
      destruct (IH rest) as [Hnone [front Hfront]].
      { pose proof (Hsolid p Hp). destruct p; [done|].
        rewrite length_app in Hlen. cbn in Hlen. lia. }
      split; [done|]. exists (p ++ front). by rewrite <- app_assoc, <- Hfront.
    + split; [done|by exists []].
Qed.

Lemma trim_fuel_fixed (patterns : list (list ascii)) (fuel : nat) (l : list ascii) :
  Strings.strip patterns l = None -> Strings.trim_fuel patterns fuel l = l.
Proof. intros H. destruct fuel; [done|]. cbn. by rewrite H. Qed.

Lemma trim_front_spec (patterns : list (list ascii)) (l : list ascii) :
  Strings.solid patterns ->
  Strings.strip patterns (Strings.trim_front patterns l) = None
  /\ exists front, l = front ++ Strings.trim_front patterns l.
Proof. intros H. by apply trim_fuel_spec. Qed.

Lemma trim_back_spec (patterns : list (list ascii)) (l : list ascii) :
  Strings.solid patterns ->
  Strings.strip (reverse <$> patterns) (reverse (Strings.trim_back patterns l)) = None
  /\ exists back, l = Strings.trim_back patterns l ++ back.
Proof.
  intros H. unfold Strings.trim_back.
  destruct (trim_front_spec (reverse <$> patterns) (reverse l) (solid_reverse _ H))
    as [Hnone [front Hfront]].
  rewrite reverse_involutive. split; [done|].
  exists (reverse front).
  by rewrite <- reverse_app, <- Hfront, reverse_involutive.
Qed.

Lemma strip_app_None (patterns : list (list ascii)) (l back : list ascii) :
  Strings.strip patterns (l ++ back) = None -> Strings.strip patterns l = None.
Proof.
  rewrite !strip_None. intros H p Hp.
  specialize (H p Hp). destruct (Strings.starts_with p l) eqn:Hpl; [|done].
  apply starts_with_spec in Hpl as [rest ->].
  rewrite <- H. symmetry. apply starts_with_spec. exists (rest ++ back).
  by rewrite app_assoc.
Qed.

Lemma trim_space_spec (l : list ascii) :
  let t := Strings.trim_space l in
  Strings.strip Strings.spaces t = None
  /\ Strings.strip (reverse <$> Strings.spaces) (reverse t) = None
  /\ exists front back, l = front ++ t ++ back.
Proof.
  cbn zeta. unfold Strings.trim_space.
  destruct (trim_front_spec Strings.spaces l solid_spaces) as [Hf [front Hfront]].
  destruct (trim_back_spec Strings.spaces (Strings.trim_front Strings.spaces l)
              solid_spaces) as [Hb [back Hback]].
  split_and!; [|done|].
  - apply (strip_app_None _ _ back). by rewrite <- Hback.
  - exists front, back. by rewrite <- Hback.
Qed.

Lemma trim_space_fixed (l : list ascii) :
  Strings.strip Strings.spaces l = None ->
  Strings.strip (reverse <$> Strings.spaces) (reverse l) = None ->
  Strings.trim_space l = l.
Proof.
  intros Hf Hb. unfold Strings.trim_space, Strings.trim_back, Strings.trim_front.
  rewrite (trim_fuel_fixed _ _ l Hf), (trim_fuel_fixed _ _ _ Hb).
  apply reverse_involutive.
Qed.

Lemma trim_space_idem (l : list ascii) :
  Strings.trim_space (Strings.trim_space l) = Strings.trim_space l.
Proof.
  destruct (trim_space_spec l) as (Hf & Hb & _). by apply trim_space_fixed.
Qed.

Lemma TrimSpace_idem (s : string) :
  Strings.TrimSpace (Strings.TrimSpace s) = Strings.TrimSpace s.
Proof.
  unfold Strings.TrimSpace. by rewrite bytes_of_bytes, trim_space_idem.
Qed.

Lemma split_cons (sep : ascii) (l : list ascii) :
  exists piece pieces, Strings.split sep l = piece :: pieces.
Proof.
  induction l as [|c l (piece & pieces & IH)]; cbn; [eauto|].
  destruct (Ascii.eqb c sep); [eauto|]. rewrite IH. eauto.
Qed.

Lemma split_pieces (sep : ascii) (l : list ascii) :
  Forall (fun piece => sep ∉ piece) (Strings.split sep l).
Proof.
  induction l as [|c l IH]; cbn.
  - constructor; [apply not_elem_of_nil|constructor].
  - destruct (Ascii.eqb_spec c sep) as [->|Hne].
    + constructor; [apply not_elem_of_nil|done].
    + destruct (Strings.split sep l) as [|piece pieces].
      * constructor; [|constructor]. by intros ->%list_elem_of_singleton.
      * inversion_clear IH as [|? ? Hpiece Hpieces]. constructor; [|done].
        intros [->|?]%elem_of_cons; done.
Qed.

Lemma split_length (sep : ascii) (l : list ascii) :
  len (Strings.split sep l) = 1 + len (filter (fun b => b = sep) l).
Proof.
  induction l as [|c l IH]; [done|]. cbn [Strings.split]. rewrite filter_cons.
  destruct (Ascii.eqb_spec c sep) as [->|Hne].
  - rewrite decide_True by done. unfold len in *. cbn [length]. lia.
  - rewrite decide_False by done.
    destruct (split_cons sep l) as (piece & pieces & Hs). rewrite Hs in *.
    unfold len in *. cbn [length] in *. lia.
Qed.

Lemma split_join (sep : ascii) (pieces : list (list ascii)) :
  pieces <> [] -> Forall (fun piece => sep ∉ piece) pieces ->
  Strings.split sep (Strings.join [sep] pieces) = pieces.
Proof.
  intros Hne Hall. induction Hall as [|piece pieces Hpiece Hall IH]; [done|].
  clear Hne.
  assert (Hone : forall rest,
            Strings.split sep (piece ++ sep :: rest) = piece :: Strings.split sep rest).
  { intros rest. induction piece as [|c piece IHp]; cbn.
    - by rewrite Ascii.eqb_refl.
    - destruct (Ascii.eqb_spec c sep) as [->|Hc]; [destruct Hpiece; left|].
      rewrite IHp; [done|]. intros Hin. apply Hpiece. by right. }
  destruct pieces as [|next pieces].
  - cbn [Strings.join]. clear IH Hone. induction piece as [|c piece IHp]; [done|].
    cbn. destruct (Ascii.eqb_spec c sep) as [->|Hc]; [destruct Hpiece; left|].
    rewrite IHp; [done|]. intros Hin. apply Hpiece. by right.
  - change (Strings.join [sep] (piece :: next :: pieces))
      with (piece ++ sep :: Strings.join [sep] (next :: pieces)).
    rewrite Hone, IH; done.
Qed.

Lemma join_split (sep : ascii) (l : list ascii) :
  Strings.join [sep] (Strings.split sep l) = l.
Proof.
  induction l as [|c l IH]; [done|]. cbn [Strings.split].
  destruct (split_cons sep l) as (piece & pieces & Hs). rewrite Hs in *.
  destruct (Ascii.eqb_spec c sep) as [->|Hne].
  - change (Strings.join [sep] ([] :: piece :: pieces))
      with (sep :: Strings.join [sep] (piece :: pieces)).
    by rewrite IH.
  - destruct pieces as [|next pieces]; cbn [Strings.join] in *; by rewrite <- IH.
Qed.

(** ** Targets from a file *)

Lemma load_loop (lines : list string) (targets : list string) :
  foldl (fun targets line =>
           let line := Strings.TrimSpace line in
           if negb (bool_decide (line = "")) && negb (Strings.HasPrefix line "#")
           then targets ++ [line]
           else targets)
        targets lines
  = targets
    ++ filter (fun line =>
                 negb (bool_decide (line = "")) && negb (Strings.HasPrefix line "#")
                 = true)
         (Strings.TrimSpace <$> lines).
Proof.
  revert targets. induction lines as [|line lines IH]; intros targets.
  - by rewrite app_nil_r.
  - cbn [foldl fmap list_fmap]. rewrite IH, filter_cons. cbv zeta.
    destruct (negb _ && negb _); [|by rewrite decide_False].
    rewrite decide_True by done. by rewrite <- app_assoc.
Qed.

Lemma infix_not_elem (c : ascii) (front l back : list ascii) :
  c ∉ front ++ l ++ back -> c ∉ l.
Proof. rewrite !elem_of_app. tauto. Qed.

Lemma clean_kept (target : string) :
  Config.clean target ->
  negb (bool_decide (Strings.TrimSpace target = ""))
  && negb (Strings.HasPrefix (Strings.TrimSpace target) "#") = true.
Proof.
  intros (Hne & Hp & -> & _). rewrite Hp, bool_decide_eq_false_2; done.
Qed.

Lemma load_clean (targets : list string) (fs : Config.FileSystem) (filename : string) :
  Forall Config.clean targets ->
  fs filename = inl (Strings.Join targets (String Strings.LF "")) ->
  Config.loadTargetsFromFile fs filename = (targets, None).
Proof.
  intros Hclean Hfs. unfold Config.loadTargetsFromFile. rewrite Hfs. f_equal.
  rewrite load_loop. cbn [app]. unfold Strings.Split, Strings.Join.
  rewrite bytes_of_bytes.
  change (Strings.bytes (String Strings.LF "")) with [Strings.LF].
  destruct targets as [|target targets]; [done|].
  rewrite split_join; [| done |].
  - rewrite <- (list_fmap_compose Strings.bytes Strings.of_bytes).
    assert (Hid : Strings.of_bytes ∘ Strings.bytes <$> target :: targets
                  = target :: targets).
    { rewrite <- (list_fmap_id (target :: targets)) at 2.
      apply list_fmap_ext. intros _ t _. apply of_bytes_bytes. }
    rewrite Hid. clear Hid Hfs.
    induction Hclean as [|t ts Ht Hts IH]; [done|].
    cbn [fmap list_fmap]. rewrite filter_cons, decide_True by by apply clean_kept.
    destruct Ht as (_ & _ & -> & _). f_equal. apply IH.
  - apply Forall_fmap. eapply Forall_impl; [exact Hclean|].
    by intros t (_ & _ & _ & ?).
Qed.

(** X17. [loadTargetsFromFile] returns the error of a file it cannot
    read, and otherwise the trimmed lines that are neither empty nor
    comments, in the order of the file.  No target it returns is empty,
    begins with [#], has white space at either end (Unicode white space
    included) or holds a line break, and there are at most as many as
    the file has lines.  Writing the targets, one per line, and loading
    them again gives the same targets; and any list of such targets
    comes back unchanged from the file that lists them. *)
Theorem X17_loadTargetsFromFile (fs : Config.FileSystem) (filename : string) :
  let r := Config.loadTargetsFromFile fs filename in
  (forall err, fs filename = inr err -> r = ([], Some err))
  /\ (forall data,
        fs filename = inl data ->
        r.2 = None
        /\ r.1 = filter (fun line =>
                           negb (bool_decide (line = ""))
                           && negb (Strings.HasPrefix line "#") = true)
                   (Strings.TrimSpace <$> Strings.Split data Strings.LF)
        /\ Forall Config.clean r.1
        /\ len r.1 <= 1 + Strings.Count data Strings.LF
        /\ forall fs' filename',
             fs' filename' = inl (Strings.Join r.1 (String Strings.LF "")) ->
             Config.loadTargetsFromFile fs' filename' = r)
  /\ (forall targets fs' filename',
        Forall Config.clean targets ->
        fs' filename' = inl (Strings.Join targets (String Strings.LF "")) ->
        Config.loadTargetsFromFile fs' filename' = (targets, None)).
Proof.
  cbn zeta. split_and!.
  - intros err Hfs. unfold Config.loadTargetsFromFile. by rewrite Hfs.
  - intros data Hfs. unfold Config.loadTargetsFromFile. rewrite Hfs.
    cbn [fst snd]. rewrite load_loop. cbn [app].
    set (targets := filter _ _).
    assert (Hclean : Forall Config.clean targets).
    { apply Forall_forall. intros t [Hkeep Hin]%list_elem_of_filter.
      apply list_elem_of_fmap in Hin as (line & -> & Hline).
      apply andb_true_iff in Hkeep as [Hne Hp].
      apply negb_true_iff in Hne, Hp. apply bool_decide_eq_false in Hne.
      split_and!; try done; [apply TrimSpace_idem|].
      unfold Strings.Split in Hline.
      apply list_elem_of_fmap in Hline as (piece & -> & Hpiece).
      pose proof (split_pieces Strings.LF (Strings.bytes data)) as Hall.
      rewrite Forall_forall in Hall. specialize (Hall piece Hpiece).
      unfold Strings.TrimSpace. rewrite !bytes_of_bytes.
      destruct (trim_space_spec piece) as (_ & _ & front & back & Heq).
      apply (infix_not_elem _ front _ back). by rewrite <- Heq. }
    split_and!; try done.
    + subst targets. unfold Strings.Count, Strings.Split.
      rewrite <- split_length. unfold len.
      etrans; [apply inj_le, length_filter|]. by rewrite !length_fmap.
    + intros fs' filename' Hfs'. by apply load_clean.
  - intros targets fs' filename'. apply load_clean.
Qed.

(** ** The shipped modules *)

Lemma adds_hosts_refl (scan : Scan) : Shipped.adds_hosts [] scan scan.
Proof. split_and!; try done. by rewrite app_nil_r. Qed.

Lemma adds_hosts_trans (h1 h2 : list HostResult) (s1 s2 s3 : Scan) :
  Shipped.adds_hosts h1 s1 s2 -> Shipped.adds_hosts h2 s2 s3 -> Shipped.adds_hosts (h1 ++ h2) s1 s3.
Proof.
  intros (H1 & F1 & S1) (H2 & F2 & S2). split_and!; try congruence.
  by rewrite H2, H1, app_assoc.
Qed.

Lemma adds_hosts_logf (lvl : Level) (fields : list (string * string)) (msg : string)
    (scan : Scan) :
  Shipped.adds_hosts [] scan (logf lvl fields msg scan).
Proof. split_and!; try done. cbn. by rewrite app_nil_r. Qed.

Lemma adds_hosts_AddHost (host : HostResult) (scan : Scan) :
  Shipped.adds_hosts [host] scan (AddHost host scan).
Proof. by split_and!. Qed.

Lemma adds_hosts_loop {A} (step : Scan -> A -> Scan) (hosts : Scan -> A -> list HostResult)
    (same : relation Scan) (l : list A) (scan : Scan) :
  (forall scan x, Shipped.adds_hosts (hosts scan x) scan (step scan x)) ->
  (forall s1 s2 x, Shipped.findings s1 = Shipped.findings s2 ->
                   hosts s1 x = hosts s2 x) ->
  Shipped.adds_hosts (concat (hosts scan <$> l)) scan (foldl step scan l).
Proof.
  intros Hstep Hsame.
  enough (H : forall start,
            Shipped.findings start = Shipped.findings scan ->
            Shipped.adds_hosts (concat (hosts scan <$> l)) start (foldl step start l))
    by by apply H.
  induction l as [|x l IH]; intros start Hstart; [apply adds_hosts_refl|].
  cbn [foldl fmap list_fmap concat].
  eapply adds_hosts_trans.
  - rewrite <- (Hsame start scan x Hstart). apply Hstep.
  - apply IH. destruct (Hstep start x) as (_ & -> & _). done.
Qed.

Lemma add_subdomains_spec (subdomains : list string) (scan : Scan) :
  Shipped.adds_hosts
    ((fun subdomain => mkHostResult "" subdomain [] [] [])
     <$> filter (fun subdomain => subdomain <> "") subdomains)
    scan (Shipped.add_subdomains subdomains scan).
Proof.
  unfold Shipped.add_subdomains. revert scan.
  induction subdomains as [|subdomain l IH]; intros scan; [apply adds_hosts_refl|].
  cbn [foldl]. rewrite filter_cons. case_decide.
  - cbn [fmap list_fmap].
    apply (adds_hosts_trans [_] _ scan _ _ (adds_hosts_AddHost _ scan)), IH.
  - apply IH.
Qed.

Lemma SubfinderRun_spec (env : Shipped.Env) (ctx : Ctx) (scan : Scan) :
  (Shipped.SubfinderRun env ctx scan).2 = None
  /\ Shipped.adds_hosts (concat (Shipped.subfinder_hosts env ctx <$> Targets scan)) scan
       (Shipped.SubfinderRun env ctx scan).1.
Proof.
  split; [done|]. unfold Shipped.SubfinderRun. cbn [fst].
  set (start := logf LvlInfo [] _ scan).
  change (Targets scan) with (Targets start).
  apply (adds_hosts_trans [] _ scan start _ (adds_hosts_logf _ _ _ _)).
  apply (adds_hosts_loop _ (fun _ target => Shipped.subfinder_hosts env ctx target) eq);
    [|done].
  intros s target. unfold Shipped.subfinder_hosts.
  destruct (_ || _); [apply adds_hosts_refl|].
  destruct (Shipped.Output env ctx "subfinder" _) as [output|err];
    [|apply adds_hosts_logf].
  cbv zeta. rewrite <- (app_nil_r (_ <$> _)).
  eapply adds_hosts_trans; [apply add_subdomains_spec|apply adds_hosts_logf].
Qed.

Lemma NmapRun_spec (env : Shipped.Env) (ctx : Ctx) (scan : Scan) :
  (Shipped.NmapRun env ctx scan).2 = None
  /\ Shipped.adds_hosts
       (concat (Shipped.nmap_host env ctx (Config scan) <$> Targets scan)) scan
       (Shipped.NmapRun env ctx scan).1.
Proof.
  split; [done|]. unfold Shipped.NmapRun. cbn [fst].
  set (start := logf LvlInfo [] _ scan).
  change (Targets scan) with (Targets start).
  change (Config scan) with (Config start).
  apply (adds_hosts_trans [] _ scan start _ (adds_hosts_logf _ _ _ _)).
  apply (adds_hosts_loop _
           (fun s target => Shipped.nmap_host env ctx (Config s) target) eq).
  - intros s target. unfold Shipped.nmap_host.
    destruct (Shipped.Output env ctx "nmap" _) as [output|err];
      [|apply adds_hosts_logf].
    cbv zeta.
    apply (adds_hosts_trans [_] [] s _ _ (adds_hosts_AddHost _ s)),
      adds_hosts_logf.
  - intros s1 s2 target Hf. unfold Shipped.findings in Hf.
    by injection Hf as _ _ -> _ _ _ _.
Qed.

Lemma placeholder_spec (msg : string) (ctx : Ctx) (scan : Scan) :
  (Shipped.placeholder msg ctx scan).2 = None
  /\ Shipped.adds_hosts [] scan (Shipped.placeholder msg ctx scan).1.
Proof. split; [done|apply adds_hosts_logf]. Qed.

Lemma fields_fuel_solid (fuel : nat) (field l : list ascii) :
  Forall (fun f => f <> []) (Strings.fields_fuel fuel field l).
Proof.
  assert (Hflush : forall field : list ascii,
            Forall (fun f : list ascii => f <> [])
              match field with [] => [] | _ => [reverse field] end).
  { intros [|c f]; [constructor|]. constructor; [|constructor].
    rewrite reverse_cons. by destruct (reverse f). }
  revert field l. induction fuel as [|fuel IH]; intros field l;
    cbn [Strings.fields_fuel]; [apply Hflush|].
  destruct l as [|c rest]; [apply Hflush|].
  destruct (Strings.strip Strings.spaces (c :: rest)); [|apply IH].
  apply Forall_app. split; [apply Hflush|apply IH].
Qed.

Lemma of_bytes_nonempty (l : list ascii) : l <> [] -> Strings.of_bytes l <> "".
Proof.
  intros Hl Heq. apply Hl. rewrite <- (bytes_of_bytes l), Heq. done.
Qed.

Lemma Fields_solid (s field : string) : field ∈ Strings.Fields s -> field <> "".
Proof.
  unfold Strings.Fields, Strings.fields.
  intros (f & -> & Hf)%list_elem_of_fmap. apply of_bytes_nonempty.
  pose proof (fields_fuel_solid (S (length (Strings.bytes s))) [] (Strings.bytes s))
    as Hall.
  rewrite Forall_forall in Hall. by apply Hall.
Qed.

Lemma Atoi_range (s : string) (n : Z) : Strings.Atoi s = Some n -> int_range n.
Proof.
  unfold Strings.Atoi.
  destruct (match Strings.bytes s with [] => _ | _ => _ end) as [negative l].
  destruct l; [done|]. destruct (Strings.digits 0 _); [|done].
  case_decide; [|done]. by intros [= <-].
Qed.

Lemma contains_spec (sub l : list ascii) :
  Strings.contains sub l = true <-> exists front back, l = front ++ sub ++ back.
Proof.
  induction l as [|c l IH]; cbn [Strings.contains].
  - rewrite orb_false_r, starts_with_spec. split.
    + intros [rest Hrest]. by exists [], rest.
    + intros (front & back & H). symmetry in H.
      apply app_eq_nil in H as [-> H]. apply app_eq_nil in H as [-> ->]. by exists [].
  - rewrite orb_true_iff, starts_with_spec, IH. split.
    + intros [[rest Hrest]|(front & back & ->)]; [by exists [], rest|].
      by exists (c :: front), back.
    + intros ([|c' front] & back & H); [left; by exists back|].
      injection H as -> ->. right. by exists front, back.
Qed.

Lemma contains_infix (sub front l back : list ascii) :
  Strings.contains sub l = true -> Strings.contains sub (front ++ l ++ back) = true.
Proof.
  rewrite !contains_spec. intros (f & b & ->). exists (front ++ f), (b ++ back).
  by rewrite <- !app_assoc.
Qed.

Lemma join_infix (sep piece : list ascii) (pieces : list (list ascii)) :
  piece ∈ pieces -> exists front back, Strings.join sep pieces = front ++ piece ++ back.
Proof.
  induction pieces as [|e rest IH]; [by intros ?%elem_of_nil|].
  intros [->|Hin]%elem_of_cons.
  - destruct rest as [|next rest]; [exists [], []; cbn; by rewrite app_nil_r|].
    exists [], (sep ++ Strings.join sep (next :: rest)). done.
  - destruct (IH Hin) as (front & back & Hj).
    destruct rest as [|next rest]; [by apply elem_of_nil in Hin|].
    exists (e ++ sep ++ front), back.
    change (Strings.join sep (e :: next :: rest))
      with (e ++ sep ++ Strings.join sep (next :: rest)).
    by rewrite Hj, <- !app_assoc.
Qed.

Lemma split_infix (sep : ascii) (l piece : list ascii) :
  piece ∈ Strings.split sep l -> exists front back, l = front ++ piece ++ back.
Proof.
  intros Hin. destruct (join_infix [sep] piece _ Hin) as (front & back & H).
  rewrite join_split in H. eauto.
Qed.

Lemma parse_line_Some (line : string) (port : PortResult) :
  Shipped.parse_line line = Some port ->
  port_Protocol port = "tcp" /\ port_State port = "open"
  /\ port_Service port <> ""
  /\ int_range (port_Port port)
  /\ Strings.Contains line "/tcp" = true /\ Strings.Contains line "open" = true.
Proof.
  unfold Shipped.parse_line.
  destruct (Strings.Contains (Strings.TrimSpace line) "/tcp") eqn:Htcp; [|done].
  destruct (Strings.Contains (Strings.TrimSpace line) "open") eqn:Hopen; [|done].
  cbn [andb]. case_decide as Hlen; [|done].
  destruct (Strings.Atoi _) as [n|] eqn:Hatoi; [|done]. intros [= <-].
  cbn [port_Protocol port_State port_Service port_Version port_Port].
  assert (Hinfix : forall sub,
            Strings.Contains (Strings.TrimSpace line) sub = true ->
            Strings.Contains line sub = true).
  { intros sub. unfold Strings.Contains, Strings.TrimSpace.
    rewrite bytes_of_bytes.
    destruct (trim_space_spec (Strings.bytes line)) as (_ & _ & front & back & Heq).
    intros H. rewrite Heq. by apply contains_infix. }
  split_and!; try done; auto.
  - destruct (Strings.Fields (Strings.TrimSpace line)) as [|p0 [|p1 [|p2 ps]]] eqn:Hf;
      try (unfold len in Hlen; cbn in Hlen; lia).
    cbn. apply (Fields_solid (Strings.TrimSpace line)). rewrite Hf.
    do 2 right. left.
  - by eapply Atoi_range.
Qed.

Lemma Contains_line (output line sub : string) :
  line ∈ Strings.Split output Strings.LF ->
  Strings.Contains line sub = true -> Strings.Contains output sub = true.
Proof.
  unfold Strings.Split, Strings.Contains.
  intros (piece & -> & Hpiece)%list_elem_of_fmap. rewrite bytes_of_bytes.
  destruct (split_infix _ _ _ Hpiece) as (front & back & ->). apply contains_infix.
Qed.

(** X18. The nmap module.  [Run] never returns an error, whatever the
    commands do: a target whose command fails is logged and passed
    over.  It adds one host for each target whose command succeeded,
    in the order of the targets, and touches nothing else of the scan
    but the log.  The target is the last argument of the command;
    [Aggressive] takes precedence over [Stealth].  The host parsed
    from an output carries the target as address and as name and no
    services; each of its ports is a tcp port in state open with a
    service name that is not empty and a number in the range of an
    int (nothing confines it to 0..65535); there are no more ports
    than lines, and none at all unless the output holds both [/tcp]
    and [open]. *)
Theorem X18_nmap (env : Shipped.Env) (ctx : Ctx) (scan : Scan) (output target : string) :
  let r := Shipped.NmapRun env ctx scan in
  let host := Shipped.parseNmapOutput output target in
  r.2 = None
  /\ Hosts (Results r.1)
     = Hosts (Results scan)
       ++ concat (Shipped.nmap_host env ctx (Config scan) <$> Targets scan)
  /\ Shipped.findings r.1 = Shipped.findings scan
  /\ Summary (Results r.1) = Summary (Results scan)
  /\ (len (Hosts (Results r.1)) <= len (Hosts (Results scan)) + len (Targets scan))
  /\ last (Shipped.nmap_args (Config scan) target) = Some target
  /\ (cfg_Aggressive (Config scan) = true ->
      Shipped.nmap_args (Config scan) target = ["-A"; "-T5"; target])
  /\ (cfg_Aggressive (Config scan) = false -> cfg_Stealth (Config scan) = true ->
      Shipped.nmap_args (Config scan) target = ["-sS"; "-T2"; target])
  /\ host_IP host = target /\ host_Hostname host = target
  /\ host_Services host = [] /\ host_WebApps host = []
  /\ Forall (fun port =>
               port_Protocol port = "tcp" /\ port_State port = "open"
               /\ port_Service port <> "" /\ int_range (port_Port port))
       (host_Ports host)
  /\ len (host_Ports host) <= 1 + Strings.Count output Strings.LF
  /\ (Strings.Contains output "/tcp" && Strings.Contains output "open" = false ->
      host_Ports host = []).
Proof.
  cbn zeta. destruct (NmapRun_spec env ctx scan) as (Hnil & Hhosts & Hfind & Hsum).
  split_and!; try done.
  - rewrite Hhosts, len_app.
    enough (len (concat (Shipped.nmap_host env ctx (Config scan) <$> Targets scan))
            <= len (Targets scan)) by lia.
    assert (Hone : forall t, len (Shipped.nmap_host env ctx (Config scan) t) <= 1).
    { intros t. unfold Shipped.nmap_host. by destruct (Shipped.Output _ _ _ _). }
    clear Hhosts Hfind Hsum Hnil. generalize (Targets scan). intros ts.
    induction ts as [|t ts IH]; [done|].
    cbn [fmap list_fmap concat]. rewrite len_app. specialize (Hone t).
    unfold len in *. cbn [length]. rewrite Nat2Z.inj_succ. lia.
  - unfold Shipped.nmap_args.
    by destruct (cfg_Stealth (Config scan)), (cfg_Aggressive (Config scan)).
  - unfold Shipped.nmap_args. by intros ->.
  - unfold Shipped.nmap_args. by intros -> ->.
  - cbn [Shipped.parseNmapOutput host_Ports]. apply Forall_forall.
    intros port (line & _ & Hport)%list_elem_of_omap.
    apply parse_line_Some in Hport. tauto.
  - cbn [Shipped.parseNmapOutput host_Ports]. unfold Strings.Count.
    rewrite <- split_length. unfold len, Strings.Split.
    rewrite <- (length_fmap Strings.of_bytes).
    generalize (Strings.of_bytes <$> Strings.split Strings.LF (Strings.bytes output)).
    intros lines. induction lines as [|line lines IH]; [done|].
    cbn [omap list_omap length]. destruct (Shipped.parse_line line); cbn [length]; lia.
  - cbn [Shipped.parseNmapOutput host_Ports]. intros Hnone.
    destruct (omap Shipped.parse_line (Strings.Split output Strings.LF))
      as [|port ports] eqn:Hports; [done|].
    assert (Hin : port ∈ omap Shipped.parse_line (Strings.Split output Strings.LF))
      by (rewrite Hports; left).
    apply list_elem_of_omap in Hin as (line & Hline & Hport).
    apply parse_line_Some in Hport as (_ & _ & _ & _ & Htcp & Hopen).
    rewrite (Contains_line output line "/tcp"), (Contains_line output line "open")
      in Hnone; done.
Qed.

(** X19. The subfinder module.  [Run] never returns an error; a target
    whose command fails is logged and passed over.  A target that
    holds a slash or exactly three dots is skipped without a command
    being run, so its outcome does not depend on the environment: that
    is every dotted IPv4 address and every CIDR range, and also every
    host name with three dots.  For the other targets each line of the
    trimmed output that is not empty becomes a host, in order; such a
    host has the line as name, no address, no ports and no services,
    so the summary never counts it as alive.  Apart from the hosts and
    the log nothing of the scan changes. *)
Theorem X19_subfinder (env : Shipped.Env) (ctx : Ctx) (scan : Scan) (target : string) :
  let r := Shipped.SubfinderRun env ctx scan in
  r.2 = None
  /\ Hosts (Results r.1)
     = Hosts (Results scan)
       ++ concat (Shipped.subfinder_hosts env ctx <$> Targets scan)
  /\ Shipped.findings r.1 = Shipped.findings scan
  /\ Summary (Results r.1) = Summary (Results scan)
  /\ (Strings.Contains target "/" = true \/ Strings.Count target "." = 3 ->
      forall env', Shipped.subfinder_hosts env' ctx target = [])
  /\ (forall err,
        Shipped.Output env ctx "subfinder" ["-d"; target; "-silent"] = inr err ->
        Shipped.subfinder_hosts env ctx target = [])
  /\ (forall host,
        host ∈ Shipped.subfinder_hosts env ctx target ->
        host_IP host = "" /\ host_Hostname host <> ""
        /\ (Strings.LF ∉ Strings.bytes (host_Hostname host))
        /\ host_Ports host = [] /\ host_Services host = [] /\ host_WebApps host = []
        /\ Spec.alive host = false
        /\ Strings.Contains target "/" = false /\ Strings.Count target "." <> 3)
  /\ count_alive (Shipped.subfinder_hosts env ctx target) = 0.
Proof.
  cbn zeta. destruct (SubfinderRun_spec env ctx scan) as (Hnil & Hhosts & Hfind & Hsum).
  assert (Hhost : forall host,
            host ∈ Shipped.subfinder_hosts env ctx target ->
            host_IP host = "" /\ host_Hostname host <> ""
            /\ (Strings.LF ∉ Strings.bytes (host_Hostname host))
            /\ host_Ports host = [] /\ host_Services host = [] /\ host_WebApps host = []
            /\ Spec.alive host = false
            /\ Strings.Contains target "/" = false /\ Strings.Count target "." <> 3).
  { intros host. unfold Shipped.subfinder_hosts.
    destruct (Strings.Contains target "/") eqn:Hslash; [by intros ?%elem_of_nil|].
    destruct (bool_decide (Strings.Count target "." = 3)) eqn:Hdots;
      [by intros ?%elem_of_nil|].
    apply bool_decide_eq_false in Hdots. cbn [orb].
    destruct (Shipped.Output _ _ _ _) as [output|err]; [|by intros ?%elem_of_nil].
    intros (subdomain & -> & [Hne Hin]%list_elem_of_filter)%list_elem_of_fmap.
    cbn [host_IP host_Hostname host_Ports host_Services host_WebApps].
    split_and!; try done.
    unfold Strings.Split in Hin.
    apply list_elem_of_fmap in Hin as (piece & -> & Hpiece).
    rewrite bytes_of_bytes.
    pose proof (split_pieces Strings.LF
                  (Strings.bytes (Strings.TrimSpace output))) as Hall.
    rewrite Forall_forall in Hall. by apply Hall. }
  split_and!; try done.
  - intros Hskip env'. unfold Shipped.subfinder_hosts.
    destruct Hskip as [-> | ->]; [done|]. by rewrite orb_true_r.
  - intros err Herr. unfold Shipped.subfinder_hosts. rewrite Herr.
    by destruct (_ || _).
  - rewrite count_alive_spec.
    assert (Hcount : Spec.count Spec.alive (Shipped.subfinder_hosts env ctx target) = 0).
    { revert Hhost. generalize (Shipped.subfinder_hosts env ctx target).
      intros hosts Hall. induction hosts as [|host hosts IH]; [done|].
      rewrite count_cons. destruct (Hall host) as (_ & _ & _ & _ & _ & _ & -> & _);
        [left|].
      rewrite IH; [done|]. intros h Hh. apply Hall. by right. }
    by rewrite Hcount.
Qed.

(** ** The registry of the program as shipped *)

Lemma filed_lookup (l : list Module) (reg : Registry) (module : Module) :
  NoDup (Name <$> l) -> module ∈ l -> filed l reg !! Name module = Some module.
Proof.
  intros Hnd Hin. unfold filed. apply lookup_union_Some_l.
  apply elem_of_list_to_map_1.
  - by rewrite <- list_fmap_compose.
  - apply list_elem_of_fmap. eauto.
Qed.

Lemma filed_lookup_other (l : list Module) (reg : Registry) (name : string) :
  name ∉ Name <$> l -> filed l reg !! name = reg !! name.
Proof.
  intros Hname. unfold filed. rewrite lookup_union_r; [done|].
  apply not_elem_of_list_to_map_1. by rewrite <- list_fmap_compose.
Qed.

Lemma shipped_names (env : Shipped.Env) :
  Name <$> (Shipped.stable_modules env ++ Shipped.bleeding_edge_modules)
  = ["subfinder"; "nmap"; "httpx"; "nuclei"; "llm-fuzzer"; "auto-patch";
     "shadow-clone"; "dep-drift"; "timing-map"; "blue-team"].
Proof. reflexivity. Qed.

Lemma shipped_NoDup (env : Shipped.Env) :
  NoDup (Name <$> (Shipped.stable_modules env ++ Shipped.bleeding_edge_modules)).
Proof. rewrite shipped_names. apply (bool_decide_unpack _). by vm_compute. Qed.

Lemma shipped_registrable (env : Shipped.Env) :
  registrable (Shipped.stable_modules env ++ Shipped.bleeding_edge_modules) registry0.
Proof.
  split; [apply shipped_NoDup|]. intros module Hin.
  split; [|apply lookup_empty].
  assert (Hname : Name module
                  ∈ Name <$> (Shipped.stable_modules env
                              ++ Shipped.bleeding_edge_modules)).
  { apply list_elem_of_fmap. eauto. }
  rewrite shipped_names in Hname. intros Hempty. rewrite Hempty in Hname.
  revert Hname. apply (bool_decide_unpack _). by vm_compute.
Qed.

Lemma shipped_lookup (env : Shipped.Env) (name : string) (module : Module) :
  Shipped.registry env !! name = Some module
  <-> module ∈ Shipped.stable_modules env ++ Shipped.bleeding_edge_modules
      /\ Name module = name.
Proof.
  unfold Shipped.registry. split.
  - intros Hl.
    destruct (decide (name ∈ Name <$> (Shipped.stable_modules env
                                       ++ Shipped.bleeding_edge_modules)))
      as [Hin|Hnin].
    + apply list_elem_of_fmap in Hin as (m & -> & Hm).
      rewrite (filed_lookup _ _ m (shipped_NoDup env) Hm) in Hl.
      by injection Hl as <-.
    + rewrite filed_lookup_other in Hl by done. unfold registry0 in Hl.
      by rewrite lookup_empty in Hl.
  - intros [Hin <-]. by apply filed_lookup; [apply shipped_NoDup|].
Qed.

Lemma shipped_well_keyed (env : Shipped.Env) : Spec.well_keyed (Shipped.registry env).
Proof. intros key module Hl. by apply shipped_lookup in Hl as [_ ?]. Qed.

Lemma shipped_missing (env : Shipped.Env) (name : string) :
  name ∉ ["subfinder"; "nmap"; "httpx"; "nuclei"; "llm-fuzzer"; "auto-patch";
          "shadow-clone"; "dep-drift"; "timing-map"; "blue-team"] ->
  Shipped.registry env !! name = None.
Proof.
  intros Hname. unfold Shipped.registry.
  rewrite filed_lookup_other by by rewrite shipped_names. apply lookup_empty.
Qed.

Lemma shipped_present (env : Shipped.Env) (module : Module) :
  module ∈ Shipped.stable_modules env ++ Shipped.bleeding_edge_modules ->
  Shipped.registry env !! Name module = Some module.
Proof. intros Hin. by apply shipped_lookup. Qed.

Lemma grows_of_adds_hosts (env : Shipped.Env) (hosts : list HostResult)
    (before after : Scan) :
  Shipped.adds_hosts hosts before after ->
  Forall (Shipped.shipped_host env (Targets before) (Config before)) hosts ->
  Shipped.grows env before after.
Proof. intros (Hh & Hf & _) Hall. split; [done|]. by exists hosts. Qed.

Lemma elem_of_concat_fmap {A B} (f : A -> list B) (l : list A) (y : B) :
  y ∈ concat (f <$> l) -> exists x, x ∈ l /\ y ∈ f x.
Proof.
  induction l as [|x l IH]; cbn [fmap list_fmap concat]; [by intros ?%elem_of_nil|].
  intros [Hy|Hy]%elem_of_app; [exists x; split; [left|done]|].
  destruct (IH Hy) as (x' & Hx' & Hy'). exists x'. split; [by right|done].
Qed.

Lemma shipped_tame (env : Shipped.Env) (module : Module) :
  module ∈ Shipped.stable_modules env ++ Shipped.bleeding_edge_modules ->
  Shipped.tame env module.
Proof.
  intros Hin gctx scan.
  assert (Hplace : forall msg,
            (Shipped.placeholder msg gctx scan).2 = None
            /\ Shipped.grows env scan (Shipped.placeholder msg gctx scan).1
            /\ ModulesExecuted (Summary (Results (Shipped.placeholder msg gctx scan).1))
               = ModulesExecuted (Summary (Results scan))).
  { intros msg. split_and!; try done.
    eapply grows_of_adds_hosts; [apply adds_hosts_logf|constructor]. }
  repeat (apply elem_of_cons in Hin as [->|Hin]); try apply Hplace;
    [| |by apply elem_of_nil in Hin].
  - destruct (SubfinderRun_spec env gctx scan) as (Hnil & Hadds).
    unfold Shipped.SubfinderModule. cbn [Run].
    split_and!; [done| |by destruct Hadds as (_ & _ & ->)].
    eapply grows_of_adds_hosts; [exact Hadds|].
    apply Forall_forall. intros host (target & Ht & Hh)%elem_of_concat_fmap.
    exists gctx, target. eauto.
  - destruct (NmapRun_spec env gctx scan) as (Hnil & Hadds).
    unfold Shipped.NmapModule. cbn [Run].
    split_and!; [done| |by destruct Hadds as (_ & _ & ->)].
    eapply grows_of_adds_hosts; [exact Hadds|].
    apply Forall_forall. intros host (target & Ht & Hh)%elem_of_concat_fmap.
    exists gctx, target. eauto.
Qed.

Ltac shipped_member :=
  unfold Shipped.stable_modules, Shipped.bleeding_edge_modules; cbn [app];
  repeat first [apply list_elem_of_here | apply list_elem_of_further].

Ltac shipped_absent :=
  apply (bool_decide_unpack _); by vm_compute.

Lemma shipped_lookups (env : Shipped.Env) :
  let reg := Shipped.registry env in
  reg !! "subfinder" = Some (Shipped.SubfinderModule env)
  /\ reg !! "nmap" = Some (Shipped.NmapModule env)
  /\ reg !! "httpx" = Some (Shipped.HttpxModule env)
  /\ reg !! "nuclei" = Some (Shipped.NucleiModule env)
  /\ reg !! "llm-fuzzer" = Some Shipped.LLMFuzzerModule
  /\ reg !! "auto-patch" = Some Shipped.AutoPatchModule
  /\ reg !! "shadow-clone" = Some Shipped.ShadowCloneModule
  /\ reg !! "dep-drift" = Some Shipped.DepDriftModule
  /\ reg !! "timing-map" = Some Shipped.TimingMapModule
  /\ reg !! "blue-team" = Some Shipped.BlueTeamModule
  /\ reg !! "amass" = None /\ reg !! "dnsx" = None /\ reg !! "asnmap" = None
  /\ reg !! "naabu" = None /\ reg !! "katana" = None /\ reg !! "ffuf" = None.
Proof.
  cbn zeta. split_and!.
  - apply (shipped_present env (Shipped.SubfinderModule env)). shipped_member.
  - apply (shipped_present env (Shipped.NmapModule env)). shipped_member.
  - apply (shipped_present env (Shipped.HttpxModule env)). shipped_member.
  - apply (shipped_present env (Shipped.NucleiModule env)). shipped_member.
  - apply (shipped_present env Shipped.LLMFuzzerModule). shipped_member.
  - apply (shipped_present env Shipped.AutoPatchModule). shipped_member.
  - apply (shipped_present env Shipped.ShadowCloneModule). shipped_member.
  - apply (shipped_present env Shipped.DepDriftModule). shipped_member.
  - apply (shipped_present env Shipped.TimingMapModule). shipped_member.
  - apply (shipped_present env Shipped.BlueTeamModule). shipped_member.
  - apply shipped_missing. shipped_absent.
  - apply shipped_missing. shipped_absent.
  - apply shipped_missing. shipped_absent.
  - apply shipped_missing. shipped_absent.
  - apply shipped_missing. shipped_absent.
  - apply shipped_missing. shipped_absent.
Qed.

Lemma tame_keeps_trail (env : Shipped.Env) (module : Module) :
  Shipped.tame env module -> keeps_trail module.
Proof. intros Ht gctx scan. by destruct (Ht gctx scan) as (_ & _ & ?). Qed.

(** X20. The registry of the program as shipped, whatever the
    environment.  The ten modules of the two [init] functions register
    without a fatal error in either order of the packages and give the
    same registry, keyed by the modules' names.  Of the ten names the
    three stable phases ask for, four are registered: Discovery runs
    subfinder at most, Scanning nmap and httpx, Vulnerability
    Assessment nuclei, each only if its tool is found in the PATH;
    amass, dnsx, asnmap, naabu, katana and ffuf resolve to nothing in
    any category and are passed over without a log entry.  The
    bleeding-edge phase resolves all six of its names, none of which
    has a prerequisite.  No shipped module's [Run] ever returns an
    error, none writes the audit trail, the vulnerabilities, the
    patches, the bleeding-edge results or the scan context, and the
    hosts they add are subfinder's subdomains and nmap's hosts. *)
Theorem X20_shipped_registry (env : Shipped.Env) :
  let reg := Shipped.registry env in
  let tool := fun name module =>
    if Shipped.LookPath env name then [module] else [] in
  register_all (Shipped.stable_modules env ++ Shipped.bleeding_edge_modules) registry0
  = Returned reg
  /\ register_all (Shipped.bleeding_edge_modules ++ Shipped.stable_modules env)
       registry0
     = Returned reg
  /\ Spec.well_keyed reg
  /\ (forall name,
        is_Some (reg !! name)
        <-> name ∈ ["subfinder"; "nmap"; "httpx"; "nuclei"; "llm-fuzzer";
                    "auto-patch"; "shadow-clone"; "dep-drift"; "timing-map";
                    "blue-team"])
  /\ Spec.resolve reg "stable" ["subfinder"; "amass"; "dnsx"; "asnmap"]
     = tool "subfinder" (Shipped.SubfinderModule env)
  /\ Spec.resolve reg "stable" ["naabu"; "nmap"; "httpx"]
     = tool "nmap" (Shipped.NmapModule env) ++ tool "httpx" (Shipped.HttpxModule env)
  /\ Spec.resolve reg "stable" ["nuclei"; "katana"; "ffuf"]
     = tool "nuclei" (Shipped.NucleiModule env)
  /\ Spec.resolve reg "bleeding-edge" bleedingModules = Shipped.bleeding_edge_modules
  /\ (forall name category,
        name ∈ ["amass"; "dnsx"; "asnmap"; "naabu"; "katana"; "ffuf"] ->
        Spec.resolve reg category [name] = []
        /\ Spec.prereq_warnings reg category [name] = [])
  /\ (forall module,
        Spec.registered reg module ->
        Shipped.tame env module /\ keeps_trail module /\ Registry.Cleanup module = None).
Proof.
  cbn zeta.
  destruct (shipped_lookups env)
    as (L1 & L2 & L3 & L4 & L5 & L6 & L7 & L8 & L9 & L10
        & M1 & M2 & M3 & M4 & M5 & M6).
  cbn zeta in *.
  split_and!.
  - apply register_all_filed, shipped_registrable.
  - rewrite register_all_filed.
    + reflexivity.
    + destruct (shipped_registrable env) as [Hnd Hall]. split.
      * eapply NoDup_Permutation_proper; [|exact Hnd].
        apply fmap_Permutation, Permutation_app_comm.
      * intros module Hin. apply Hall. rewrite elem_of_app in *. tauto.
  - apply shipped_well_keyed.
  - intros name. rewrite <- (shipped_names env). split.
    + intros [module (Hin & <-)%shipped_lookup]. apply list_elem_of_fmap. eauto.
    + intros (module & -> & Hin)%list_elem_of_fmap. exists module.
      by apply shipped_present.
  - unfold Spec.resolve. cbn [omap list_omap]. rewrite L1, M1, M2, M3.
    cbn [Category Prerequisites Shipped.SubfinderModule]. unfold Shipped.in_path.
    by destruct (Shipped.LookPath env "subfinder").
  - unfold Spec.resolve. cbn [omap list_omap]. rewrite L2, L3, M4.
    cbn [Category Prerequisites Shipped.NmapModule Shipped.HttpxModule].
    unfold Shipped.in_path.
    by destruct (Shipped.LookPath env "nmap"), (Shipped.LookPath env "httpx").
  - unfold Spec.resolve. cbn [omap list_omap]. rewrite L4, M5, M6.
    cbn [Category Prerequisites Shipped.NucleiModule]. unfold Shipped.in_path.
    by destruct (Shipped.LookPath env "nuclei").
  - unfold Spec.resolve, bleedingModules. cbn [omap list_omap].
    by rewrite L5, L6, L7, L8, L9, L10.
  - intros name category Hin. unfold Spec.resolve, Spec.prereq_warnings.
    cbn [omap list_omap].
    repeat (apply elem_of_cons in Hin as [->|Hin]);
      rewrite ?M1, ?M2, ?M3, ?M4, ?M5, ?M6; try done.
    by apply elem_of_nil in Hin.
  - intros module [key (Hin & _)%shipped_lookup].
    pose proof (shipped_tame env module Hin) as Ht.
    split_and!; [done|by eapply tame_keeps_trail|].
    repeat (apply elem_of_cons in Hin as [->|Hin]); try done.
    by apply elem_of_nil in Hin.
Qed.

(** ** A scan with the shipped modules *)

Lemma grows_refl (env : Shipped.Env) (scan : Scan) : Shipped.grows env scan scan.
Proof. split; [done|]. exists []. by rewrite app_nil_r. Qed.

Lemma findings_targets (s1 s2 : Scan) :
  Shipped.findings s1 = Shipped.findings s2 ->
  Targets s1 = Targets s2 /\ Config s1 = Config s2
  /\ Vulnerabilities (Results s1) = Vulnerabilities (Results s2).
Proof. unfold Shipped.findings. by intros [= _ -> -> -> _ _ _]. Qed.

Lemma grows_trans (env : Shipped.Env) (s1 s2 s3 : Scan) :
  Shipped.grows env s1 s2 -> Shipped.grows env s2 s3 -> Shipped.grows env s1 s3.
Proof.
  intros (F1 & e1 & H1 & A1) (F2 & e2 & H2 & A2).
  destruct (findings_targets _ _ F1) as (Ht & Hc & _).
  split; [congruence|]. exists (e1 ++ e2). split.
  - by rewrite H2, H1, app_assoc.
  - apply Forall_app. split; [done|]. by rewrite <- Ht, <- Hc.
Qed.

Lemma grows_frame (env : Shipped.Env) (before s1 s2 : Scan) :
  Shipped.findings s2 = Shipped.findings s1 ->
  Hosts (Results s2) = Hosts (Results s1) ->
  Shipped.grows env before s1 -> Shipped.grows env before s2.
Proof.
  intros Hf Hh (F1 & e1 & H1 & A1). split; [congruence|].
  exists e1. split; [congruence|done].
Qed.

Lemma call_module_grows (env : Shipped.Env) (gctx : Ctx) (module : Module)
    (o : Orchestrator) (before : Scan) :
  Shipped.tame env module ->
  Shipped.grows env before (o_scan o) ->
  Shipped.grows env before (o_scan (call_module gctx module o).1).
Proof.
  intros Ht Hg. unfold call_module, ExecuteModule. proj_simpl.
  assert (Hrun : forall scan,
            Shipped.findings scan = Shipped.findings (o_scan o) ->
            Hosts (Results scan) = Hosts (Results (o_scan o)) ->
            Shipped.grows env before (Run module gctx scan).1).
  { intros scan Hf Hh. eapply grows_trans; [|apply Ht].
    by apply (grows_frame env before (o_scan o)). }
  destruct (IsActive (o_sandbox o)) eqn:Ha.
  - unfold IsActive in Ha. rewrite Ha. cbn [negb].
    match goal with
    | |- context [Run module gctx ?sc] =>
        pose proof (Hrun sc eq_refl eq_refl) as H;
        destruct (Run module gctx sc) as [scan [e|]]
    end; proj_simpl; cbn [fst o_scan] in *; [|done].
    by apply (grows_frame env before scan).
  - match goal with
    | |- context [Run module gctx ?sc] =>
        pose proof (Hrun sc eq_refl eq_refl) as H;
        destruct (Run module gctx sc) as [scan [e|]]
    end; proj_simpl; cbn [fst o_scan] in *; [|done].
    by apply (grows_frame env before scan).
Qed.

Lemma step_grows (env : Shipped.Env) (before : Scan) (activeModules : list Module)
    (ev : Event) (g : Group) :
  Forall (Shipped.tame env) activeModules ->
  Shipped.grows env before (o_scan (orch (g_world g))) ->
  Shipped.grows env before (o_scan (orch (g_world (step activeModules ev g)))).
Proof.
  intros Hall Hg.
  assert (Htame : forall i module, activeModules !! i = Some module ->
                    Shipped.tame env module).
  { intros i module Hi. eapply Forall_lookup_1; eauto. }
  destruct ev; cbn [step]; repeat case_match; rewrite ?group_done_world;
    group_simpl; try done.
  all: try match goal with
       | H : call_module ?c ?m ?o = _, Hm : _ !! _ = Some ?m |- _ =>
           pose proof (call_module_grows env c m o before (Htame _ _ Hm) Hg) as Hc;
           by rewrite H in Hc
       end.
  all: by apply (grows_frame env before (o_scan (orch (g_world g)))).
Qed.

Lemma run_schedule_grows (env : Shipped.Env) (before : Scan)
    (activeModules : list Module) (sched : list Event) (g : Group) :
  Forall (Shipped.tame env) activeModules ->
  Shipped.grows env before (o_scan (orch (g_world g))) ->
  Shipped.grows env before
    (o_scan (orch (g_world (run_schedule activeModules sched g)))).
Proof.
  intros Hall. revert g. induction sched as [|ev sched IH]; intros g Hg; [done|].
  apply IH. by apply step_grows.
Qed.

Lemma executeModules_grows (env : Shipped.Env) (before : Scan) (reg : Registry)
    (sched : list Event) (moduleNames : list string) (category : string) (w : World) :
  Spec.well_keyed reg ->
  (forall module, Spec.registered reg module -> Shipped.tame env module) ->
  Shipped.grows env before (o_scan (orch w)) ->
  Shipped.grows env before
    (o_scan (orch (executeModules reg sched moduleNames category w).1)).
Proof.
  intros Hkeyed Htame Hg. unfold executeModules.
  rewrite select_active_spec by done.
  case_decide; cbn [fst]; [by apply (grows_frame env before (o_scan (orch w)))|].
  apply run_schedule_grows.
  - apply Forall_forall. intros module (name & _ & Hreg & _)%elem_of_resolve.
    apply Htame. by exists name.
  - by apply (grows_frame env before (o_scan (orch w))).
Qed.

Lemma updateScanSummary_findings (o : Orchestrator) :
  Shipped.findings (o_scan (updateScanSummary o)) = Shipped.findings (o_scan o)
  /\ Hosts (Results (o_scan (updateScanSummary o))) = Hosts (Results (o_scan o)).
Proof.
  unfold updateScanSummary.
  destruct (count_ports _) as [tp op].
  destruct (count_vulns _) as [[[[c h] m] l] e].
  by proj_simpl.
Qed.

Lemma runScoringPhase_empty (w : World) :
  Vulnerabilities (Results (o_scan (orch w))) = [] ->
  let o' := orch (runScoringPhase w).1 in
  Shipped.findings (o_scan o') = Shipped.findings (o_scan (orch w))
  /\ Hosts (Results (o_scan o')) = Hosts (Results (o_scan (orch w)))
  /\ RiskScore (summary_of o') = 0.0%float.
Proof.
  intros Hempty. cbn zeta. unfold runScoringPhase. cbn [fst orch].
  set (o1 := olog LvlInfo [] _ (orch w)).
  assert (H1 : Vulnerabilities (Results (o_scan o1)) = []) by done.
  rewrite H1. cbn [length score_range].
  match goal with
  | |- context [updateScanSummary ?x] =>
      destruct (updateScanSummary_findings x) as [Hf Hh];
      destruct (updateScanSummary_frame x) as (_ & _ & _ & _ & _ & _ & _ & _ & Hr & _)
  end.
  cbn zeta in Hr. rewrite Hf, Hh, Hr. subst o1.
  unfold set_SummaryRiskScore, Shipped.findings.
  proj_simpl. rewrite ?Hempty. split_and!; done.
Qed.

Lemma module_phase_grows (env : Shipped.Env) (sched : list Event)
    (moduleNames : list string) (category : string) :
  Shipped.grows_phase env
    (executeModules (Shipped.registry env) sched moduleNames category).
Proof.
  intros before w _ Hg. apply executeModules_grows; [apply shipped_well_keyed| |done].
  intros module [key (Hin & _)%shipped_lookup]. by apply shipped_tame.
Qed.

Lemma shipped_phases_grow (env : Shipped.Env) (s : Schedules) :
  exists phases,
    phases_of (Shipped.registry env) s
    = phases ++ [("Reporting", then_deliver (during_reporting s) runReportingPhase)]
    /\ Forall (fun p => Shipped.grows_phase env p.2 /\ keeps_fixtures p.2) phases
    /\ exists front,
         phases
         = front ++ [("Scoring", then_deliver (during_scoring s) runScoringPhase)].
Proof.
  eexists [_; _; _; _; _]. split; [reflexivity|]. split; [|by eexists [_; _; _; _]].
  pose proof (phases_of_guarantees (Shipped.registry env) s) as Hg.
  unfold phases_of in Hg.
  repeat match type of Hg with
         | Forall _ (_ :: _) => apply Forall_cons in Hg as [[_ ?] Hg]
         end.
  repeat apply List.Forall_cons; try apply List.Forall_nil; cbn [snd] in *;
    (split; [|done]).
  - apply module_phase_grows.
  - apply module_phase_grows.
  - apply module_phase_grows.
  - intros before w Hempty Hgrow. unfold runBleedingEdgePhase.
    destruct (cfg_BleedingEdge (o_config (orch w))); cbn [negb].
    + by apply module_phase_grows.
    + by apply (grows_frame env before (o_scan (orch w))).
  - intros before w Hempty Hgrow. unfold then_deliver.
    destruct (runScoringPhase w) as [w1 r1] eqn:Hrun. cbn [fst].
    rewrite deliver_orch.
    destruct (runScoringPhase_empty w) as (Hf & Hh & _).
    { destruct Hgrow as [Hfind _].
      destruct (findings_targets _ _ Hfind) as (_ & _ & ->). done. }
    rewrite Hrun in Hf, Hh. cbn [fst] in *.
    by apply (grows_frame env before (o_scan (orch w))).
Qed.

Lemma run_phases_grows (env : Shipped.Env) (before : Scan) (phases : list Phase)
    (w : World) :
  Forall (fun p => Shipped.grows_phase env p.2) phases ->
  Vulnerabilities (Results before) = [] ->
  Shipped.grows env before (o_scan (orch w)) ->
  Shipped.grows env before (o_scan (orch (run_phases phases w).1)).
Proof.
  intros Hall Hempty. revert w.
  induction Hall as [|[name fn] phases Hfn _ IH]; intros w Hg; [done|].
  cbn [run_phases snd] in *.
  pose proof (Hfn before (on_orch (olog LvlInfo [] ("📍 Phase: " +:+ name)) w) Hempty)
    as Hstep.
  destruct (fn _) as [w1 [e|]]; cbn [fst snd] in *.
  - apply Hstep. by apply (grows_frame env before (o_scan (orch w))).
  - assert (Hg1 : Shipped.grows env before (o_scan (orch w1))).
    { apply Hstep. by apply (grows_frame env before (o_scan (orch w))). }
    destruct (ctx (on_orch _ w1)) as [c|]; cbn [fst].
    + by apply (grows_frame env before (o_scan (orch w1))).
    + apply IH. by apply (grows_frame env before (o_scan (orch w1))).
Qed.

Lemma prepared_grows (env : Shipped.Env) (host : Host) (w : World) :
  Shipped.grows env (o_scan (orch w)) (o_scan (orch (prepared host w))).
Proof.
  apply (grows_frame env _ (o_scan (orch w))); [..|apply grows_refl];
    unfold prepared, Initialize; proj_simpl;
    destruct (negb _); try done; destruct (negb _); try done;
    by destruct (host_start host).
Qed.

Lemma concluded_grows (env : Shipped.Env) (before : Scan) (elapsed : string)
    (r : World * option error) :
  Shipped.grows env before (o_scan (orch r.1)) ->
  Shipped.grows env before (o_scan (orch (concluded elapsed r).1)).
Proof.
  destruct r as [w1 r]. cbn [fst]. apply grows_frame;
    unfold concluded, deferred_duration, deferred_cleanup, Sandbox.Cleanup;
    cbn [fst snd];
    destruct r as [e|]; proj_simpl;
    destruct (m_active (o_sandbox (orch w1))); cbn [negb]; by proj_simpl.
Qed.

Lemma concluded_risk (elapsed : string) (r : World * option error) :
  RiskScore (summary_of (orch (concluded elapsed r).1))
  = RiskScore (summary_of (orch r.1)).
Proof.
  destruct r as [w1 r].
  unfold concluded, deferred_duration, deferred_cleanup, Sandbox.Cleanup.
  cbn [fst snd]. unfold set_ScanDuration.
  destruct r as [e|]; proj_simpl;
    destruct (m_active (o_sandbox (orch w1))); cbn [negb]; by proj_simpl.
Qed.

Lemma reporting_read_only (env : Shipped.Env) (before : Scan) (sched : list Event)
    (w : World) :
  Shipped.read_only (o_reporter (orch w)) ->
  let r := run_phases [("Reporting", then_deliver sched runReportingPhase)] w in
  (Shipped.grows env before (o_scan (orch w)) ->
   Shipped.grows env before (o_scan (orch r.1)))
  /\ RiskScore (summary_of (orch r.1)) = RiskScore (summary_of (orch w)).
Proof.
  intros Hro. cbn zeta. cbn [run_phases]. unfold then_deliver, runReportingPhase.
  match goal with
  | |- context [o_reporter ?o ?c ?sc] =>
      change (o_reporter o) with (o_reporter (orch w));
      destruct (Hro c sc) as [Hres Hfind];
      destruct (o_reporter (orch w) c sc) as [scan' [cause|]]
  end; cbn [fst snd] in *;
    change (Results scan' = Results (o_scan (orch w))) in Hres;
    change (Shipped.findings scan' = Shipped.findings (o_scan (orch w))) in Hfind.
  - rewrite !deliver_orch. proj_simpl. unfold summary_of. cbn [o_scan].
    split; [|by rewrite Hres]. intros Hg.
    apply (grows_frame env before (o_scan (orch w))); [done|by rewrite Hres|done].
  - match goal with
    | |- context [match ctx ?x with _ => _ end] => destruct (ctx x) as [c|]
    end; cbn [fst]; proj_simpl; rewrite !deliver_orch;
      proj_simpl; unfold summary_of; cbn [o_scan Results].
    all: split; [|by rewrite Hres]; intros Hg.
    all: apply (grows_frame env before scan'); [done|done|].
    all: apply (grows_frame env before (o_scan (orch w)));
      [done|by rewrite Hres|done].
Qed.

Lemma scoring_zero (sched : list Event) (w : World) :
  Vulnerabilities (Results (o_scan (orch w))) = [] ->
  let r := run_phases [("Scoring", then_deliver sched runScoringPhase)] w in
  RiskScore (summary_of (orch r.1)) = 0.0%float
  /\ o_reporter (orch r.1) = o_reporter (orch w).
Proof.
  intros Hempty. cbn zeta. cbn [run_phases]. unfold then_deliver.
  destruct (runScoringPhase_empty
              (on_orch (olog LvlInfo [] ("📍 Phase: " +:+ "Scoring")) w) Hempty)
    as (_ & _ & Hrisk).
  pose proof (runScoringPhase_fixtures
                (on_orch (olog LvlInfo [] ("📍 Phase: " +:+ "Scoring")) w)) as Hfix.
  cbn zeta in Hrisk.
  destruct (runScoringPhase _) as [w1 r1] eqn:Hrun. cbn [fst] in *.
  assert (r1 = None) as -> by (unfold runScoringPhase in Hrun; congruence).
  assert (Hrep : o_reporter (orch w1) = o_reporter (orch w)).
  { unfold fixtures in Hfix. cbn in Hfix. congruence. }
  match goal with
  | |- context [match ctx ?x with _ => _ end] => destruct (ctx x) as [c|]
  end; cbn [fst]; unfold summary_of in *; proj_simpl; rewrite !deliver_orch;
    by split.
Qed.

(** X21. A scan with the shipped modules, for every environment, host,
    interleaving and cancellation, when the report generator only reads
    the scan: a scan that starts without vulnerabilities ends without
    any, whatever the tools print, and its patches, bleeding-edge
    results, scan context, targets, configuration and id are those it
    started with.  The hosts it had stay in front, and every host it
    gains is a subdomain reported by subfinder or the host nmap
    reported for one of the targets.  A scan that returns nil has the
    overall risk score 0.0 in its summary. *)
Theorem X21_shipped_scan (env : Shipped.Env) (host : Host) (s : Schedules)
    (elapsed : string) (w : World) :
  Vulnerabilities (Results (o_scan (orch w))) = [] ->
  Shipped.read_only (o_reporter (orch w)) ->
  let r := Execute (Shipped.registry env) host s elapsed w in
  let before := o_scan (orch w) in
  let after := o_scan (orch r.1) in
  Vulnerabilities (Results after) = []
  /\ Patches (Results after) = Patches (Results before)
  /\ BleedingEdge (Results after) = BleedingEdge (Results before)
  /\ Context after = Context before
  /\ Targets after = Targets before
  /\ Config after = Config before
  /\ ID after = ID before
  /\ (exists extra,
        Hosts (Results after) = Hosts (Results before) ++ extra
        /\ Forall (Shipped.shipped_host env (Targets before) (Config before)) extra)
  /\ (r.2 = None -> RiskScore (Summary (Results after)) = 0.0%float).
Proof.
  intros Hempty Hro. cbn zeta.
  enough (Hmain :
    Shipped.grows env (o_scan (orch w))
      (o_scan (orch (Execute (Shipped.registry env) host s elapsed w).1))
    /\ ((Execute (Shipped.registry env) host s elapsed w).2 = None ->
        RiskScore (summary_of
                     (orch (Execute (Shipped.registry env) host s elapsed w).1))
        = 0.0%float)).
  { destruct Hmain as [[Hfind Hhosts] Hrisk]. unfold Shipped.findings in Hfind.
    injection Hfind as -> -> -> Hv -> -> ->. rewrite Hv.
    split_and!; done. }
  destruct (decide (Targets (o_scan (orch w)) = [])) as [Hnone|Htargets].
  { unfold Execute, validateTargets. proj_simpl.
    rewrite decide_True by by rewrite Hnone. cbn [fst snd]. split; [|done].
    unfold deferred_duration. proj_simpl.
    apply (grows_frame env _ (o_scan (orch w))); [done|done|apply grows_refl]. }
  rewrite Execute_validated by done. rewrite concluded_result, concluded_risk.
  destruct (shipped_phases_grow env s) as (phases & -> & Hall & front & ->).
  apply Forall_app in Hall as [Hfront Hscoring].
  rewrite <- app_assoc. cbn [app]. rewrite run_phases_app.
  pose proof (run_phases_grows env (o_scan (orch w)) front (prepared host w)) as Hg.
  pose proof (run_phases_fixtures front (prepared host w)) as Hfix.
  destruct (run_phases front (prepared host w)) as [wa ra] eqn:Hrun.
  cbn [fst snd] in *.
  assert (Hga : Shipped.grows env (o_scan (orch w)) (o_scan (orch wa))).
  { apply Hg; [|done|apply prepared_grows].
    eapply Forall_impl; [exact Hfront|]. by intros p [? _]. }
  assert (Hra : o_reporter (orch wa) = o_reporter (orch w)).
  { rewrite <- (prepared_reporter host w).
    assert (Hf : fixtures (orch wa) = fixtures (orch (prepared host w))).
    { apply Hfix. eapply Forall_impl; [exact Hfront|]. by intros p [_ ?]. }
    unfold fixtures in Hf. congruence. }
  destruct ra as [e|].
  { split; [|done]. by apply concluded_grows. }
  change [("Scoring", then_deliver (during_scoring s) runScoringPhase);
          ("Reporting", then_deliver (during_reporting s) runReportingPhase)]
    with ([("Scoring", then_deliver (during_scoring s) runScoringPhase)]
          ++ [("Reporting", then_deliver (during_reporting s) runReportingPhase)]).
  rewrite run_phases_app.
  assert (Hva : Vulnerabilities (Results (o_scan (orch wa))) = []).
  { destruct Hga as [Hfind _].
    destruct (findings_targets _ _ Hfind) as (_ & _ & ->). done. }
  destruct (scoring_zero (during_scoring s) wa Hva) as [Hzero Hrb].
  pose proof (run_phases_grows env (o_scan (orch w))
                [("Scoring", then_deliver (during_scoring s) runScoringPhase)] wa)
    as Hgb.
  cbn zeta in Hzero, Hrb.
  destruct (run_phases [("Scoring", _)] wa) as [wb rb] eqn:Hrunb.
  cbn [fst snd] in *.
  assert (Hgrowb : Shipped.grows env (o_scan (orch w)) (o_scan (orch wb))).
  { apply Hgb; [|done|done]. eapply Forall_impl; [exact Hscoring|].
    by intros p [? _]. }
  destruct rb as [e|].
  { split; [|done]. by apply concluded_grows. }
  assert (Hrob : Shipped.read_only (o_reporter (orch wb))) by by rewrite Hrb, Hra.
  destruct (reporting_read_only env (o_scan (orch w)) (during_reporting s) wb Hrob)
    as [Hgc Hrc].
  cbn zeta in Hgc, Hrc.
  split.
  - apply concluded_grows. by apply Hgc.
  - intros _. by rewrite Hrc.
Qed.

Lemma X21_shipped_scan_witness :
  Vulnerabilities
    (Results
       (o_scan
          (orch
             (Execute
                (Shipped.registry
                   (Shipped.mkEnv (fun _ => true)
                      (fun _ _ _ => inl "22/tcp open ssh OpenSSH 8.9")))
                (mkHost 1000 false None) (mkSchedules [] [] [] [] [] []) "12ms"
                (Examples.world0 true)).1)))
  = [].
Proof.
  refine (proj1 (X21_shipped_scan _ _ _ _ (Examples.world0 true) _ _)).
  - reflexivity.
  - intros gctx scan. by split.
Defined.

(** ** Flags over the configuration *)

Lemma loaded_clean (fs : Config.FileSystem) (file : string) :
  Forall Config.clean (Config.loaded fs file).
Proof.
  unfold Config.loaded, Config.loadTargetsFromFile.
  destruct (fs file) as [data|err]; [|done].
  rewrite load_loop. cbn [app].
  apply Forall_forall. intros t [Hkeep Hin]%list_elem_of_filter.
  apply list_elem_of_fmap in Hin as (line & -> & Hline).
  apply andb_true_iff in Hkeep as [Hne Hp].
  apply negb_true_iff in Hne, Hp. apply bool_decide_eq_false in Hne.
  split_and!; try done; [apply TrimSpace_idem|].
  unfold Strings.Split in Hline.
  apply list_elem_of_fmap in Hline as (piece & -> & Hpiece).
  pose proof (split_pieces Strings.LF (Strings.bytes data)) as Hall.
  rewrite Forall_forall in Hall. specialize (Hall piece Hpiece).
  unfold Strings.TrimSpace. rewrite !bytes_of_bytes.
  destruct (trim_space_spec piece) as (_ & _ & front & back & Heq).
  apply (infix_not_elem _ front _ back). by rewrite <- Heq.
Qed.

Lemma override_loop (fs : Config.FileSystem) (files : list string)
    (targets : list string) (warnings : list LogEntry) :
  foldl (fun '(targets, warnings) file =>
           match Config.loadTargetsFromFile fs file with
           | (_, Some err) => (targets, warnings ++ [Config.load_warning file err])
           | (loaded, None) => (targets ++ loaded, warnings)
           end)
        (targets, warnings) files
  = (targets ++ concat (Config.loaded fs <$> files),
     warnings ++ omap (Config.unreadable fs) files).
Proof.
  revert targets warnings. induction files as [|file files IH]; intros targets warnings.
  - cbn. by rewrite !app_nil_r.
  - cbn [foldl fmap list_fmap concat omap list_omap].
    assert (Hcase : Config.loadTargetsFromFile fs file
                    = (Config.loaded fs file,
                       match fs file with inr err => Some err | inl _ => None end)).
    { unfold Config.loaded, Config.loadTargetsFromFile. by destruct (fs file). }
    rewrite Hcase. unfold Config.unreadable at 1.
    destruct (fs file) as [data|err] eqn:Hfs; rewrite IH.
    + by rewrite app_assoc.
    + assert (Hnone : Config.loaded fs file = []).
      { unfold Config.loaded, Config.loadTargetsFromFile. by rewrite Hfs. }
      rewrite Hnone. cbn [app]. by rewrite <- app_assoc.
Qed.

Lemma override_targets (fs : Config.FileSystem) (flags : Config.Flags) (config : ScanConfig) :
  let r := Config.overrideWithFlags fs flags config in
  cfg_Targets r.1.1
  = cfg_Targets config ++ Config.given flags
    ++ concat (Config.loaded fs <$> Config.files flags)
  /\ r.1.2 = omap (Config.unreadable fs) (Config.files flags).
Proof.
  cbn zeta. unfold Config.overrideWithFlags, Config.given, Config.files.
  destruct (Config.flag_target flags) as [given|],
           (Config.flag_target_file flags) as [files|]; cbn [default].
  all: repeat case_bool_decide.
  all: rewrite ?override_loop; cbn [fst snd cfg_Targets app].
  all: repeat match goal with
       | H : ~ 0 < Z.of_nat (length ?l) |- _ =>
           destruct l; [clear H|cbn [length] in H; lia]
       end.
  all: unfold id; cbn [fmap list_fmap concat omap list_omap app];
    rewrite ?app_nil_r, <- ?app_assoc; cbn [app]; done.
Qed.

Lemma elem_of_concat {A : Type} (x : A) (ls : list (list A)) :
  x ∈ concat ls -> exists l, x ∈ l /\ l ∈ ls.
Proof.
  induction ls as [|l ls IH]; cbn [concat]; [by intros ?%elem_of_nil|].
  rewrite elem_of_app. intros [Hin|Hin].
  - exists l. split; [done|left].
  - destruct (IH Hin) as (l' & Hl' & Hls). exists l'. split; [done|by right].
Qed.

Lemma overridden_string_kept (flag : option string) (field : string) :
  field <> "" -> Config.overridden_string flag field <> "".
Proof.
  intros Hne. unfold Config.overridden_string.
  destruct flag as [v|]; [|done]. by case_bool_decide.
Qed.

(** X22. [overrideWithFlags] never fails, and a file of targets that
    cannot be read costs a warning, never the run.  It drops no target:
    the configured targets come first, then the targets of the
    [--target] flag, then the targets of each readable [--target-file]
    in the order of the flags; every target that came from a file is
    trimmed, not empty and not a comment.  The standard logger gets one
    warning for each unreadable file, in order, and nothing else.
    [Threads] and [RateLimit] are never touched, an empty string flag
    erases no configured [Output], [ReportDir], [LLMModel] or
    [ShadowClone], and a flag the command defines always replaces the
    configured exclude list and switches. *)
Theorem X22_overrideWithFlags (fs : Config.FileSystem) (flags : Config.Flags)
    (config : ScanConfig) :
  let r := Config.overrideWithFlags fs flags config in
  let config' := r.1.1 in
  r.2 = None
  /\ cfg_Targets config'
     = cfg_Targets config ++ Config.given flags
       ++ concat (Config.loaded fs <$> Config.files flags)
  /\ r.1.2 = omap (Config.unreadable fs) (Config.files flags)
  /\ (forall target,
        target ∈ cfg_Targets config' ->
        target ∈ cfg_Targets config \/ target ∈ Config.given flags
        \/ Config.clean target)
  /\ (forall entry,
        entry ∈ r.1.2 ->
        log_level entry = LvlWarn
        /\ exists file err,
             file ∈ Config.files flags /\ fs file = inr err
             /\ entry = Config.load_warning file err)
  /\ (len (cfg_Targets config) <= len (cfg_Targets config'))
  /\ cfg_Threads config' = cfg_Threads config
  /\ cfg_RateLimit config' = cfg_RateLimit config
  /\ (cfg_Output config <> "" -> cfg_Output config' <> "")
  /\ (cfg_ReportDir config <> "" -> cfg_ReportDir config' <> "")
  /\ (cfg_LLMModel config <> "" -> cfg_LLMModel config' <> "")
  /\ (cfg_ShadowClone config <> "" -> cfg_ShadowClone config' <> "")
  /\ (forall excluded,
        Config.flag_exclude flags = Some excluded -> cfg_Exclude config' = excluded)
  /\ (forall deep, Config.flag_deep flags = Some deep -> cfg_Deep config' = deep)
  /\ (forall on,
        Config.flag_bleeding_edge flags = Some on -> cfg_BleedingEdge config' = on).
Proof.
  cbn zeta.
  destruct (override_targets fs flags config) as [Htargets Hwarn]. cbn zeta in *.
  assert (Hrest :
    let r := Config.overrideWithFlags fs flags config in
    r.2 = None
    /\ cfg_Threads r.1.1 = cfg_Threads config
    /\ cfg_RateLimit r.1.1 = cfg_RateLimit config
    /\ cfg_Output r.1.1 = Config.overridden_string (Config.flag_output flags) (cfg_Output config)
    /\ cfg_ReportDir r.1.1 = Config.overridden_string (Config.flag_report flags) (cfg_ReportDir config)
    /\ cfg_LLMModel r.1.1 = Config.overridden_string (Config.flag_llm_model flags) (cfg_LLMModel config)
    /\ cfg_ShadowClone r.1.1
       = Config.overridden_string (Config.flag_shadow_clone flags) (cfg_ShadowClone config)
    /\ cfg_Exclude r.1.1 = Config.overridden (Config.flag_exclude flags) (cfg_Exclude config)
    /\ cfg_Deep r.1.1 = Config.overridden (Config.flag_deep flags) (cfg_Deep config)
    /\ cfg_BleedingEdge r.1.1
       = Config.overridden (Config.flag_bleeding_edge flags) (cfg_BleedingEdge config)).
  { cbn zeta. unfold Config.overrideWithFlags.
    destruct (match Config.flag_target_file flags with
              | Some targetFiles => _
              | None => _
              end) as [targets warnings].
    by cbn. }
  cbn zeta in Hrest.
  destruct Hrest as (Herr & Hth & Hrl & Hout & Hrep & Hllm & Hsc & Hex & Hdeep & Hbe).
  split_and!; try done.
  - intros target. rewrite Htargets, !elem_of_app.
    intros [Hin|[Hin|Hin]]; [by left|by right; left|right; right].
    apply elem_of_concat in Hin as (ts & Hin & Hts).
    apply list_elem_of_fmap in Hts as (file & -> & _).
    pose proof (loaded_clean fs file) as Hall. rewrite Forall_forall in Hall.
    by apply Hall.
  - intros entry. rewrite Hwarn. intros Hin.
    apply list_elem_of_omap in Hin as (file & Hfile & Hentry).
    unfold Config.unreadable in Hentry.
    destruct (fs file) as [data|err] eqn:Hfs; [done|].
    injection Hentry as <-. split; [done|]. by exists file, err.
  - rewrite Htargets. unfold len. rewrite length_app. lia.
  - rewrite Hout. apply overridden_string_kept.
  - rewrite Hrep. apply overridden_string_kept.
  - rewrite Hllm. apply overridden_string_kept.
  - rewrite Hsc. apply overridden_string_kept.
  - intros excluded Hflag. by rewrite Hex, Hflag.
  - intros deep Hflag. by rewrite Hdeep, Hflag.
  - intros on Hflag. by rewrite Hbe, Hflag.
Qed.
